(** * Workflow input protocols of aiida-quantumespresso

    A verification development for
    [aiida_quantumespresso/workflows/protocols/utils.py], and for the
    enumeration of [aiida_quantumespresso/common/types.py].

    Python objects are modelled the way the interpreter has them: every
    dictionary is an object in a store ([heap]), named by a location, and a
    dictionary entry that is itself a dictionary holds the location of that
    object, so that the in-place assignment [right[key] = ...] of
    [recursive_merge] and the sharing between the returned dictionary and the
    arguments are visible.  Scalars and sequences are immutable values: the
    code never looks inside a sequence.  Dictionary keys are strings, kept in
    insertion order.  Floats are IEEE 754 binary64 numbers.

    What lies outside the module is a parameter of the functions: the parsed
    content of a YAML file is a tree ([data]), and loading a file allocates
    fresh objects for it, without sharing (YAML aliases are not modelled);
    a structure is the list of its kinds; a pseudo potential family is the
    function that gives the number of valence electrons of the pseudo
    potential of an element, or the exception of the lookup.  Of the way
    from a workflow class to its protocol file, the model has the part that
    the module computes: the relative path, from the name of the entry
    point, with the [os.path.join] of POSIX.

    The recursion of [recursive_merge] follows the nesting of the
    dictionaries in the store, which may be cyclic: the model bounds its
    depth by a [fuel], and the theorems show that the nesting depth of either
    argument is enough fuel. *)

From Stdlib Require Import ZArith Ascii Floats.SpecFloat.
From stdpp Require Import base tactics option list strings.

Open Scope string_scope.
Open Scope list_scope.
Open Scope nat_scope.

(** * The program *)

(** ** Values *)

(** Python [float]: IEEE 754 binary64. *)
Definition float := spec_float.
Definition prec := 53%Z.
Definition emax := 1024%Z.

Inductive scalar :=
| SNone
| SBool (b : bool)
| SInt (z : Z)
| SFloat (f : float)
| SStr (s : string).

(** Association lists with string keys, in insertion order. *)
Abbreviation dict A := (list (string * A)).

(** Tree-shaped data: what [yaml.safe_load] parses, and the deep value of an
    object graph. *)
Unset Elimination Schemes.
Inductive data :=
| DScalar (s : scalar)
| DSeq (l : list data)
| DMap (items : dict data).
Set Elimination Schemes.

Definition loc := nat.

(** A value held by a variable or by a dictionary entry. *)
Inductive val :=
| VScalar (s : scalar)
| VSeq (l : list data)
| VRef (l : loc).

Abbreviation heap := (list (dict val)).

(** ** Outcomes *)

Inductive exn :=
| KeyError (key : string)
| TypeError
| AttributeError
| ValueError
| ZeroDivisionError
| OverflowError.

(** [OutOfFuel]: the recursion bound of the model was reached.
    [Unsupported]: the input is outside the modelled fragment of Python (a
    key that is not a string, a string or a sequence used where
    [recursive_merge] expects a dictionary, a dangling location). *)
Inductive res (A : Type) :=
| Ok (a : A)
| Raise (e : exn)
| OutOfFuel
| Unsupported.

Arguments Ok {A} a.
Arguments Raise {A} e.
Arguments OutOfFuel {A}.
Arguments Unsupported {A}.

#[global] Instance res_ret : MRet res := @Ok.

#[global] Instance res_bind : MBind res := fun A B f m =>
  match m with
  | Ok a => f a
  | Raise e => Raise e
  | OutOfFuel => OutOfFuel
  | Unsupported => Unsupported
  end.

(** ** Dictionaries *)

(** The keys of a dictionary, in order. *)
Abbreviation keys d := (d.*1).

Section Dict.
Context {A : Type}.

(** [d[k]], [None] when [k not in d]. *)
Fixpoint dict_get (k : string) (d : dict A) : option A :=
  match d with
  | [] => None
  | (k', v) :: d' => if decide (k = k') then Some v else dict_get k d'
  end.

(** [d[k] = v]: an existing key keeps its position, a new one goes last. *)
Fixpoint dict_set (k : string) (v : A) (d : dict A) : dict A :=
  match d with
  | [] => [(k, v)]
  | (k', v') :: d' =>
      if decide (k = k') then (k, v) :: d' else (k', v') :: dict_set k v d'
  end.

(** [d.update(d2)] *)
Definition dict_update (d d2 : dict A) : dict A :=
  foldl (fun acc kv => dict_set kv.1 kv.2 acc) d d2.

(** [d] without the key [k]. *)
Fixpoint dict_remove (k : string) (d : dict A) : dict A :=
  match d with
  | [] => []
  | (k', v) :: d' =>
      if decide (k = k') then d' else (k', v) :: dict_remove k d'
  end.
End Dict.

(** ** The store *)

(** The dictionary at a location. *)
Definition lookup_obj (h : heap) (l : loc) : res (dict val) :=
  match h !! l with
  | Some d => Ok d
  | None => Unsupported
  end.

(** [obj[key]] for a string key. *)
Definition getitem (h : heap) (obj : val) (key : string) : res val :=
  match obj with
  | VRef l =>
      d ← lookup_obj h l;
      match dict_get key d with
      | Some v => Ok v
      | None => Raise (KeyError key)
      end
  | _ => Raise TypeError
  end.

(** ** recursive_merge *)

(** [for key, value in left.items(): body].  The view is live: each step
    reads entry [i] of the dictionary as it is then.  No loop below changes
    the size of the dictionary that it iterates over. *)
Fixpoint for_items (body : string → val → heap → res heap)
    (left : loc) (i n : nat) (h : heap) : res heap :=
  match n with
  | 0 => Ok h
  | S n' =>
      dl ← lookup_obj h left;
      match dl !! i with
      | Some (key, value) =>
          h' ← body key value h;
          for_items body left (S i) n' h'
      | None => Unsupported
      end
  end.

(** The body of the loop of [recursive_merge]; [self] is the recursive
    call. *)
Definition merge_body (self : loc → loc → heap → res (loc * heap))
    (right : loc) (key : string) (value : val) (h : heap) : res heap :=
  dr ← lookup_obj h right;
  match dict_get key dr with
  | Some rv =>
      match value, rv with
      | VRef a, VRef b =>
          '(m, h1) ← self a b h;
          dr1 ← lookup_obj h1 right;
          Ok (<[right := dict_set key (VRef m) dr1]> h1)
      | _, _ => Ok h
      end
  | None => Ok h
  end.

(** [recursive_merge(left, right)] on two dictionaries: the loop assigns
    to [right], then a copy of [left] is updated with [right] and
    returned. *)
Fixpoint recursive_merge (fuel : nat) (left right : loc) (h : heap)
    : res (loc * heap) :=
  match fuel with
  | 0 => OutOfFuel
  | S fuel' =>
      dl ← lookup_obj h left;
      h1 ← for_items (merge_body (recursive_merge fuel') right)
             left 0 (length dl) h;
      (* merged = left.copy() *)
      dl1 ← lookup_obj h1 left;
      let merged := length h1 in
      let h2 := h1 ++ [dl1] in
      (* merged.update(right) *)
      dr ← lookup_obj h2 right;
      Ok (merged, <[merged := dict_update dl1 dr]> h2)
  end.

(** ** The path of a protocol file *)

(** The first part of [s.split(sep)] and the parts after it, for a
    separator of one character. *)
Fixpoint split_parts (sep : ascii) (s : string) : string * list string :=
  match s with
  | EmptyString => ("", [])
  | String c s' =>
      let '(part, parts) := split_parts sep s' in
      if decide (c = sep) then ("", part :: parts)
      else (String c part, parts)
  end.

(** [s.split(sep)] *)
Definition str_split (sep : ascii) (s : string) : list string :=
  let '(part, parts) := split_parts sep s in part :: parts.

(** [l.pop()]: the list without its last element, and that element;
    [None] on the empty list. *)
Fixpoint pop {A} (l : list A) : option (list A * A) :=
  match l with
  | [] => None
  | x :: l' =>
      match pop l' with
      | None => Some ([], x)
      | Some (r, y) => Some (x :: r, y)
      end
  end.

(** [b.startswith('/')] *)
Definition startswith_sep (b : string) : bool :=
  match b with
  | String c _ => bool_decide (c = "/"%char)
  | EmptyString => false
  end.

(** [a.endswith('/')] *)
Fixpoint endswith_sep (a : string) : bool :=
  match a with
  | EmptyString => false
  | String c EmptyString => bool_decide (c = "/"%char)
  | String _ a' => endswith_sep a'
  end.

(** [os.path.join(a, b)], as [posixpath] has it: a [b] that starts with a
    slash replaces [a]; otherwise [b] is appended, after a slash unless [a]
    is empty or ends with one. *)
Definition path_join (a b : string) : string :=
  if startswith_sep b then b
  else if bool_decide (a = "") || endswith_sep a then a +:+ b
  else a +:+ "/" +:+ b.

(** What [load_protocol_file] can raise before it opens the file: the
    [IndexError] of [pop] on an empty list, or an exception of [exn]. *)
Inductive path_exn :=
| IndexError
| Builtin (e : exn).

(** The path that [load_protocol_file] opens, relative to the directory of
    the module, as the pair of [basepath] and [filename];
    [entry_point_name] is the name of the entry point of the class. *)
Definition protocol_file_path (entry_point_name : string)
    : path_exn + string * string :=
  let parts := str_split "." entry_point_name in
  (* parts.pop(0) *)
  match parts with
  | [] => inl IndexError
  | _ :: parts =>
      (* filename = f'{parts.pop()}.yaml' *)
      match pop parts with
      | None => inl IndexError
      | Some (parts, last) =>
          let filename := last +:+ ".yaml" in
          (* basepath = functools.reduce(os.path.join, parts) *)
          match parts with
          | [] => inl (Builtin TypeError)
          | first :: rest => inr (foldl path_join first rest, filename)
          end
      end
  end.

(** ** Protocol files *)

(** The keys of every mapping of a parsed tree are distinct (outside
    sequences, which the code does not enter). *)
Fixpoint wf (t : data) : bool :=
  match t with
  | DMap items =>
      bool_decide (NoDup (keys items)) && forallb (λ kv, wf kv.2) items
  | _ => true
  end.

(** Fresh objects for a parsed tree, as [yaml.safe_load] builds them. *)
Fixpoint alloc (t : data) (h : heap) : val * heap :=
  match t with
  | DScalar s => (VScalar s, h)
  | DSeq q => (VSeq q, h)
  | DMap items =>
      let '(d, h1) :=
        (fix go (items : dict data) (h : heap) : dict val * heap :=
           match items with
           | [] => ([], h)
           | kv :: rest =>
               let '(v, h1) := alloc kv.2 h in
               let '(d, h2) := go rest h1 in
               ((kv.1, v) :: d, h2)
           end) items h in
      (VRef (length h1), h1 ++ [d])
  end.

(** [load_protocol_file(cls)]: [file] is the parsed content of the YAML
    file that the entry point of the class resolves to; every call builds
    the objects anew. *)
Definition load_protocol_file (file : data) (h : heap) : res (val * heap) :=
  Ok (alloc file h).

(** [get_default_protocol(cls)] *)
Definition get_default_protocol (file : data) (h : heap)
    : res (val * heap) :=
  '(data, h0) ← load_protocol_file file h;
  v ← getitem h0 data "default";
  Ok (v, h0).

(** The body of the comprehension of [get_available_protocols], filling
    the dictionary at [out]:
    [out[protocol] = {'description': values['description']}]. *)
Definition describe_body (out : loc) (protocol : string) (values : val)
    (h : heap) : res heap :=
  v ← getitem h values "description";
  let inner := length h in
  let h1 := h ++ [[("description", v)]] in
  d ← lookup_obj h1 out;
  Ok (<[out := dict_set protocol (VRef inner) d]> h1).

(** [get_available_protocols(cls)]: a new dictionary, filled by the
    comprehension over [data['protocols'].items()]. *)
Definition get_available_protocols (file : data) (h : heap)
    : res (loc * heap) :=
  '(data, h0) ← load_protocol_file file h;
  protocols ← getitem h0 data "protocols";
  match protocols with
  | VRef p =>
      dp ← lookup_obj h0 p;
      let out := length h0 in
      h1 ← for_items (describe_body out) p 0 (length dp) (h0 ++ [[]]);
      Ok (out, h1)
  | _ => Raise AttributeError
  end.

(** [obj[key]] where the key is a value. *)
Definition getitem_val (h : heap) (obj key : val) : res val :=
  match key with
  | VScalar (SStr s) => getitem h obj s
  | VScalar _ => Unsupported
  | _ => Raise TypeError
  end.

(** [recursive_merge(left, right)] on values: a [left] that is no
    dictionary has no [items]; a [right] that is [None] or a number is
    not iterable. *)
Definition call_recursive_merge (fuel : nat) (left right : val) (h : heap)
    : res (loc * heap) :=
  match left, right with
  | VRef l, VRef r => recursive_merge fuel l r h
  | VRef _, VScalar (SStr _) => Unsupported
  | VRef _, VSeq _ => Unsupported
  | VRef _, VScalar _ => Raise TypeError
  | _, _ => Raise AttributeError
  end.

(** [get_protocol_inputs(cls, protocol, overrides)]; [fuel] bounds the
    depth of the recursion of [recursive_merge]. *)
Definition get_protocol_inputs (fuel : nat) (file : data)
    (protocol : option string) (overrides : option loc) (h : heap)
    : res (loc * heap) :=
  '(data, h0) ← load_protocol_file file h;
  (* protocol = protocol or data['default'] *)
  protocol ← match protocol with
             | Some s =>
                 if decide (s = "") then getitem h0 data "default"
                 else Ok (VScalar (SStr s))
             | None => getitem h0 data "default"
             end;
  base ← getitem h0 data "base";
  protocols ← getitem h0 data "protocols";
  entry ← getitem_val h0 protocols protocol;
  '(inputs, h1) ← call_recursive_merge fuel base entry h0;
  (* inputs.pop('description') *)
  di ← lookup_obj h1 inputs;
  match dict_get "description" di with
  | None => Raise (KeyError "description")
  | Some _ =>
      let h2 := <[inputs := dict_remove "description" di]> h1 in
      (* if overrides: *)
      match overrides with
      | Some o =>
          do ← lookup_obj h2 o;
          match do with
          | [] => Ok (inputs, h2)
          | _ :: _ => recursive_merge fuel inputs o h2
          end
      | None => Ok (inputs, h2)
      end
  end.

(** ** Initial magnetization *)

(** A kind of a structure: its element symbol and its name. *)
Record kind := { symbol : string; name : string }.

(** [obj[key]] on a tree. *)
Definition data_getitem (obj : data) (key : string) : res data :=
  match obj with
  | DMap items =>
      match dict_get key items with
      | Some v => Ok v
      | None => Raise (KeyError key)
      end
  | _ => Raise TypeError
  end.

(** [0.0] *)
Definition float_zero : float := S754_zero false.

(** [float(z)] *)
Definition float_of_Z (z : Z) : res float :=
  match binary_normalize prec emax z 0 false with
  | S754_infinity _ => Raise OverflowError
  | f => Ok f
  end.

(** [v == 0] *)
Definition eq_zero (v : data) : bool :=
  match v with
  | DScalar (SInt z) => bool_decide (z = 0%Z)
  | DScalar (SBool b) => negb b
  | DScalar (SFloat f) => SFeqb f float_zero
  | _ => false
  end.

(** The float operand that [v / y] converts a number [v] to. *)
Definition as_float (v : data) : res float :=
  match v with
  | DScalar (SInt z) => float_of_Z z
  | DScalar (SBool b) => float_of_Z (if b then 1 else 0)
  | DScalar (SFloat f) => Ok f
  | _ => Raise TypeError
  end.

(** [v / y] for a float [y] *)
Definition truediv (v : data) (y : float) : res data :=
  x ← as_float v;
  if SFeqb y float_zero then Raise ZeroDivisionError
  else Ok (DScalar (SFloat (SFdiv prec emax x y))).

(** The value that the loop of [get_initial_magnetization] assigns for the
    element [symbol]; [pseudo_family] gives the [z_valence] of the pseudo
    potential of an element, or the exception of the lookup. *)
Definition magnetization_of (magnetic_parameters : data)
    (pseudo_family : string → res Z) (symbol : string) : res data :=
  entry ← data_getitem magnetic_parameters symbol;
  magnetic_moment ← data_getitem entry "magmom";
  if eq_zero magnetic_moment then
    data_getitem magnetic_parameters "default"
  else
    z_valence ← pseudo_family symbol;
    y ← float_of_Z z_valence;
    truediv magnetic_moment y.

(** [for kind in structure.kinds: ...], filling
    [initial_magnetization]. *)
Fixpoint magnetization_loop (magnetic_parameters : data)
    (pseudo_family : string → res Z) (kinds : list kind)
    (initial_magnetization : dict data) : res (dict data) :=
  match kinds with
  | [] => Ok initial_magnetization
  | kind :: kinds' =>
      magnetic_moment ←
        magnetization_of magnetic_parameters pseudo_family (symbol kind);
      magnetization_loop magnetic_parameters pseudo_family kinds'
        (dict_set (name kind) magnetic_moment initial_magnetization)
  end.

(** [get_initial_magnetization(structure, pseudo_family)];
    [magnetic_parameters] is the parsed content of [magnetization.yaml] and
    [kinds] is [structure.kinds]. *)
Definition get_initial_magnetization (magnetic_parameters : data)
    (kinds : list kind) (pseudo_family : string → res Z) : res (dict data) :=
  magnetization_loop magnetic_parameters pseudo_family kinds [].

(** ** Relax types *)

(** [class RelaxType(enum.Enum)] *)
Inductive RelaxType :=
| NONE
| ATOMS
| VOLUME
| SHAPE
| CELL
| ATOMS_VOLUME
| ATOMS_SHAPE
| ATOMS_CELL.

(** [list(RelaxType)]: the members in the order of their definition. *)
Definition RelaxType_members : list RelaxType :=
  [NONE; ATOMS; VOLUME; SHAPE; CELL; ATOMS_VOLUME; ATOMS_SHAPE; ATOMS_CELL].

(** [member.value] *)
Definition RelaxType_value (member : RelaxType) : string :=
  match member with
  | NONE => "none"
  | ATOMS => "atoms"
  | VOLUME => "volume"
  | SHAPE => "shape"
  | CELL => "cell"
  | ATOMS_VOLUME => "atoms_volume"
  | ATOMS_SHAPE => "atoms_shape"
  | ATOMS_CELL => "atoms_cell"
  end.

(** [RelaxType(value)]: the first member with that value; [ValueError] if
    there is none. *)
Definition RelaxType_call (value : string) : res RelaxType :=
  match find (λ member, bool_decide (RelaxType_value member = value))
          RelaxType_members with
  | Some member => Ok member
  | None => Raise ValueError
  end.

(** ** Deep values *)

(** Structural induction on [data]; the entries of a mapping come with the
    induction hypothesis, the elements of a sequence are not visited. *)
Section DataInd.
Variable P : data → Prop.
Hypothesis Hscalar : ∀ s, P (DScalar s).
Hypothesis Hseq : ∀ l, P (DSeq l).
Hypothesis Hmap : ∀ items, Forall (λ kv, P kv.2) items → P (DMap items).

Fixpoint data_ind (t : data) : P t :=
  match t with
  | DScalar s => Hscalar s
  | DSeq l => Hseq l
  | DMap items =>
      Hmap items
        ((fix go (items : dict data) : Forall (λ kv, P kv.2) items :=
            match items with
            | [] => List.Forall_nil _
            | kv :: rest =>
                @List.Forall_cons _ _ kv rest (data_ind kv.2) (go rest)
            end) items)
  end.
End DataInd.

(** Nesting depth of the mappings of a tree, through mappings only. *)
Fixpoint depth (t : data) : nat :=
  match t with
  | DMap items => S (foldr (λ kv n, depth kv.2 `max` n) 0 items)
  | _ => 0
  end.

(** The contract of section 4.1 on trees: all keys of both; where both
    values are mappings, merge recursively; otherwise the right value wins.
    The keys of [l] come first, in their order, then the new keys of [r]. *)
Definition merge_with (f : data → data → data) (l r : dict data)
    : dict data :=
  map (λ kv, (kv.1, match dict_get kv.1 r with
                    | Some rv => f kv.2 rv
                    | None => kv.2
                    end)) l
  ++ filter (λ kv, kv.1 ∉ keys l) r.

(** The value at a key that both mappings have. *)
Fixpoint merge_value (a b : data) {struct a} : data :=
  match a, b with
  | DMap l, DMap r => DMap (merge_with merge_value l r)
  | _, _ => b
  end.

(** The merge of two mappings. *)
Definition merge_spec (l r : dict data) : dict data :=
  merge_with merge_value l r.

(** [repr h v t F]: in the store [h] the value [v] is the root of an object
    graph whose deep value is the tree [t]; [F] lists the locations of the
    dictionaries visited, once per visit, so that [NoDup F] says that no
    dictionary is shared. *)
Inductive repr (h : heap) : val → data → list loc → Prop :=
| repr_scalar s : repr h (VScalar s) (DScalar s) []
| repr_seq l : repr h (VSeq l) (DSeq l) []
| repr_ref l d items F :
    h !! l = Some d →
    NoDup (keys d) →
    repr_items h d items F →
    repr h (VRef l) (DMap items) (l :: F)
with repr_items (h : heap) : dict val → dict data → list loc → Prop :=
| repr_nil : repr_items h [] [] []
| repr_cons k v t d items F1 F2 :
    repr h v t F1 →
    repr_items h d items F2 →
    repr_items h ((k, v) :: d) ((k, t) :: items) (F1 ++ F2).

Scheme repr_mut := Minimality for repr Sort Prop
  with repr_items_mut := Minimality for repr_items Sort Prop.

(** [h'] extends [h] and agrees with it outside [M]. *)
Definition frame (M : list loc) (h h' : heap) : Prop :=
  length h ≤ length h' ∧
  ∀ x, x < length h → x ∉ M → h' !! x = h !! x.

(** * Vocabulary of the specification *)

(** ** Calls of recursive_merge *)

(** What [right] holds after [recursive_merge(left, right)]: the entries
    that were merged recursively have been assigned to it. *)
Definition right_after (l r : dict data) : dict data :=
  map (λ kv, (kv.1, match dict_get kv.1 l with
                    | Some a => merge_value a kv.2
                    | None => kv.2
                    end)) r.

(** The outcome of a call on a left graph of value [tl] and footprint [Fl]
    and a right graph of value [tr] and footprint [Fr]. *)
Definition merge_post (h : heap) (r : loc) (tl tr : dict data)
    (Fl Fr : list loc) (out : res (loc * heap)) : Prop :=
  ∃ m h' Fm Fr',
    out = Ok (m, h') ∧
    frame Fr h h' ∧
    length h ≤ m ∧
    repr h' (VRef m) (DMap (merge_spec tl tr)) Fm ∧
    (∀ x, x ∈ Fm → x ∈ Fl ∨ x ∈ Fr ∨ length h ≤ x) ∧
    repr h' (VRef r) (DMap (right_after tl tr)) Fr' ∧
    ∃ Fm', Fm = m :: Fm' ∧ ∀ x, x ∈ Fm' → x < m.

(** Two footprints that have no location in common. *)
Definition separate (Fl Fr : list loc) : Prop :=
  ∀ x, x ∈ Fl → x ∈ Fr → False.

(** The arguments of a call: two graphs that share nothing, the right one
    without sharing inside. *)
Definition merge_pre (h : heap) (l r : loc) (tl tr : dict data)
    (Fl Fr : list loc) : Prop :=
  repr h (VRef l) (DMap tl) Fl ∧
  repr h (VRef r) (DMap tr) Fr ∧
  NoDup Fr ∧
  separate Fl Fr.

(** The state of the loop when the first [i] entries of [left] are done:
    nothing outside the right graph has changed, and the entry of [right]
    at each key holds the merged value if the key is among those [i]
    entries, and is otherwise as it was. *)
Definition loop_inv (h : heap) (r : loc) (dl dr : dict val)
    (tl : dict data) (Fl Fr : list loc) (i : nat) (hc : heap) : Prop :=
  frame (r :: Fr) h hc ∧
  ∃ drc, hc !! r = Some drc ∧ keys drc = keys dr ∧
    ∀ k vb tb Fb, dict_get k dr = Some vb → repr h vb tb Fb →
      ∃ vc Fc,
        dict_get k drc = Some vc ∧
        repr hc vc (match dict_get k (take i tl) with
                    | Some ta => merge_value ta tb
                    | None => tb
                    end) Fc ∧
        (∀ x, x ∈ Fc → x ∈ Fl ∨ x ∈ Fb ∨ length h ≤ x) ∧
        (k ∉ keys (take i dl) → vc = vb ∧ Fc = Fb).

(** ** Reading and loading graphs *)

(** The deep value and the footprint of [v], visiting at most [fuel]
    levels of dictionaries. *)
Fixpoint deep (fuel : nat) (h : heap) (v : val) : option (data * list loc) :=
  match v with
  | VScalar s => Some (DScalar s, [])
  | VSeq q => Some (DSeq q, [])
  | VRef l =>
      match fuel with
      | 0 => None
      | S fuel' =>
          d ← h !! l;
          guard (NoDup (keys d));;
          r ← foldr (λ kv acc,
                 '(items, F2) ← acc;
                 '(t, F1) ← deep fuel' h kv.2;
                 Some ((kv.1, t) :: items, F1 ++ F2))
               (Some ([], [])) d;
          Some (DMap r.1, l :: r.2)
      end
  end.

(** The entries of a mapping as [alloc] builds them. *)
Fixpoint alloc_items (items : dict data) (h : heap) : dict val * heap :=
  match items with
  | [] => ([], h)
  | kv :: rest =>
      let '(v, h1) := alloc kv.2 h in
      let '(d, h2) := alloc_items rest h1 in
      ((kv.1, v) :: d, h2)
  end.

(** [alloc t h] leaves [h] in place and builds the graph of [t] after it. *)
Definition alloc_post (t : data) (h : heap) (v : val) (h' : heap) : Prop :=
  ∃ F hs, h' = h ++ hs ∧ repr h' v t F ∧ NoDup F ∧ ∀ x, x ∈ F → length h ≤ x.

(** ** Calls of recursive_merge on one dictionary *)

(** The outcome of [recursive_merge(x, x)] on a graph of value [t] and
    footprint [F]: the result is a graph of fresh dictionaries with the same
    deep value, which [x] keeps as well. *)
Definition self_post (h : heap) (x : loc) (t : dict data) (F : list loc)
    (out : res (loc * heap)) : Prop :=
  ∃ m h' Fm Fx,
    out = Ok (m, h') ∧
    frame F h h' ∧
    repr h' (VRef m) (DMap t) Fm ∧
    (∀ y, y ∈ Fm → length h ≤ y) ∧
    repr h' (VRef x) (DMap t) Fx.

(** When the first [i] entries are done, their values have been replaced
    by fresh graphs of the same deep value; the others are as they
    were. *)
Definition self_inv (h : heap) (x : loc) (dx : dict val) (F : list loc)
    (i : nat) (hc : heap) : Prop :=
  frame (x :: F) h hc ∧
  ∃ dxc, hc !! x = Some dxc ∧ keys dxc = keys dx ∧
    ∀ k v tk Fk, dict_get k dx = Some v → repr h v tk Fk →
      ∃ vc Fc,
        dict_get k dxc = Some vc ∧
        repr hc vc tk Fc ∧
        (k ∈ keys (take i dx) → ∀ y, y ∈ Fc → length h ≤ y) ∧
        (k ∉ keys (take i dx) → vc = v ∧ Fc = Fk).

(** ** The contract of recursive_merge *)

(** [isinstance(t, collections.abc.Mapping)] on a tree. *)
Definition is_mapping (t : data) : bool :=
  match t with DMap _ => true | _ => false end.

(** [tk] is the deep value of what [recursive_merge] returns on two
    dictionaries of deep values [a] and [b]. *)
Definition returns_merge (a b tk : dict data) : Prop :=
  ∀ h l r Fl Fr,
    merge_pre h l r a b Fl Fr →
    ∃ m h' Fm,
      recursive_merge (depth (DMap a)) l r h = Ok (m, h') ∧
      repr h' (VRef m) (DMap tk) Fm.

(** ** Protocol inputs *)

(** The protocol that a call selects: the given name, or the [default] of
    the file when no name is given. *)
Definition selects (root : dict data) (protocol : option string)
    (name : string) : Prop :=
  protocol = Some name ∧ name ≠ "" ∨
  protocol = None ∧ dict_get "default" root = Some (DScalar (SStr name)).

(** The inputs before the overrides: the base merged with the entry of the
    protocol, without its description. *)
Definition protocol_inputs (base entry : dict data) : dict data :=
  dict_remove "description" (merge_spec base entry).

(** The value at a path of keys in a tree. *)
Fixpoint lookup_path (path : list string) (t : data) : option data :=
  match path with
  | [] => Some t
  | k :: path' =>
      match t with
      | DMap items => dict_get k items ≫= lookup_path path'
      | _ => None
      end
  end.

(** ** Available protocols *)

(** The [description] of a protocol. *)
Definition description_of (t : data) : option data :=
  match t with
  | DMap items => dict_get "description" items
  | _ => None
  end.

(** Every protocol of the file is a mapping with a [description]. *)
Definition described (protocols : dict data) : Prop :=
  ∀ name t, dict_get name protocols = Some t → is_Some (description_of t).

(** The mapping of the available protocols. *)
Definition available (protocols : dict data) : dict data :=
  omap (λ kv, d ← description_of kv.2;
              Some (kv.1, DMap [("description", d)])) protocols.

(** When the first [i] protocols are done, the new dictionary describes
    them, and the objects of the file are as they were. *)
Definition available_inv (h0 : heap) (dp : dict val) (protocols : dict data)
    (i : nat) (hc : heap) : Prop :=
  length h0 < length hc ∧
  (∀ x, x < length h0 → hc !! x = h0 !! x) ∧
  ∃ dout Fout,
    hc !! length h0 = Some dout ∧
    keys dout = keys (take i dp) ∧
    repr_items hc dout (available (take i protocols)) Fout ∧
    length h0 ∉ Fout.

(** ** Magnetization *)

(** The lookups of a kind succeed: the table has the element, with a
    [magmom]; the table has a [default] if the moment is zero; otherwise
    the moment is a number and the pseudo potential of the element has a
    valence that is not zero. *)
Definition kind_ok (table : dict data) (pseudo_family : string → res Z)
    (kind : kind) : Prop :=
  ∃ entry magmom,
    dict_get (symbol kind) table = Some (DMap entry) ∧
    dict_get "magmom" entry = Some magmom ∧
    if eq_zero magmom then is_Some (dict_get "default" table)
    else ∃ z x y,
      pseudo_family (symbol kind) = Ok z ∧
      as_float magmom = Ok x ∧
      float_of_Z z = Ok y ∧
      SFeqb y float_zero = false.

(** The value that the result has for a kind. *)
Definition assigned (table : dict data) (pseudo_family : string → res Z)
    (kind : kind) (v : data) : Prop :=
  ∃ entry magmom,
    dict_get (symbol kind) table = Some (DMap entry) ∧
    dict_get "magmom" entry = Some magmom ∧
    if eq_zero magmom then dict_get "default" table = Some v
    else ∃ z x y,
      pseudo_family (symbol kind) = Ok z ∧
      as_float magmom = Ok x ∧
      float_of_Z z = Ok y ∧
      v = DScalar (SFloat (SFdiv prec emax x y)).

(** ** What a call keeps *)

(** [h'] has the dictionaries of [h], each with the keys that it had, in
    the same order. *)
Definition keeps_keys (h h' : heap) : Prop :=
  ∀ (x : loc) d, h !! x = Some d → ∃ d', h' !! x = Some d' ∧ keys d' = keys d.

(** ** Entry point names *)

(** [c in s] for a character [c]. *)
Fixpoint contains (c : ascii) (s : string) : bool :=
  match s with
  | EmptyString => false
  | String c' s' => bool_decide (c' = c) || contains c s'
  end.

(** A component of a path: not empty, without a slash. *)
Definition component (s : string) : Prop :=
  s ≠ "" ∧ contains "/" s = false.

(** ** Examples *)

(** [left = {'a': {'x': {'p': 1}}, 'b': {'x': {}}}] at location 4 and
    [right = {'a': shared, 'b': shared}] at location 7, where
    [shared = {'x': {}}] is one dictionary, at location 6. *)
Definition example_shared_store : heap :=
  [ [("p", VScalar (SInt 1))];
    [("x", VRef 0)];
    [];
    [("x", VRef 2)];
    [("a", VRef 1); ("b", VRef 3)];
    [];
    [("x", VRef 5)];
    [("a", VRef 6); ("b", VRef 6)] ].

(** [left = {'a': {'x': 1}, 'c': [1]}] at location 1 and
    [right = {'a': {'y': 2}, 'b': None, 'c': []}] at location 3. *)
Definition example_store : heap :=
  [ [("x", VScalar (SInt 1))];
    [("a", VRef 0); ("c", VSeq [DScalar (SInt 1)])];
    [("y", VScalar (SInt 2))];
    [("a", VRef 2); ("b", VScalar SNone); ("c", VSeq [])] ].

Definition example_left : dict data :=
  [("a", DMap [("x", DScalar (SInt 1))]); ("c", DSeq [DScalar (SInt 1)])].

Definition example_right : dict data :=
  [("a", DMap [("y", DScalar (SInt 2))]); ("b", DScalar SNone);
   ("c", DSeq [])].

Definition example_base : dict data :=
  [("kpoints", DScalar (SInt 1));
   ("pw", DMap [("ecut", DScalar (SInt 30));
                ("smear", DScalar (SStr "cold"))])].

Definition example_fast : dict data :=
  [("description", DScalar (SStr "quick"));
   ("kpoints", DScalar (SInt 2));
   ("pw", DMap [("ecut", DScalar (SInt 20))])].

Definition example_protocols : dict data :=
  [("moderate", DMap [("description", DScalar (SStr "balanced"))]);
   ("fast", DMap example_fast)].

Definition example_root : dict data :=
  [("default", DScalar (SStr "moderate"));
   ("base", DMap example_base);
   ("protocols", DMap example_protocols)].

Definition example_file : data := DMap example_root.

(** [overrides = {'pw': {'ecut': 99}, 'new': None}] at location 1. *)
Definition example_overrides_store : heap :=
  [ [("ecut", VScalar (SInt 99))];
    [("pw", VRef 0); ("new", VScalar SNone)] ].

Definition example_overrides : dict data :=
  [("pw", DMap [("ecut", DScalar (SInt 99))]); ("new", DScalar SNone)].

Definition example_table : dict data :=
  [("default", DScalar (SFloat (S754_finite false 7205759403792794 (-56))));
   ("Fe", DMap [("magmom", DScalar (SInt 5))]);
   ("O", DMap [("magmom", DScalar (SFloat float_zero))])].

Definition example_kinds : list kind :=
  [ {| symbol := "Fe"; name := "Fe1" |};
    {| symbol := "O"; name := "O" |};
    {| symbol := "Fe"; name := "Fe2" |} ].

(** Eight valence electrons for iron, no pseudo potential for oxygen. *)
Definition example_family (symbol : string) : res Z :=
  if decide (symbol = "Fe") then Ok 8%Z else Raise ValueError.

Definition example_magnetization : dict data :=
  Eval vm_compute in
    match get_initial_magnetization (DMap example_table) example_kinds
            example_family with
    | Ok result => result
    | _ => []
    end.

(** A protocol file whose second protocol has no description. *)
Definition example_undescribed : dict data :=
  [("default", DScalar (SStr "fast"));
   ("base", DMap example_base);
   ("protocols",
    DMap [("moderate", DMap [("description", DScalar (SStr "balanced"))]);
          ("fast", DMap [("kpoints", DScalar (SInt 2))])])].

(** [left = {'k': {'q': {'p': 1}}, 'only': d}] at location 4 and
    [right = {'k': d}] at location 5, where [d = {'q': {}}] is one
    dictionary, at location 3. *)
Definition example_common_store : heap :=
  [ [("p", VScalar (SInt 1))];
    [("q", VRef 0)];
    [];
    [("q", VRef 2)];
    [("k", VRef 1); ("only", VRef 3)];
    [("k", VRef 3)] ].

(** A protocol file of a relaxation, where the final calculation has
    inputs of its own. *)
Definition example_relax_base : dict data :=
  [("base", DMap [("pw", DMap [("calculation", DScalar (SStr "vc-relax"))])]);
   ("base_final_scf",
    DMap [("pw", DMap [("calculation", DScalar (SStr "scf"))])])].

Definition example_relax_root : dict data :=
  [("default", DScalar (SStr "moderate"));
   ("base", DMap example_relax_base);
   ("protocols",
    DMap [("moderate", DMap [("description", DScalar (SStr "balanced"))])])].

(** [overrides = {'base': c, 'base_final_scf': c}] at location 2, where
    [c = {'pw': {'nspin': 2}}] is one dictionary, at location 1. *)
Definition example_shared_overrides_store : heap :=
  [ [("nspin", VScalar (SInt 2))];
    [("pw", VRef 0)];
    [("base", VRef 1); ("base_final_scf", VRef 1)] ].

Definition example_shared_overrides : dict data :=
  [("base", DMap [("pw", DMap [("nspin", DScalar (SInt 2))])]);
   ("base_final_scf", DMap [("pw", DMap [("nspin", DScalar (SInt 2))])])].

(** A protocol file with a protocol under the empty name. *)
Definition example_unnamed_root : dict data :=
  [("default", DScalar (SStr "moderate"));
   ("base", DMap example_base);
   ("protocols",
    DMap [("", DMap [("description", DScalar (SStr "unnamed"));
                     ("kpoints", DScalar (SInt 7))]);
          ("moderate", DMap [("description", DScalar (SStr "balanced"))])])].

(** * Dictionaries: lookups and updates *)

Lemma filter_ext_elem_of {A} (P Q : A → Prop)
    `{!∀ x, Decision (P x), !∀ x, Decision (Q x)} (l : list A) :
  (∀ x, x ∈ l → P x ↔ Q x) → filter P l = filter Q l.
Proof.
  induction l as [|x l IH]; intros HPQ; [done|].
  rewrite !filter_cons.
  rewrite IH by (intros y Hy; apply HPQ; by right).
  pose proof (HPQ x (list_elem_of_here _ _)).
  repeat case_decide; naive_solver.
Qed.

Lemma filter_none {A} (P : A → Prop) `{!∀ x, Decision (P x)} (l : list A) :
  (∀ x, x ∈ l → ¬ P x) → filter P l = [].
Proof.
  induction l as [|x l IH]; intros HP; [done|].
  rewrite filter_cons_False by (apply HP; by left).
  apply IH. intros y Hy. apply HP. by right.
Qed.

Lemma filter_all {A} (P : A → Prop) `{!∀ x, Decision (P x)} (l : list A) :
  (∀ x, x ∈ l → P x) → filter P l = l.
Proof.
  induction l as [|x l IH]; intros HP; [done|].
  rewrite filter_cons_True by (apply HP; by left).
  f_equal. apply IH. intros y Hy. apply HP. by right.
Qed.

Section DictFacts.
Context {A : Type}.
Implicit Types (d : dict A) (k : string) (v : A).

Lemma dict_get_None k d : dict_get k d = None ↔ k ∉ keys d.
Proof.
  induction d as [|[k' v'] d IH]; simpl.
  - split; [intros _; apply not_elem_of_nil | done].
  - rewrite not_elem_of_cons. case_decide; naive_solver.
Qed.

Lemma dict_get_is_Some k d : is_Some (dict_get k d) ↔ k ∈ keys d.
Proof.
  rewrite <- not_eq_None_Some, dict_get_None.
  destruct (decide (k ∈ keys d)); naive_solver.
Qed.

Lemma dict_get_elem_of k v d : dict_get k d = Some v → (k, v) ∈ d.
Proof.
  induction d as [|[k' v'] d IH]; simpl; [done|].
  case_decide; intros ?; simplify_eq; [left | right; auto].
Qed.

Lemma dict_get_app k d1 d2 :
  dict_get k (d1 ++ d2) =
    match dict_get k d1 with Some v => Some v | None => dict_get k d2 end.
Proof.
  induction d1 as [|[k' v'] d1 IH]; simpl; [done|]. by case_decide.
Qed.

Lemma dict_get_lookup i k v d :
  NoDup (keys d) → d !! i = Some (k, v) → dict_get k d = Some v.
Proof.
  revert i. induction d as [|[k' v'] d IH]; intros i Hnd Hi; [done|].
  simpl in *. apply NoDup_cons in Hnd as [Hk Hnd].
  destruct i as [|i]; simplify_eq/=.
  - by rewrite decide_True.
  - rewrite decide_False; [by eapply IH|].
    intros ->. apply Hk. apply list_elem_of_fmap.
    exists (k', v). split; [done|]. by eapply list_elem_of_lookup_2.
Qed.

Lemma keys_dict_set_in k v d :
  k ∈ keys d → keys (dict_set k v d) = keys d.
Proof.
  induction d as [|[k' v'] d IH]; simpl.
  - by intros ?%elem_of_nil.
  - intros Hk. case_decide; simplify_eq/=; [done|].
    f_equal. apply IH. apply elem_of_cons in Hk as [?|?]; done.
Qed.

Lemma keys_dict_set_notin k v d :
  k ∉ keys d → keys (dict_set k v d) = keys d ++ [k].
Proof.
  induction d as [|[k' v'] d IH]; simpl; [done|].
  intros [? ?]%not_elem_of_cons. rewrite decide_False by done.
  simpl. f_equal. auto.
Qed.

Lemma dict_get_set k k' v d :
  dict_get k' (dict_set k v d) =
    if decide (k' = k) then Some v else dict_get k' d.
Proof.
  induction d as [|[k0 v0] d IH]; simpl.
  - repeat case_decide; congruence.
  - destruct (decide (k = k0)) as [->|Hne]; simpl.
    + repeat case_decide; congruence.
    + rewrite IH. repeat case_decide; congruence.
Qed.

Lemma dict_set_notin k v d : k ∉ keys d → dict_set k v d = d ++ [(k, v)].
Proof.
  induction d as [|[k' v'] d IH]; simpl; [done|].
  intros [? ?]%not_elem_of_cons. rewrite decide_False by done.
  f_equal. auto.
Qed.

Lemma NoDup_keys_dict_set k v d :
  NoDup (keys d) → NoDup (keys (dict_set k v d)).
Proof.
  intros Hnd. destruct (decide (k ∈ keys d)) as [Hin|Hout].
  - by rewrite keys_dict_set_in.
  - rewrite keys_dict_set_notin by done.
    apply NoDup_app. split_and!; [done| |apply NoDup_singleton].
    intros x Hx ->%list_elem_of_singleton. done.
Qed.

Lemma NoDup_keys_dict_update d d2 :
  NoDup (keys d) → NoDup (keys (dict_update d d2)).
Proof.
  unfold dict_update. revert d.
  induction d2 as [|[k v] d2 IH]; intros d Hnd; simpl; [done|].
  apply IH. by apply NoDup_keys_dict_set.
Qed.

Lemma dict_get_update k d d2 :
  NoDup (keys d2) →
  dict_get k (dict_update d d2) =
    match dict_get k d2 with Some v => Some v | None => dict_get k d end.
Proof.
  unfold dict_update. revert d.
  induction d2 as [|[k2 v2] d2 IH]; intros d Hnd; simpl; [done|].
  apply NoDup_cons in Hnd as [Hk Hnd]. rewrite IH by done.
  rewrite dict_get_set. case_decide as Heq; subst.
  - simpl in Hk. apply dict_get_None in Hk. by rewrite Hk.
  - by destruct (dict_get k d2).
Qed.

(** The entries of [d.update(d2)]: those of [d], with the value of [d2]
    where it has the key, then the new entries of [d2]. *)
Lemma dict_update_spec d d2 :
  NoDup (keys d) → NoDup (keys d2) →
  dict_update d d2 =
    map (λ kv, (kv.1, default kv.2 (dict_get kv.1 d2))) d
    ++ filter (λ kv, kv.1 ∉ keys d) d2.
Proof.
  unfold dict_update. revert d.
  induction d2 as [|[k v] d2 IH]; intros d Hd Hnd.
  - simpl. rewrite app_nil_r. clear Hd.
    induction d as [|[??] d IHd]; simpl; by f_equal.
  - rewrite fmap_cons in Hnd. apply NoDup_cons in Hnd as [Hk Hnd].
    simpl in Hk. apply dict_get_None in Hk as Hk'.
    cbn [foldl fst snd].
    rewrite IH by auto using NoDup_keys_dict_set.
    destruct (decide (k ∈ keys d)) as [Hin|Hout].
    + rewrite filter_cons_False by (cbn; naive_solver).
      rewrite keys_dict_set_in by done. f_equal.
      clear IH. induction d as [|[k' v'] d IHd];
        [by apply elem_of_nil in Hin|].
      rewrite fmap_cons in Hd. apply NoDup_cons in Hd as [Hk1 Hd].
      cbn [dict_set].
      destruct (decide (k = k')) as [->|Hne].
      * cbn [map fst snd dict_get]. rewrite Hk'.
        rewrite decide_True by done. f_equal.
        apply map_ext_in. intros [k1 v1] Hin1. cbn [fst snd dict_get].
        rewrite decide_False; [done|]. intros ->. apply Hk1.
        apply list_elem_of_fmap. exists (k', v1). split; [done|].
        by apply list_elem_of_In.
      * cbn [map fst snd dict_get].
        rewrite (decide_False (P := k' = k)) by done. f_equal.
        apply IHd; [done|].
        rewrite fmap_cons in Hin. apply elem_of_cons in Hin as [?|?]; done.
    + rewrite filter_cons_True by done.
      rewrite dict_set_notin by done. rewrite map_app, <-app_assoc.
      f_equal.
      * apply map_ext_in. intros [k1 v1] Hin1. cbn [fst snd dict_get].
        rewrite decide_False; [done|]. intros ->. apply Hout.
        apply list_elem_of_fmap. exists (k, v1). split; [done|].
        by apply list_elem_of_In.
      * cbn [map fst snd app]. rewrite Hk'. cbn [default]. f_equal.
        apply filter_ext_elem_of. intros [k1 v1] Hin1. cbn [fst].
        rewrite fmap_app, not_elem_of_app. cbn.
        rewrite list_elem_of_singleton.
        split; [naive_solver|]. intros ?. split; [done|].
        intros ->. apply Hk. apply list_elem_of_fmap. by exists (k, v1).
Qed.
End DictFacts.

(** * Object graphs in the store *)

Lemma lookup_obj_Some (h : heap) l d : h !! l = Some d → lookup_obj h l = Ok d.
Proof. unfold lookup_obj. by intros ->. Qed.

Lemma res_bind_Ok {A B} (f : A → res B) (a : A) : Ok a ≫= f = f a.
Proof. done. Qed.

Lemma frame_refl M h : frame M h h.
Proof. split; auto. Qed.

Section ReprFacts.
Implicit Types (h : heap) (v : val) (t : data) (F : list loc).

Lemma repr_bound h v t F : repr h v t F → Forall (λ x, x < length h) F.
Proof.
  induction 1 using repr_mut
    with (P0 := λ d items F, Forall (λ x, x < length h) F); auto.
  - constructor; [by eapply lookup_lt_Some | done].
  - by apply Forall_app.
Qed.

Lemma repr_items_bound h d items F :
  repr_items h d items F → Forall (λ x, x < length h) F.
Proof.
  induction 1; [done|]. apply Forall_app. eauto using repr_bound.
Qed.

(** A graph is not affected by a change of the store outside its
    footprint. *)
Lemma repr_frame h h' v t F :
  repr h v t F → (∀ x, x ∈ F → h' !! x = h !! x) → repr h' v t F.
Proof.
  intros Hr. revert h'.
  induction Hr using repr_mut
    with (P0 := λ d items F, ∀ h',
                (∀ x, x ∈ F → h' !! x = h !! x) → repr_items h' d items F);
    intros h' Hh'; try by constructor.
  - econstructor; [|done|].
    + rewrite Hh' by left. done.
    + apply IHHr. intros x Hx. apply Hh'. by right.
  - constructor.
    + apply IHHr. intros x Hx. apply Hh'. apply elem_of_app. by left.
    + apply IHHr0. intros x Hx. apply Hh'. apply elem_of_app. by right.
Qed.

Lemma repr_items_frame h h' d items F :
  repr_items h d items F → (∀ x, x ∈ F → h' !! x = h !! x) →
  repr_items h' d items F.
Proof.
  induction 1; intros Hh'; constructor.
  - eapply repr_frame; [done|]. intros x Hx. apply Hh', elem_of_app. by left.
  - apply IHrepr_items. intros x Hx. apply Hh', elem_of_app. by right.
Qed.

(** The deep value and the footprint are determined by the store. *)
Lemma repr_inj h v t F :
  repr h v t F → ∀ t' F', repr h v t' F' → t = t' ∧ F = F'.
Proof.
  induction 1 using repr_mut
    with (P0 := λ d items F, ∀ items' F',
                repr_items h d items' F' → items = items' ∧ F = F').
  - by inversion 1.
  - by inversion 1.
  - inversion 1; simplify_eq.
    edestruct IHrepr as [-> ->]; [done|]. done.
  - by inversion 1.
  - inversion 1; simplify_eq.
    edestruct IHrepr as [-> ->]; [done|].
    edestruct IHrepr0 as [-> ->]; [done|]. done.
Qed.

Lemma repr_items_keys h d items F :
  repr_items h d items F → keys items = keys d.
Proof. induction 1; simpl; by f_equal. Qed.

Lemma repr_items_length h d items F :
  repr_items h d items F → length items = length d.
Proof. induction 1; simpl; by f_equal. Qed.

Lemma repr_items_app h d1 d2 i1 i2 F1 F2 :
  repr_items h d1 i1 F1 → repr_items h d2 i2 F2 →
  repr_items h (d1 ++ d2) (i1 ++ i2) (F1 ++ F2).
Proof.
  induction 1; intros H2; simpl; [done|].
  rewrite <- app_assoc. constructor; auto.
Qed.

(** The entry for a key, with the part of the footprint that it owns. *)
Lemma repr_items_get h d items F k v :
  repr_items h d items F → dict_get k d = Some v →
  ∃ t Fv, dict_get k items = Some t ∧ repr h v t Fv ∧ Fv ⊆ F.
Proof.
  induction 1 as [|k' v' t' d items F1 F2 Hv Hd IH]; simpl; [done|].
  case_decide; intros ?; simplify_eq.
  - exists t', F1. split_and!; [done..|]. intros x ?. apply elem_of_app. by left.
  - destruct IH as (t & Fv & ? & ? & Hsub); [done|].
    exists t, Fv. split_and!; [done..|].
    intros x ?. apply elem_of_app. right. by apply Hsub.
Qed.

Lemma repr_items_get_None h d items F k :
  repr_items h d items F → dict_get k d = None → dict_get k items = None.
Proof.
  intros Hr. rewrite !dict_get_None. by rewrite (repr_items_keys _ _ _ _ Hr).
Qed.

Lemma repr_items_get_inv h d items F k t :
  repr_items h d items F → dict_get k items = Some t →
  ∃ v Fv, dict_get k d = Some v ∧ repr h v t Fv ∧ Fv ⊆ F.
Proof.
  induction 1 as [|k' v' t' d items F1 F2 Hv Hd IH]; simpl; [done|].
  case_decide; intros ?; simplify_eq.
  - exists v', F1. split_and!; [done..|]. intros x ?. apply elem_of_app. by left.
  - destruct IH as (v & Fv & ? & ? & Hsub); [done|].
    exists v, Fv. split_and!; [done..|].
    intros x ?. apply elem_of_app. right. by apply Hsub.
Qed.

(** In a graph without sharing, the entries of two keys own disjoint
    parts of the store. *)
Lemma repr_items_disjoint h d items F k1 k2 v1 v2 t1 t2 F1 F2 :
  repr_items h d items F → NoDup F → k1 ≠ k2 →
  dict_get k1 d = Some v1 → dict_get k2 d = Some v2 →
  repr h v1 t1 F1 → repr h v2 t2 F2 →
  ∀ x, x ∈ F1 → x ∈ F2 → False.
Proof.
  induction 1 as [|k' v' t' d items Fa Fb Hv Hd IH]; simpl; [done|].
  intros [Ha [Hab Hb]]%NoDup_app Hne.
  destruct (decide (k1 = k')) as [->|Hk1], (decide (k2 = k')) as [->|Hk2];
    intros Hg1 Hg2 Hr1 Hr2 x Hx1 Hx2; simplify_eq.
  - destruct (repr_inj _ _ _ _ Hv _ _ Hr1) as [-> ->].
    destruct (repr_items_get _ _ _ _ _ _ Hd Hg2) as (t & Fv & _ & Hr & Hsub).
    destruct (repr_inj _ _ _ _ Hr _ _ Hr2) as [-> ->].
    eapply Hab; eauto.
  - destruct (repr_inj _ _ _ _ Hv _ _ Hr2) as [-> ->].
    destruct (repr_items_get _ _ _ _ _ _ Hd Hg1) as (t & Fv & _ & Hr & Hsub).
    destruct (repr_inj _ _ _ _ Hr _ _ Hr1) as [-> ->].
    eapply Hab; eauto.
  - eapply IH; eauto.
Qed.

Lemma depth_get k items t :
  dict_get k items = Some t → depth t < depth (DMap items).
Proof.
  simpl. induction items as [|[k' t'] items IH]; simpl; [done|].
  case_decide; intros ?; simplify_eq; [lia|].
  specialize (IH ltac:(done)). lia.
Qed.
End ReprFacts.

(** * The contract on trees *)

Section KeysFacts.
Context {A : Type}.
Implicit Types (d : dict A) (k : string).

Lemma keys_filter (K : list string) d :
  keys (filter (λ kv, kv.1 ∉ K) d) = filter (λ k, k ∉ K) (keys d).
Proof.
  induction d as [|[k v] d IH]; [done|].
  rewrite fmap_cons, !filter_cons. cbn [fst].
  case_decide; [rewrite fmap_cons|]; by rewrite IH.
Qed.

Lemma dict_get_filter (K : list string) k d :
  dict_get k (filter (λ kv, kv.1 ∉ K) d) =
    if decide (k ∉ K) then dict_get k d else None.
Proof.
  induction d as [|[k' v] d IH]; [by case_decide|].
  rewrite filter_cons. cbn [fst dict_get].
  destruct (decide (k' ∉ K)) as [HP'|HP']; cbn [dict_get]; rewrite IH;
    repeat case_decide; naive_solver.
Qed.

Lemma keys_dict_update d d2 :
  NoDup (keys d) → NoDup (keys d2) →
  keys (dict_update d d2) = keys d ++ filter (λ k, k ∉ keys d) (keys d2).
Proof.
  intros Hd Hd2. rewrite dict_update_spec by done.
  rewrite fmap_app, keys_filter. f_equal.
  rewrite <- list_fmap_compose. by apply list_fmap_ext.
Qed.
End KeysFacts.

Lemma keys_merge_with f l r :
  keys (merge_with f l r) = keys l ++ filter (λ k, k ∉ keys l) (keys r).
Proof.
  unfold merge_with. rewrite fmap_app, keys_filter. f_equal.
  change (map ?g l) with (g <$> l).
  rewrite <- list_fmap_compose. by apply list_fmap_ext.
Qed.

Lemma dict_get_merge_with f k l r :
  dict_get k (merge_with f l r) =
    match dict_get k l, dict_get k r with
    | Some a, Some b => Some (f a b)
    | Some a, None => Some a
    | None, ob => ob
    end.
Proof.
  unfold merge_with.
  rewrite dict_get_app, dict_get_filter.
  assert (dict_get k
            (map (λ kv, (kv.1, match dict_get kv.1 r with
                               | Some rv => f kv.2 rv
                               | None => kv.2
                               end)) l)
          = (λ a, match dict_get k r with
                  | Some rv => f a rv
                  | None => a
                  end) <$> dict_get k l) as ->.
  { induction l as [|[k' v'] l IH]; [done|]. cbn [map fst snd dict_get].
    case_decide; subst; [done|]. apply IH. }
  destruct (dict_get k l) as [a|] eqn:Hl; simpl.
  - by destruct (dict_get k r).
  - apply dict_get_None in Hl. by rewrite decide_True.
Qed.

Lemma merge_value_map l r :
  merge_value (DMap l) (DMap r) = DMap (merge_spec l r).
Proof. done. Qed.

Lemma merge_value_not_map_r a b :
  (∀ r, b ≠ DMap r) → merge_value a b = b.
Proof. destruct a, b; naive_solver. Qed.

Section ReprByKey.
Implicit Types (h : heap) (v : val) (t : data) (F : list loc).

(** The part of the footprint that the entry of a key owns. *)
Lemma repr_items_own h d items F k v t Fv :
  repr_items h d items F → dict_get k d = Some v → repr h v t Fv →
  dict_get k items = Some t ∧ Fv ⊆ F ∧ (NoDup F → NoDup Fv).
Proof.
  intros Hi Hg Hv.
  destruct (repr_items_get _ _ _ _ _ _ Hi Hg) as (t' & Fv' & Ht & Hv' & Hsub).
  destruct (repr_inj _ _ _ _ Hv _ _ Hv') as [-> ->].
  split_and!; [done..|]. clear Ht Hsub Hv'.
  induction Hi as [|k' v' t0 d items F1 F2 Hv0 Hd IH]; [done|].
  intros [? [_ ?]]%NoDup_app. simpl in Hg. case_decide; simplify_eq.
  - by destruct (repr_inj _ _ _ _ Hv _ _ Hv0) as [-> ->].
  - auto.
Qed.

Lemma repr_items_lookup h d items F i k v :
  repr_items h d items F → d !! i = Some (k, v) →
  ∃ t Fv, items !! i = Some (k, t) ∧ repr h v t Fv ∧ Fv ⊆ F.
Proof.
  intros Hi. revert i.
  induction Hi as [|k' v' t' d items F1 F2 Hv Hd IH]; intros i Hl; [done|].
  destruct i as [|i]; simplify_eq/=.
  - exists t', F1. split_and!; [done..|]. intros x ?. apply elem_of_app. by left.
  - destruct (IH _ Hl) as (t & Fv & ? & ? & Hsub).
    exists t, Fv. split_and!; [done..|].
    intros x ?. apply elem_of_app. right. by apply Hsub.
Qed.

(** A dictionary whose entries represent, key by key, the entries of a
    tree with the same keys represents the tree. *)
Lemma repr_items_by_key h (Q : loc → Prop) d items :
  keys d = keys items → NoDup (keys d) →
  (∀ k v t, dict_get k d = Some v → dict_get k items = Some t →
            ∃ Fv, repr h v t Fv ∧ ∀ x, x ∈ Fv → Q x) →
  ∃ F, repr_items h d items F ∧ ∀ x, x ∈ F → Q x.
Proof.
  revert items. induction d as [|[k v] d IH]; intros [|[k' t] items] Hk Hnd HQ;
    simplify_eq/=.
  - exists []. split; [constructor|]. by intros x ?%elem_of_nil.
  - apply NoDup_cons in Hnd as [Hk' Hnd].
    destruct (HQ k' v t) as (Fv & Hv & HFv); [by rewrite decide_True..|].
    destruct (IH items) as (F & Hi & HF); [done..| |].
    { intros k1 v1 t1 Hg1 Hg2. apply (HQ k1).
      - rewrite decide_False; [done|]. intros ->.
        apply Hk'. apply (dict_get_is_Some k' d). by eexists.
      - rewrite decide_False; [done|]. intros ->.
        apply Hk'. apply (dict_get_is_Some k' d). by eexists. }
    exists (Fv ++ F). split; [by constructor|].
    intros x [?|?]%elem_of_app; auto.
Qed.
End ReprByKey.

(** * recursive_merge on separate, unshared arguments *)

Section MergeLoop.
Variable self : loc → loc → heap → res (loc * heap).
Variable n : nat.
Hypothesis self_spec : ∀ h l r tl tr Fl Fr,
  merge_pre h l r tl tr Fl Fr →
  depth (DMap tl) `min` depth (DMap tr) ≤ n →
  merge_post h r tl tr Fl Fr (self l r h).

Variables (h : heap) (l r : loc) (dl dr : dict val) (tl tr : dict data).
Variables (Fl Fr : list loc).
Hypothesis Hl : h !! l = Some dl.
Hypothesis Hndl : NoDup (keys dl).
Hypothesis Hil : repr_items h dl tl Fl.
Hypothesis Hr : h !! r = Some dr.
Hypothesis Hndr : NoDup (keys dr).
Hypothesis Hir : repr_items h dr tr Fr.
Hypothesis HndF : NoDup (r :: Fr).
Hypothesis Hsep : separate (l :: Fl) (r :: Fr).
Hypothesis Hdepth : depth (DMap tl) `min` depth (DMap tr) ≤ S n.

Lemma loop_inv_init : loop_inv h r dl dr tl Fl Fr 0 h.
Proof.
  split; [apply frame_refl|]. exists dr. split_and!; [done..|].
  intros k vb tb Fb Hg Hv. exists vb, Fb. rewrite take_0. simpl.
  split_and!; auto.
Qed.

Lemma left_untouched hc x :
  frame (r :: Fr) h hc → x ∈ l :: Fl → hc !! x = h !! x.
Proof.
  intros [_ Hf] Hx. apply Hf.
  - assert (Forall (λ x, x < length h) (l :: Fl)) as Hb.
    { constructor; [by eapply lookup_lt_Some|by eapply repr_items_bound]. }
    rewrite Forall_forall in Hb. auto.
  - intros ?. by eapply Hsep.
Qed.

Lemma right_bound x : x ∈ r :: Fr → x < length h.
Proof.
  assert (Forall (λ x, x < length h) (r :: Fr)) as Hb.
  { constructor; [by eapply lookup_lt_Some|by eapply repr_items_bound]. }
  rewrite Forall_forall in Hb. auto.
Qed.

Lemma entry_fresh i k va : dl !! i = Some (k, va) → k ∉ keys (take i dl).
Proof.
  intros Hi Hin. rewrite <- (take_drop_middle dl i (k, va)) in Hndl by done.
  rewrite fmap_app, fmap_cons in Hndl.
  apply NoDup_app in Hndl as (_ & Hd & _). apply (Hd k Hin). by left.
Qed.

Lemma keys_take_tl i : keys (take i tl) = keys (take i dl).
Proof. by rewrite !fmap_take, (repr_items_keys _ _ _ _ Hil). Qed.

Lemma loop_step i k va hc :
  dl !! i = Some (k, va) → loop_inv h r dl dr tl Fl Fr i hc →
  ∃ hc', merge_body self r k va hc = Ok hc' ∧ loop_inv h r dl dr tl Fl Fr (S i) hc'.
Proof.
  intros Hi (Hfr & drc & Hrc & Hkeys & Hent).
  pose proof (entry_fresh _ _ _ Hi) as Hfresh.
  destruct (repr_items_lookup _ _ _ _ _ _ _ Hil Hi) as (ta & Fa & Hti & Hva & HFa).
  assert (dict_get k (take i tl) = None) as Hgpre.
  { apply dict_get_None. by rewrite keys_take_tl. }
  assert (dict_get k tl = Some ta) as Hgtl.
  { eapply dict_get_lookup; [|done]. by rewrite (repr_items_keys _ _ _ _ Hil). }
  assert (∀ k' tb,
    match dict_get k' (take (S i) tl) with
    | Some ta' => merge_value ta' tb
    | None => tb
    end =
    if decide (k' = k) then merge_value ta tb
    else match dict_get k' (take i tl) with
         | Some ta' => merge_value ta' tb
         | None => tb
         end) as Htake.
  { intros k' tb. rewrite (take_S_r _ _ _ Hti), dict_get_app. simpl.
    case_decide; subst; [by rewrite Hgpre|].
    by destruct (dict_get k' (take i tl)). }
  assert (∀ k', k' ≠ k → k' ∉ keys (take (S i) dl) → k' ∉ keys (take i dl))
    as Hnotin.
  { intros k' Hne. rewrite (take_S_r _ _ _ Hi), fmap_app, not_elem_of_app.
    tauto. }
  unfold merge_body. rewrite (lookup_obj_Some _ _ _ Hrc). simpl.
  destruct (dict_get k drc) as [vc|] eqn:Hgc.
  2:{ (* key not in right *)
    exists hc. split; [by destruct va|].
    split; [done|]. exists drc. split_and!; [done..|].
    intros k' vb tb Fb Hg Hv.
    destruct (Hent k' vb tb Fb Hg Hv) as (vc & Fc & ? & ? & ? & ?).
    assert (k' ≠ k) as Hne.
    { intros ->. apply dict_get_None in Hgc. apply Hgc. rewrite Hkeys.
      apply (dict_get_is_Some k dr). by eexists. }
    exists vc, Fc. rewrite Htake, decide_False by done.
    split_and!; auto. }
  (* key in right *)
  assert (is_Some (dict_get k dr)) as [vb Hgb].
  { apply dict_get_is_Some. rewrite <- Hkeys.
    apply (dict_get_is_Some k drc). by eexists. }
  destruct (repr_items_get _ _ _ _ _ _ Hir Hgb) as (tb & Fb & Hgtr & Hvb & HFb).
  destruct (Hent k vb tb Fb Hgb Hvb) as (vc' & Fc & Hgc' & Hvc & HFc & Heq).
  rewrite Hgpre in Hvc.
  destruct (Heq Hfresh) as [-> ->]. simplify_eq.
  (* entries of other keys are kept by a step that does not change them *)
  assert (∀ hc', frame (r :: Fr) h hc' →
            (∃ drc', hc' !! r = Some drc' ∧ keys drc' = keys dr ∧
               (∀ k', k' ≠ k → dict_get k' drc' = dict_get k' drc) ∧
               ∃ vn Fn, dict_get k drc' = Some vn ∧
                        repr hc' vn (merge_value ta tb) Fn ∧
                        ∀ x, x ∈ Fn → x ∈ Fl ∨ x ∈ Fb ∨ length h ≤ x) →
            (∀ x, x < length hc → x ≠ r → x ∉ Fb → hc' !! x = hc !! x) →
            loop_inv h r dl dr tl Fl Fr (S i) hc') as Hkeep.
  { intros hc' Hfr' (drc' & Hrc' & Hkeys' & Hother & vn & Fn & Hgn & Hvn & HFn) Hsame.
    split; [done|]. exists drc'. split_and!; [done..|].
    intros k' vb' tb' Fb' Hg' Hv'. rewrite Htake.
    destruct (decide (k' = k)) as [->|Hne].
    - simplify_eq. destruct (repr_inj _ _ _ _ Hvb _ _ Hv') as [-> ->].
      exists vn, Fn. split_and!; [done..|].
      intros Hout. exfalso. apply Hout.
      rewrite (take_S_r _ _ _ Hi), fmap_app. apply elem_of_app. right. by left.
    - destruct (Hent k' vb' tb' Fb' Hg' Hv') as (vc' & Fc' & ? & Hvc' & HFc' & ?).
      exists vc', Fc'. rewrite Hother by done. split_and!; auto.
      eapply repr_frame; [done|]. intros x Hx.
      pose proof (repr_bound _ _ _ _ Hvc') as Hb. rewrite Forall_forall in Hb.
      apply Hsame; [by apply Hb| |].
      + intros ->. destruct (HFc' r Hx) as [?|[?|?]].
        * eapply Hsep; [by right|by left].
        * apply NoDup_cons in HndF as [HrF _]. apply HrF.
          by eapply (repr_items_own _ _ _ _ _ _ _ _ Hir Hg' Hv').
        * pose proof (right_bound r ltac:(by left)). lia.
      + intros HxFb. destruct (HFc' x Hx) as [?|[?|?]].
        * eapply Hsep; [by right|right; by apply HFb].
        * apply NoDup_cons in HndF as [_ HF].
          by eapply (repr_items_disjoint _ _ _ _ k' k _ _ _ _ _ _ Hir HF).
        * pose proof (right_bound x ltac:(right; by apply HFb)). lia. }
  destruct va as [sa|qa|a], vc as [sb|qb|b];
    try (exists hc; split; [done|]; apply Hkeep; [done| |done];
         exists drc; split_and!; [done..|];
         eexists _, Fb; split_and!; [done| |by auto];
         inversion Hva; inversion Hvb; subst; simpl; done).
  (* both values are dictionaries *)
  inversion Hva as [| |? da ia Fa' Hla Hnda Hia]; subst.
  inversion Hvb as [| |? db ib Fb' Hlb Hndb Hib]; subst.
  destruct (self_spec hc a b ia ib (a :: Fa') (b :: Fb')) as
    (m & h1 & Fm & Fb1 & -> & Hf1 & Hm & Hvm & HFm & _).
  { split_and!.
    - eapply repr_frame; [done|]. intros x Hx.
      apply left_untouched; [done|]. right. by apply HFa.
    - done.
    - apply NoDup_cons in HndF as [_ HF].
      by eapply (repr_items_own _ _ _ _ _ _ _ _ Hir Hgb Hvb).
    - intros x Hx1 Hx2. eapply Hsep; right; [by apply HFa|by apply HFb]. }
  { pose proof (depth_get _ _ _ Hgtl). pose proof (depth_get _ _ _ Hgtr).
    lia. }
  simpl.
  assert (r < length hc) as Hrlt by by eapply lookup_lt_Some.
  assert (r ∉ b :: Fb') as HrFb.
  { intros ?. apply NoDup_cons in HndF as [HrF _]. apply HrF. by apply HFb. }
  destruct Hf1 as [Hlen1 Hf1].
  rewrite (lookup_obj_Some h1 r drc) by (by rewrite Hf1). simpl.
  eexists. split; [done|]. apply Hkeep.
  - destruct Hfr as [Hlen Hfr]. split; [rewrite length_insert; lia|].
    intros x Hx Hout. apply not_elem_of_cons in Hout as [Hxr Hout].
    rewrite list_lookup_insert_ne by done.
    rewrite Hf1; [|lia|by intros ?%HFb].
    apply Hfr; [done|]. by apply not_elem_of_cons.
  - exists (dict_set k (VRef m) drc). split_and!.
    + apply list_lookup_insert_eq. lia.
    + rewrite keys_dict_set_in; [done|].
      apply (dict_get_is_Some k drc). by eexists.
    + intros k' Hne. by rewrite dict_get_set, decide_False.
    + exists (VRef m), Fm. split_and!.
      * by rewrite dict_get_set, decide_True.
      * rewrite merge_value_map. eapply repr_frame; [done|].
        intros x Hx. apply list_lookup_insert_ne. intros <-.
        destruct (HFm r Hx) as [?|[?|?]]; [|done|lia].
        eapply Hsep; [right; by apply HFa|by left].
      * intros x Hx. destruct (HFm x Hx) as [?|[?|?]]; auto.
        destruct Hfr. right. right. lia.
  - intros x Hx Hxr HxFb. rewrite list_lookup_insert_ne by done. auto.
Qed.

Lemma loop_run j : ∀ i hc,
  i + j = length dl → loop_inv h r dl dr tl Fl Fr i hc →
  ∃ hf, for_items (merge_body self r) l i j hc = Ok hf ∧
        loop_inv h r dl dr tl Fl Fr (length dl) hf.
Proof.
  induction j as [|j IH]; intros i hc Hij Hinv.
  - exists hc. split; [done|]. by replace (length dl) with i by lia.
  - simpl. destruct Hinv as [Hfr Hinv].
    rewrite (lookup_obj_Some hc l dl)
      by (rewrite left_untouched; [done..|by left]).
    simpl. destruct (lookup_lt_is_Some_2 dl i) as [[k va] Hi]; [lia|].
    rewrite Hi.
    destruct (loop_step i k va hc Hi (conj Hfr Hinv)) as (hc' & -> & Hinv').
    simpl. apply IH; [lia|done].
Qed.

Lemma dict_get_right_after k :
  dict_get k (right_after tl tr) =
    (λ b, match dict_get k tl with
          | Some a => merge_value a b
          | None => b
          end) <$> dict_get k tr.
Proof.
  unfold right_after. clear. induction tr as [|[k' b] tr' IH]; [done|].
  cbn [map fst snd dict_get]. case_decide; subst; [done|]. apply IH.
Qed.

(** The end of the call: [merged = left.copy(); merged.update(right)]. *)
Lemma merge_finish hf :
  loop_inv h r dl dr tl Fl Fr (length dl) hf →
  merge_post h r tl tr (l :: Fl) (r :: Fr)
    (dl1 ← lookup_obj hf l;
     let merged := length hf in
     let h2 := hf ++ [dl1] in
     dr2 ← lookup_obj h2 r;
     Ok (merged, <[merged := dict_update dl1 dr2]> h2)).
Proof.
  intros (Hfr & drf & Hrf & Hkeys & Hent).
  rewrite take_ge in Hent by (rewrite (repr_items_length _ _ _ _ Hil); lia).
  assert (r < length hf) as Hrlt by by eapply lookup_lt_Some.
  rewrite (lookup_obj_Some hf l dl)
    by (rewrite left_untouched; [done..|by left]).
  simpl.
  rewrite (lookup_obj_Some (hf ++ [dl]) r drf)
    by (by rewrite lookup_app_l).
  simpl. set (dm := dict_update dl drf).
  set (h3 := <[length hf := dm]> (hf ++ [dl])).
  assert (∀ x, x < length hf → h3 !! x = hf !! x) as Hold.
  { intros x Hx. unfold h3.
    rewrite list_lookup_insert_ne by lia. by apply lookup_app_l. }
  assert (h3 !! length hf = Some dm) as Hnew.
  { unfold h3. apply list_lookup_insert_eq. rewrite length_app. simpl. lia. }
  assert (NoDup (keys drf)) as Hndf by by rewrite Hkeys.
  assert (∀ v t F, repr hf v t F → repr h3 v t F) as Hlift.
  { intros v t F Hv. eapply repr_frame; [done|]. intros x Hx. apply Hold.
    pose proof (repr_bound _ _ _ _ Hv) as Hb. rewrite Forall_forall in Hb.
    auto. }
  destruct Hfr as [Hlen Hfr'].
  (* the merged dictionary *)
  destruct (repr_items_by_key h3
              (λ x, (x ∈ l :: Fl ∨ x ∈ r :: Fr ∨ length h ≤ x) ∧
                    x < length hf)
              dm (merge_spec tl tr)) as (Fm & Him & HFm).
  { unfold dm, merge_spec. rewrite keys_dict_update, keys_merge_with by done.
    by rewrite Hkeys, (repr_items_keys _ _ _ _ Hil),
      (repr_items_keys _ _ _ _ Hir). }
  { by apply NoDup_keys_dict_update. }
  { intros k v t. unfold dm, merge_spec.
    rewrite dict_get_update, dict_get_merge_with by done.
    destruct (dict_get k dr) as [vb|] eqn:Hgb.
    - destruct (repr_items_get _ _ _ _ _ _ Hir Hgb)
        as (tb & Fb & Hgtr & Hvb & HFb).
      destruct (Hent k vb tb Fb Hgb Hvb) as (vc & Fc & -> & Hvc & HFc & _).
      rewrite Hgtr. intros ? Ht; simplify_eq.
      exists Fc. split.
      + apply Hlift. destruct (dict_get k tl); by simplify_eq.
      + intros x Hx. split.
        * destruct (HFc x Hx) as [?|[?|?]]; auto.
          -- left. by right.
          -- right. left. right. by apply HFb.
        * pose proof (repr_bound _ _ _ _ Hvc) as Hb.
          rewrite Forall_forall in Hb. auto.
    - assert (dict_get k drf = None) as ->.
      { apply dict_get_None. rewrite Hkeys. by apply dict_get_None. }
      rewrite (repr_items_get_None _ _ _ _ _ Hir Hgb).
      intros Hga Ht.
      destruct (repr_items_get _ _ _ _ _ _ Hil Hga)
        as (ta & Fa & Hgtl & Hva & HFa).
      rewrite Hgtl in Ht. simplify_eq.
      exists Fa. split.
      + apply Hlift. eapply repr_frame; [done|]. intros x Hx.
        apply left_untouched; [done|]. right. by apply HFa.
      + intros x Hx. split; [left; right; by apply HFa|].
        pose proof (repr_bound _ _ _ _ Hva) as Hb.
        rewrite Forall_forall in Hb. apply Hb in Hx. lia. }
  (* the right dictionary *)
  destruct (repr_items_by_key h3 (λ _, True) drf (right_after tl tr))
    as (Fr' & Hir' & _).
  { unfold right_after. rewrite Hkeys, <- (repr_items_keys _ _ _ _ Hir).
    change (map ?g tr) with (g <$> tr).
    rewrite <- list_fmap_compose. by apply list_fmap_ext. }
  { done. }
  { intros k v t Hgc. rewrite dict_get_right_after.
    assert (is_Some (dict_get k dr)) as [vb Hgb].
    { apply dict_get_is_Some. rewrite <- Hkeys.
      apply (dict_get_is_Some k drf). by eexists. }
    destruct (repr_items_get _ _ _ _ _ _ Hir Hgb)
      as (tb & Fb & Hgtr & Hvb & HFb).
    destruct (Hent k vb tb Fb Hgb Hvb) as (vc & Fc & ? & Hvc & _).
    rewrite Hgtr. simpl. intros ?; simplify_eq.
    exists Fc. split; [by apply Hlift|done]. }
  exists (length hf), h3, (length hf :: Fm), (r :: Fr').
  split_and!; [done| |done| | | |].
  - split.
    + unfold h3. rewrite length_insert, length_app. lia.
    + intros x Hx Hout. rewrite Hold by lia. by apply Hfr'.
  - eapply repr_ref;
      [exact Hnew | by apply NoDup_keys_dict_update | exact Him].
  - intros x [->|Hx]%elem_of_cons; [auto|]. by apply HFm.
  - eapply repr_ref; [by rewrite Hold | exact Hndf | exact Hir'].
  - exists Fm. split; [done|]. intros x Hx. by apply HFm.
Qed.
End MergeLoop.

(** On a left and a right graph that share nothing, the right one without
    sharing inside, a call with enough fuel returns a new dictionary whose
    deep value is the merge of the two trees; it changes the store only
    inside the right graph.  The recursion goes down only where both sides
    are mappings, so the depth of either side bounds it. *)
Lemma recursive_merge_sep fuel : ∀ h l r tl tr Fl Fr,
  merge_pre h l r tl tr Fl Fr →
  depth (DMap tl) `min` depth (DMap tr) ≤ fuel →
  merge_post h r tl tr Fl Fr (recursive_merge fuel l r h).
Proof.
  induction fuel as [|n IH]; intros h l r tl tr Fl Fr (Hl & Hr & Hnd & Hsep) Hd.
  { simpl in Hd. lia. }
  inversion Hl as [| |? dl ? Fl' Hhl Hndl Hil]; subst.
  inversion Hr as [| |? dr ? Fr' Hhr Hndr Hir]; subst.
  cbn [recursive_merge]. rewrite (lookup_obj_Some _ _ _ Hhl). simpl.
  edestruct (loop_run (recursive_merge n) n IH h l r dl dr tl tr Fl' Fr')
    as (hf & -> & Hinv); [done..| |by apply loop_inv_init|]; [done|].
  simpl.
  eapply merge_finish; eauto.
Qed.

(** * Reading a graph *)

Lemma deep_sound fuel : ∀ h v t F, deep fuel h v = Some (t, F) → repr h v t F.
Proof.
  induction fuel as [|n IH]; intros h [s|q|l] t F Hd; simplify_eq/=;
    try by constructor.
  destruct (h !! l) as [d|] eqn:Hl; simplify_eq/=.
  case_guard; simplify_eq/=.
  match type of Hd with context [foldr ?f ?a d] =>
    destruct (foldr f a d) as [[items F']|] eqn:Hf end; simplify_eq/=.
  econstructor; [done..|].
  clear Hl H. revert items F' Hf.
  induction d as [|[k v] d IHd]; intros items F' Hf; simplify_eq/=.
  - constructor.
  - match type of Hf with context [foldr ?f ?a d] =>
      destruct (foldr f a d) as [[items0 F0]|] eqn:Hf0 end; simplify_eq/=.
    destruct (deep n h v) as [[t1 F1]|] eqn:Hv; simplify_eq/=.
    constructor; auto.
Qed.

Lemma separate_Forall Fl Fr : Forall (λ x, x ∉ Fr) Fl → separate Fl Fr.
Proof. rewrite Forall_forall. intros H x Hx1 Hx2. by apply (H x). Qed.

(** * Loading builds a fresh graph without sharing *)

Lemma alloc_map items h :
  alloc (DMap items) h =
    let '(d, h1) := alloc_items items h in (VRef (length h1), h1 ++ [d]).
Proof. done. Qed.

Lemma repr_extend h hs v t F : repr h v t F → repr (h ++ hs) v t F.
Proof.
  intros Hv. eapply repr_frame; [done|]. intros x Hx.
  apply lookup_app_l. pose proof (repr_bound _ _ _ _ Hv) as Hb.
  rewrite Forall_forall in Hb. auto.
Qed.

Lemma repr_items_extend h hs d items F :
  repr_items h d items F → repr_items (h ++ hs) d items F.
Proof.
  intros Hv. eapply repr_items_frame; [done|]. intros x Hx.
  apply lookup_app_l. pose proof (repr_items_bound _ _ _ _ Hv) as Hb.
  rewrite Forall_forall in Hb. auto.
Qed.

Lemma alloc_repr t : ∀ h, wf t → alloc_post t h (alloc t h).1 (alloc t h).2.
Proof.
  induction t as [s|q|items IH] using data_ind; intros h Hwf.
  - exists [], []. rewrite app_nil_r. split_and!; [done|constructor|constructor|].
    by intros x ?%elem_of_nil.
  - exists [], []. rewrite app_nil_r. split_and!; [done|constructor|constructor|].
    by intros x ?%elem_of_nil.
  - rewrite alloc_map. simpl in Hwf.
    apply andb_prop_elim in Hwf as [Hnd Hwf]. apply bool_decide_unpack in Hnd.
    assert (∃ F hs, (alloc_items items h).2 = h ++ hs ∧
              repr_items (alloc_items items h).2 (alloc_items items h).1
                items F ∧
              NoDup F ∧ (∀ x, x ∈ F → length h ≤ x)) as (F & hs & Hh & Hi & HF & Hb).
    { clear Hnd. revert h.
      induction items as [|[k t] items IHi]; intros h.
      - exists [], []. simpl. rewrite app_nil_r.
        split_and!; [done|constructor|constructor|]. by intros x ?%elem_of_nil.
      - apply Forall_cons in IH as [IHt IH]. simpl in Hwf.
        apply andb_prop_elim in Hwf as [Hwt Hwf].
        destruct (IHt h Hwt) as (F1 & hs1 & Hh1 & Hv & HF1 & Hb1).
        simpl in *. destruct (alloc t h) as [v h1]. simpl in *. subst h1.
        destruct (IHi IH Hwf (h ++ hs1)) as (F2 & hs2 & Hh2 & Hi & HF2 & Hb2).
        destruct (alloc_items items (h ++ hs1)) as [d h2]. simpl in *. subst h2.
        exists (F1 ++ F2), (hs1 ++ hs2). rewrite app_assoc.
        split_and!; [done| | |].
        + constructor; [by apply repr_extend|done].
        + apply NoDup_app. split_and!; [done| |done].
          intros x Hx1 Hx2. apply Hb2 in Hx2.
          pose proof (repr_bound _ _ _ _ Hv) as Hlt.
          rewrite Forall_forall in Hlt. apply Hlt in Hx1. lia.
        + intros x [?|Hx]%elem_of_app; [auto|].
          apply Hb2 in Hx. rewrite length_app in Hx. lia. }
    destruct (alloc_items items h) as [d h1]. simpl in *. subst h1.
    exists (length (h ++ hs) :: F), (hs ++ [d]). rewrite app_assoc.
    pose proof (repr_items_bound _ _ _ _ Hi) as Hlt.
    rewrite Forall_forall in Hlt.
    split_and!; [done| | |].
    + eapply repr_ref.
      * by apply list_lookup_middle.
      * by rewrite <- (repr_items_keys _ _ _ _ Hi).
      * by apply repr_items_extend.
    + apply NoDup_cons. split; [|done]. intros Hx%Hlt. lia.
    + intros x [->|Hx]%elem_of_cons; [rewrite length_app; lia|auto].
Qed.

(** * recursive_merge of a dictionary with itself *)

Lemma dict_update_self {A} (d : dict A) :
  NoDup (keys d) → dict_update d d = d.
Proof.
  intros Hnd. rewrite dict_update_spec by done.
  replace (filter (λ kv, kv.1 ∉ keys d) d) with (@nil (string * A)).
  - rewrite app_nil_r. transitivity (map id d); [|apply map_id].
    apply map_ext_in. intros [k v] Hin. simpl.
    assert (is_Some (dict_get k d)) as [v' Hv'].
    { apply dict_get_is_Some, list_elem_of_fmap. exists (k, v).
      split; [done|]. by apply list_elem_of_In. }
    rewrite Hv'. simpl. f_equal.
    apply list_elem_of_In, list_elem_of_lookup in Hin as [i Hi].
    rewrite (dict_get_lookup _ _ _ _ Hnd Hi) in Hv'. by simplify_eq.
  - symmetry. apply filter_none. intros [k v] Hin Hout.
    apply Hout, list_elem_of_fmap. by exists (k, v).
Qed.

Section SelfLoop.
Variable self : loc → loc → heap → res (loc * heap).
Variable n : nat.
Hypothesis self_spec : ∀ h x t F,
  repr h (VRef x) (DMap t) F → NoDup F → depth (DMap t) ≤ n →
  self_post h x t F (self x x h).

Variables (h : heap) (x : loc) (dx : dict val) (t : dict data).
Variable F : list loc.
Hypothesis Hx : h !! x = Some dx.
Hypothesis Hndx : NoDup (keys dx).
Hypothesis Hix : repr_items h dx t F.
Hypothesis HndF : NoDup (x :: F).
Hypothesis Hdepth : depth (DMap t) ≤ S n.

Lemma self_inv_init : self_inv h x dx F 0 h.
Proof.
  split; [apply frame_refl|]. exists dx. split_and!; [done..|].
  intros k v tk Fk Hg Hv. exists v, Fk. rewrite take_0.
  split_and!; auto. by intros ?%elem_of_nil.
Qed.

Lemma self_bound y : y ∈ x :: F → y < length h.
Proof.
  assert (Forall (λ y, y < length h) (x :: F)) as Hb.
  { constructor; [by eapply lookup_lt_Some|by eapply repr_items_bound]. }
  rewrite Forall_forall in Hb. auto.
Qed.

Lemma self_step i k v hc :
  dx !! i = Some (k, v) → self_inv h x dx F i hc →
  (∃ dxc, hc !! x = Some dxc ∧ dxc !! i = Some (k, v)) ∧
  ∃ hc', merge_body self x k v hc = Ok hc' ∧ self_inv h x dx F (S i) hc'.
Proof.
  intros Hi (Hfr & dxc & Hxc & Hkeys & Hent).
  assert (k ∉ keys (take i dx)) as Hfresh.
  { intros Hin. rewrite <- (take_drop_middle dx i (k, v)) in Hndx by done.
    rewrite fmap_app, fmap_cons in Hndx.
    apply NoDup_app in Hndx as (_ & Hd & _). apply (Hd k Hin). by left. }
  destruct (repr_items_lookup _ _ _ _ _ _ _ Hix Hi) as (tk & Fk & Hti & Hv & HFk).
  pose proof (dict_get_lookup _ _ _ _ Hndx Hi) as Hg.
  destruct (Hent k v tk Fk Hg Hv) as (vc & Fc & Hgc & Hvc & _ & Heq).
  destruct (Heq Hfresh) as [-> ->].
  assert (dict_get k t = Some tk) as Hgt.
  { eapply dict_get_lookup; [|done]. by rewrite (repr_items_keys _ _ _ _ Hix). }
  split.
  { exists dxc. split; [done|].
    assert (i < length dxc) as Hlt.
    { rewrite <- (length_fmap fst), Hkeys, length_fmap.
      by eapply lookup_lt_Some. }
    destruct (lookup_lt_is_Some_2 _ _ Hlt) as [[k' v'] Hi'].
    assert (k' = k) as ->.
    { assert (keys dxc !! i = Some k') as Hk' by by rewrite list_lookup_fmap, Hi'.
      rewrite Hkeys, list_lookup_fmap, Hi in Hk'. by simplify_eq/=. }
    rewrite (dict_get_lookup i k v' dxc) in Hgc; [by simplify_eq| |done].
    by rewrite Hkeys. }
  assert (∀ hc', frame (x :: F) h hc' →
            (∃ dxc', hc' !! x = Some dxc' ∧ keys dxc' = keys dx ∧
               (∀ k', k' ≠ k → dict_get k' dxc' = dict_get k' dxc) ∧
               ∃ vn Fn, dict_get k dxc' = Some vn ∧
                        repr hc' vn tk Fn ∧
                        ∀ y, y ∈ Fn → length h ≤ y) →
            (∀ y, y < length hc → y ≠ x → y ∉ Fk → hc' !! y = hc !! y) →
            self_inv h x dx F (S i) hc') as Hkeep.
  { intros hc' Hfr' (dxc' & Hxc' & Hkeys' & Hother & vn & Fn & Hgn & Hvn & HFn) Hsame.
    split; [done|]. exists dxc'. split_and!; [done..|].
    intros k' v' tk' Fk' Hg' Hv'.
    destruct (decide (k' = k)) as [->|Hne].
    - simplify_eq. destruct (repr_inj _ _ _ _ Hv _ _ Hv') as [-> ->].
      exists vn, Fn. split_and!; [done..|].
      intros Hout. exfalso. apply Hout.
      rewrite (take_S_r _ _ _ Hi), fmap_app. apply elem_of_app. right. by left.
    - destruct (Hent k' v' tk' Fk' Hg' Hv') as (vc' & Fc' & ? & Hvc' & Hdone & Hnot).
      exists vc', Fc'. rewrite Hother by done.
      assert (k' ∈ keys (take (S i) dx) ↔ k' ∈ keys (take i dx)) as Hiff.
      { rewrite (take_S_r _ _ _ Hi), fmap_app, elem_of_app. simpl.
        rewrite list_elem_of_singleton. naive_solver. }
      split_and!; [done| |by rewrite Hiff|by rewrite Hiff].
      eapply repr_frame; [done|]. intros y Hy.
      pose proof (repr_bound _ _ _ _ Hvc') as Hb. rewrite Forall_forall in Hb.
      destruct (decide (k' ∈ keys (take i dx))) as [Hin|Hout].
      + pose proof (Hdone Hin y Hy).
        apply Hsame; [by apply Hb| |].
        * intros ->. pose proof (self_bound x ltac:(by left)). lia.
        * intros HyFk. pose proof (self_bound y ltac:(right; by apply HFk)). lia.
      + destruct (Hnot Hout) as [-> ->].
        apply Hsame; [by apply Hb| |].
        * intros ->. apply NoDup_cons in HndF as [HxF _]. apply HxF.
          by eapply (repr_items_own _ _ _ _ _ _ _ _ Hix Hg' Hv').
        * intros HyFk. apply NoDup_cons in HndF as [_ HF].
          by eapply (repr_items_disjoint _ _ _ _ k' k _ _ _ _ _ _ Hix HF). }
  unfold merge_body. rewrite (lookup_obj_Some _ _ _ Hxc). simpl. rewrite Hgc.
  destruct v as [s|q|a];
    try (exists hc; split; [done|]; apply Hkeep; [done| |done];
         exists dxc; split_and!; [done..|];
         eexists _, Fk; split_and!; [done|done|];
         inversion Hv; subst; by intros y ?%elem_of_nil).
  inversion Hv as [| |? da ia Fa' Hla Hnda Hia]; subst.
  destruct (self_spec hc a ia (a :: Fa')) as
    (m & h1 & Fm & Fa1 & -> & Hf1 & Hvm & HFm & _).
  { done. }
  { apply NoDup_cons in HndF as [_ HF].
    by eapply (repr_items_own _ _ _ _ _ _ _ _ Hix Hg Hv). }
  { pose proof (depth_get _ _ _ Hgt). lia. }
  simpl.
  assert (x < length hc) as Hxlt by by eapply lookup_lt_Some.
  assert (x ∉ a :: Fa') as HxFa.
  { intros ?. apply NoDup_cons in HndF as [HxF _]. apply HxF. by apply HFk. }
  destruct Hf1 as [Hlen1 Hf1].
  rewrite (lookup_obj_Some h1 x dxc) by (by rewrite Hf1). simpl.
  eexists. split; [done|]. apply Hkeep.
  - destruct Hfr as [Hlen Hfr]. split; [rewrite length_insert; lia|].
    intros y Hy Hout. apply not_elem_of_cons in Hout as [Hyx Hout].
    rewrite list_lookup_insert_ne by done.
    rewrite Hf1; [|lia|by intros ?%HFk].
    apply Hfr; [done|]. by apply not_elem_of_cons.
  - exists (dict_set k (VRef m) dxc). split_and!.
    + apply list_lookup_insert_eq. lia.
    + rewrite keys_dict_set_in; [done|].
      apply (dict_get_is_Some k dxc). by eexists.
    + intros k' Hne. by rewrite dict_get_set, decide_False.
    + exists (VRef m), Fm. split_and!.
      * by rewrite dict_get_set, decide_True.
      * eapply repr_frame; [done|].
        intros y Hy. apply list_lookup_insert_ne. intros <-.
        apply HFm in Hy. lia.
      * intros y Hy. apply HFm in Hy. destruct Hfr. lia.
  - intros y Hy Hyx HyFk. rewrite list_lookup_insert_ne by done. auto.
Qed.

Lemma self_run j : ∀ i hc,
  i + j = length dx → self_inv h x dx F i hc →
  ∃ hf, for_items (merge_body self x) x i j hc = Ok hf ∧
        self_inv h x dx F (length dx) hf.
Proof.
  induction j as [|j IH]; intros i hc Hij Hinv.
  - exists hc. split; [done|]. by replace (length dx) with i by lia.
  - simpl. destruct (lookup_lt_is_Some_2 dx i) as [[k v] Hi]; [lia|].
    destruct (self_step i k v hc Hi Hinv)
      as [(dxc & Hxc & Hi') (hc' & Hstep & Hinv')].
    rewrite (lookup_obj_Some _ _ _ Hxc). simpl. rewrite Hi', Hstep. simpl.
    apply IH; [lia|done].
Qed.

Lemma self_finish hf :
  self_inv h x dx F (length dx) hf →
  self_post h x t (x :: F)
    (dl1 ← lookup_obj hf x;
     let merged := length hf in
     let h2 := hf ++ [dl1] in
     dr2 ← lookup_obj h2 x;
     Ok (merged, <[merged := dict_update dl1 dr2]> h2)).
Proof.
  intros (Hfr & dxf & Hxf & Hkeys & Hent).
  rewrite take_ge in Hent by lia.
  assert (x < length hf) as Hxlt by by eapply lookup_lt_Some.
  assert (NoDup (keys dxf)) as Hndf by by rewrite Hkeys.
  rewrite (lookup_obj_Some _ _ _ Hxf). simpl.
  rewrite (lookup_obj_Some (hf ++ [dxf]) x dxf) by (by rewrite lookup_app_l).
  simpl. rewrite dict_update_self by done.
  set (h3 := <[length hf := dxf]> (hf ++ [dxf])).
  assert (∀ y, y < length hf → h3 !! y = hf !! y) as Hold.
  { intros y Hy. unfold h3.
    rewrite list_lookup_insert_ne by lia. by apply lookup_app_l. }
  assert (h3 !! length hf = Some dxf) as Hnew.
  { unfold h3. apply list_lookup_insert_eq. rewrite length_app. simpl. lia. }
  destruct Hfr as [Hlen Hfr'].
  destruct (repr_items_by_key h3 (λ y, length h ≤ y) dxf t)
    as (Fm & Him & HFm).
  { by rewrite Hkeys, (repr_items_keys _ _ _ _ Hix). }
  { done. }
  { intros k vc tk Hgc Hgt.
    destruct (repr_items_get_inv _ _ _ _ _ _ Hix Hgt) as (v & Fk & Hg & Hv & _).
    destruct (Hent k v tk Fk Hg Hv) as (vc' & Fc & ? & Hvc & Hdone & _).
    simplify_eq. exists Fc. split.
    - eapply repr_frame; [done|]. intros y Hy. apply Hold.
      pose proof (repr_bound _ _ _ _ Hvc) as Hb. rewrite Forall_forall in Hb.
      auto.
    - apply Hdone. apply (dict_get_is_Some k dx). by eexists. }
  exists (length hf), h3, (length hf :: Fm), (x :: Fm).
  split_and!; [done| | | |].
  - split.
    + unfold h3. rewrite length_insert, length_app. lia.
    + intros y Hy Hout. rewrite Hold by lia. by apply Hfr'.
  - eapply repr_ref; [exact Hnew | exact Hndf | exact Him].
  - intros y [->|Hy]%elem_of_cons; [lia|]. by apply HFm.
  - eapply repr_ref; [by rewrite Hold | exact Hndf | exact Him].
Qed.
End SelfLoop.

Lemma recursive_merge_self fuel : ∀ h x t F,
  repr h (VRef x) (DMap t) F → NoDup F → depth (DMap t) ≤ fuel →
  self_post h x t F (recursive_merge fuel x x h).
Proof.
  induction fuel as [|n IH]; intros h x t F Hx Hnd Hd.
  { simpl in Hd. lia. }
  inversion Hx as [| |? dx ? F' Hhx Hndx Hix]; subst.
  cbn [recursive_merge]. rewrite (lookup_obj_Some _ _ _ Hhx). simpl.
  edestruct (self_run (recursive_merge n) n IH h x dx t F')
    as (hf & -> & Hinv); [done..| |by apply self_inv_init|]; [done|].
  simpl. eapply self_finish; eauto.
Qed.

(** * The contract of recursive_merge *)

Lemma merge_spec_returns a b : returns_merge a b (merge_spec a b).
Proof.
  intros h l r Fl Fr Hpre.
  destruct (recursive_merge_sep (depth (DMap a)) h l r a b Fl Fr Hpre)
    as (m & h' & Fm & _ & -> & _ & _ & Hm & _); [lia|].
  by exists m, h', Fm.
Qed.

(** X27.  On two dictionaries [left] and [right] that are separate
    graphs, [right] without sharing, [recursive_merge(left, right)]
    returns a dictionary whose keys are those of [left] and those of
    [right]; at a key of both whose two values are mappings it holds the
    recursive merge of the two values; at any other key of both (sequences
    included) it holds the value of [right]; at a key of only one argument
    it holds the value of that argument. *)
Theorem recursive_merge_contract fuel h l r tl tr Fl Fr :
  repr h (VRef l) (DMap tl) Fl →
  repr h (VRef r) (DMap tr) Fr →
  NoDup Fr →
  separate Fl Fr →
  depth (DMap tl) ≤ fuel →
  ∃ m h' tm Fm,
    recursive_merge fuel l r h = Ok (m, h') ∧
    repr h' (VRef m) (DMap tm) Fm ∧
    (∀ k, k ∈ keys tm ↔ k ∈ keys tl ∨ k ∈ keys tr) ∧
    (∀ k a b,
       dict_get k tl = Some (DMap a) → dict_get k tr = Some (DMap b) →
       ∃ tk, dict_get k tm = Some (DMap tk) ∧ returns_merge a b tk) ∧
    (∀ k a b,
       dict_get k tl = Some a → dict_get k tr = Some b →
       ¬ (is_mapping a ∧ is_mapping b) →
       dict_get k tm = Some b) ∧
    (∀ k, dict_get k tr = None → dict_get k tm = dict_get k tl) ∧
    (∀ k, dict_get k tl = None → dict_get k tm = dict_get k tr).
Proof.
  intros Hl Hr Hnd Hsep Hd.
  destruct (recursive_merge_sep fuel h l r tl tr Fl Fr)
    as (m & h' & Fm & _ & -> & _ & _ & Hm & _); [done|lia|].
  exists m, h', (merge_spec tl tr), Fm. split_and!; [done..| | | | |].
  - intros k. unfold merge_spec. rewrite keys_merge_with, elem_of_app.
    rewrite list_elem_of_filter.
    destruct (decide (k ∈ keys tl)); naive_solver.
  - intros k a b Ha Hb. exists (merge_spec a b).
    split; [|apply merge_spec_returns].
    unfold merge_spec at 1. by rewrite dict_get_merge_with, Ha, Hb.
  - intros k a b Ha Hb Hnot.
    unfold merge_spec. rewrite dict_get_merge_with, Ha, Hb. f_equal.
    destruct a, b; simpl in *; try done. naive_solver.
  - intros k Hb. unfold merge_spec. rewrite dict_get_merge_with, Hb.
    by destruct (dict_get k tl).
  - intros k Ha. unfold merge_spec. by rewrite dict_get_merge_with, Ha.
Qed.

Lemma recursive_merge_contract_witness :
  ∃ m h' tm Fm,
    recursive_merge 2 1 3 example_store = Ok (m, h') ∧
    repr h' (VRef m) (DMap tm) Fm ∧
    (∀ k, k ∈ keys tm ↔ k ∈ keys example_left ∨ k ∈ keys example_right) ∧
    dict_get "c" tm = Some (DSeq []).
Proof.
  destruct (recursive_merge_contract 2 example_store 1 3
              example_left example_right [1; 0] [3; 2])
    as (m & h' & tm & Fm & Hcall & Hm & Hkeys & _ & Hright & _).
  - by apply (deep_sound 2).
  - by apply (deep_sound 2).
  - compute_done.
  - apply separate_Forall. compute_done.
  - simpl. lia.
  - exists m, h', tm, Fm. split_and!; [done..|].
    apply (Hright "c" (DSeq [DScalar (SInt 1)])); [done..|].
    by intros [_ ?].
Defined.

(** The left argument is not changed by a call: its graph is the same
    after it. *)
Lemma recursive_merge_left_unchanged fuel h l r tl tr Fl Fr :
  merge_pre h l r tl tr Fl Fr →
  depth (DMap tl) `min` depth (DMap tr) ≤ fuel →
  ∃ m h', recursive_merge fuel l r h = Ok (m, h') ∧
          repr h' (VRef l) (DMap tl) Fl ∧
          ∀ x, x ∈ Fl → h' !! x = h !! x.
Proof.
  intros Hpre Hd. pose proof Hpre as (Hl & Hr & Hnd & Hsep).
  destruct (recursive_merge_sep fuel h l r tl tr Fl Fr Hpre Hd)
    as (m & h' & Fm & _ & -> & [_ Hf] & _).
  exists m, h'. split; [done|].
  assert (∀ x, x ∈ Fl → h' !! x = h !! x) as Hsame.
  { intros x Hx. apply Hf.
    - pose proof (repr_bound _ _ _ _ Hl) as Hb. rewrite Forall_forall in Hb.
      auto.
    - intros ?. by eapply Hsep. }
  split; [|done]. by eapply repr_frame.
Qed.

(** The right argument holds [right_after] once the call has returned. *)
Lemma recursive_merge_right_after fuel h l r tl tr Fl Fr :
  merge_pre h l r tl tr Fl Fr →
  depth (DMap tl) `min` depth (DMap tr) ≤ fuel →
  ∃ m h' Fr', recursive_merge fuel l r h = Ok (m, h') ∧
              repr h' (VRef r) (DMap (right_after tl tr)) Fr'.
Proof.
  intros Hpre Hd.
  destruct (recursive_merge_sep fuel h l r tl tr Fl Fr Hpre Hd)
    as (m & h' & Fm & Fr' & -> & _ & _ & _ & _ & Hr' & _).
  by exists m, h', Fr'.
Qed.

(** C5.  [recursive_merge] is not free of side effects: on the
    dictionaries [left = {'a': {'x': 1}, 'c': [1]}] and
    [right = {'a': {'y': 2}, 'b': None, 'c': []}] the call returns, [left]
    is as before, and [right['a']] has become [{'x': 1, 'y': 2}]. *)
Theorem recursive_merge_changes_right :
  deep 2 example_store (VRef 1) = Some (DMap example_left, [1; 0]) ∧
  deep 2 example_store (VRef 3) = Some (DMap example_right, [3; 2]) ∧
  ∃ m h',
    recursive_merge 2 1 3 example_store = Ok (m, h') ∧
    deep 2 h' (VRef 1) = Some (DMap example_left, [1; 0]) ∧
    deep 2 h' (VRef 3) =
      Some (DMap [("a", DMap [("x", DScalar (SInt 1));
                              ("y", DScalar (SInt 2))]);
                  ("b", DScalar SNone); ("c", DSeq [])], [3; 4]) ∧
    h' !! 3 ≠ example_store !! 3.
Proof.
  split_and!; [done..|]. eexists _, _. split_and!; [done..|]. by vm_compute.
Qed.

(** Because the call assigns to [right] while it runs, a dictionary that
    [right] holds under two keys is merged twice: in the example the result
    has [{'x': {'p': 1}}] at ['b'], where the merge of [left['b']] and
    [right['b']], both [{'x': {}}], is [{'x': {}}]. *)
Lemma recursive_merge_shared_right :
  ∃ m h',
    recursive_merge 3 4 7 example_shared_store = Ok (m, h') ∧
    (fst <$> deep 3 h' (VRef m)) =
      Some (DMap [("a", DMap [("x", DMap [("p", DScalar (SInt 1))])]);
                  ("b", DMap [("x", DMap [("p", DScalar (SInt 1))])])]) ∧
    merge_spec [("x", DMap [])] [("x", DMap [])] = [("x", DMap [])].
Proof. by eexists _, _. Qed.

(** C1.  The contract does not hold on every pair of dictionaries: the
    loop assigns to [right] while it runs, and a dictionary that is held
    twice is then seen with the entries of an earlier merge.  In the first
    example [right] holds one dictionary, [{'x': {}}], under ['a'] and under
    ['b'], and [left['b']] is [{'x': {}}] as well: the recursive merge of the
    two values of ['b'] is [{'x': {}}] (the call on the two returns it), but
    the result of the call on [left] and [right] holds [{'x': {'p': 1}}] at
    ['b'].  In the second example [left] holds under ['only'], a key that
    [right] does not have, the dictionary that [right] holds under ['k']: the
    result holds [{'q': {'p': 1}}] at ['only'], where [left] had
    [{'q': {}}]. *)
Theorem recursive_merge_contract_broken :
  (fst <$> deep 3 example_shared_store (VRef 4)) =
    Some (DMap [("a", DMap [("x", DMap [("p", DScalar (SInt 1))])]);
                ("b", DMap [("x", DMap [])])]) ∧
  (fst <$> deep 3 example_shared_store (VRef 7)) =
    Some (DMap [("a", DMap [("x", DMap [])]); ("b", DMap [("x", DMap [])])]) ∧
  (∃ m h',
     recursive_merge 2 3 6 example_shared_store = Ok (m, h') ∧
     (fst <$> deep 2 h' (VRef m)) = Some (DMap [("x", DMap [])])) ∧
  (∃ m h' tm,
     recursive_merge 3 4 7 example_shared_store = Ok (m, h') ∧
     (fst <$> deep 3 h' (VRef m)) = Some (DMap tm) ∧
     dict_get "b" tm = Some (DMap [("x", DMap [("p", DScalar (SInt 1))])]) ∧
     dict_get "b" tm ≠
       Some (DMap (merge_spec [("x", DMap [])] [("x", DMap [])]))) ∧
  (fst <$> deep 3 example_common_store (VRef 4)) =
    Some (DMap [("k", DMap [("q", DMap [("p", DScalar (SInt 1))])]);
                ("only", DMap [("q", DMap [])])]) ∧
  (fst <$> deep 3 example_common_store (VRef 5)) =
    Some (DMap [("k", DMap [("q", DMap [])])]) ∧
  (∃ m h' tm,
     recursive_merge 3 4 5 example_common_store = Ok (m, h') ∧
     (fst <$> deep 3 h' (VRef m)) = Some (DMap tm) ∧
     dict_get "only" tm = Some (DMap [("q", DMap [("p", DScalar (SInt 1))])])).
Proof.
  split_and!; [done|done| | |done|done|].
  - by eexists _, _.
  - eexists _, _, _. split_and!; [done..|]. by vm_compute.
  - by eexists _, _, _.
Qed.

(** C6.  For every dictionary [x] (a graph without sharing),
    [recursive_merge(x, x)] returns a dictionary that is equal to [x]: its
    deep value is the deep value that [x] had before the call, and that [x]
    still has after it. *)
Theorem recursive_merge_idempotent fuel h x t F :
  repr h (VRef x) (DMap t) F →
  NoDup F →
  depth (DMap t) ≤ fuel →
  ∃ m h' Fm Fx,
    recursive_merge fuel x x h = Ok (m, h') ∧
    repr h' (VRef m) (DMap t) Fm ∧
    repr h' (VRef x) (DMap t) Fx.
Proof.
  intros Hx Hnd Hd.
  destruct (recursive_merge_self fuel h x t F Hx Hnd Hd)
    as (m & h' & Fm & Fx & -> & _ & Hm & _ & Hx').
  by exists m, h', Fm, Fx.
Qed.

Lemma recursive_merge_idempotent_witness :
  ∃ m h' Fm Fx,
    recursive_merge 2 3 3 example_store = Ok (m, h') ∧
    repr h' (VRef m) (DMap example_right) Fm ∧
    repr h' (VRef 3) (DMap example_right) Fx.
Proof.
  apply (recursive_merge_idempotent 2 example_store 3 example_right [3; 2]).
  - by apply (deep_sound 2).
  - compute_done.
  - simpl. lia.
Defined.

(** Two equal dictionaries that are separate objects merge to the same
    value as well. *)
Lemma merge_value_idem t : wf t → merge_value t t = t.
Proof.
  induction t as [s|q|items IH] using data_ind; intros Hwf; [done..|].
  rewrite merge_value_map. f_equal. simpl in Hwf.
  apply andb_prop_elim in Hwf as [Hnd Hwf]. apply bool_decide_unpack in Hnd.
  unfold merge_spec, merge_with.
  rewrite (filter_none (λ kv, kv.1 ∉ keys items)), app_nil_r.
  2:{ intros [k v] Hin Hout. apply Hout, list_elem_of_fmap. by exists (k, v). }
  transitivity (map id items); [|apply map_id].
  apply map_ext_in. intros [k v] Hin. simpl.
  apply list_elem_of_In in Hin as Hin'.
  apply list_elem_of_lookup in Hin' as [i Hi].
  rewrite (dict_get_lookup _ _ _ _ Hnd Hi). f_equal.
  rewrite Forall_forall in IH.
  apply (IH (k, v)); [by eapply list_elem_of_lookup_2|].
  apply Is_true_true in Hwf. rewrite forallb_forall in Hwf.
  apply Is_true_true. by apply (Hwf (k, v)).
Qed.


(** * get_protocol_inputs *)

Lemma keys_dict_remove {A} k (d : dict A) :
  NoDup (keys d) → keys (dict_remove k d) = filter (λ k', k' ≠ k) (keys d).
Proof.
  induction d as [|[k' v] d IH]; intros Hnd; [done|].
  rewrite fmap_cons in Hnd. apply NoDup_cons in Hnd as [Hk Hnd].
  cbn [dict_remove fmap list_fmap fst]. destruct (decide (k = k')) as [->|Hne].
  - rewrite filter_cons_False by naive_solver.
    symmetry. apply filter_all. by intros x Hx ->.
  - rewrite filter_cons_True by done. rewrite fmap_cons. f_equal. auto.
Qed.

Lemma NoDup_keys_dict_remove {A} k (d : dict A) :
  NoDup (keys d) → NoDup (keys (dict_remove k d)).
Proof. intros Hnd. rewrite keys_dict_remove by done. by apply NoDup_filter. Qed.

Lemma dict_get_remove {A} k k' (d : dict A) :
  NoDup (keys d) →
  dict_get k' (dict_remove k d) = if decide (k' = k) then None else dict_get k' d.
Proof.
  induction d as [|[k0 v] d IH]; intros Hnd; [by case_decide|].
  rewrite fmap_cons in Hnd. apply NoDup_cons in Hnd as [Hk Hnd].
  cbn [dict_remove dict_get]. destruct (decide (k = k0)) as [->|Hne].
  - destruct (decide (k' = k0)) as [->|?]; [|done].
    by apply dict_get_None.
  - cbn [dict_get]. rewrite IH by done. repeat case_decide; congruence.
Qed.

Lemma repr_items_remove h k d items F :
  repr_items h d items F →
  ∃ F', repr_items h (dict_remove k d) (dict_remove k items) F' ∧ F' ⊆ F.
Proof.
  induction 1 as [|k' v t d items F1 F2 Hv Hd (F' & IH & Hsub)].
  - exists []. split; [constructor|done].
  - cbn [dict_remove]. case_decide.
    + exists F2. split; [done|]. intros x ?. apply elem_of_app. by right.
    + exists (F1 ++ F'). split; [by constructor|].
      intros x [?|?]%elem_of_app; apply elem_of_app; auto.
Qed.

(** Subscripting the root of a graph. *)
Lemma getitem_repr h l items F k t :
  repr h (VRef l) (DMap items) F → dict_get k items = Some t →
  ∃ d F' v Fv,
    h !! l = Some d ∧ F = l :: F' ∧ repr_items h d items F' ∧
    dict_get k d = Some v ∧ getitem h (VRef l) k = Ok v ∧
    repr h v t Fv ∧ Fv ⊆ F'.
Proof.
  intros Hl Hg. inversion Hl as [| |? d ? F' Hh Hnd Hi]; subst.
  destruct (repr_items_get_inv _ _ _ _ _ _ Hi Hg) as (v & Fv & Hgd & Hv & Hsub).
  exists d, F', v, Fv. split_and!; [done..| |done|done].
  unfold getitem. rewrite (lookup_obj_Some _ _ _ Hh). simpl. by rewrite Hgd.
Qed.

Lemma getitem_missing h l items F k :
  repr h (VRef l) (DMap items) F → dict_get k items = None →
  getitem h (VRef l) k = Raise (KeyError k).
Proof.
  intros Hl Hg. inversion Hl as [| |? d ? F' Hh Hnd Hi]; subst.
  unfold getitem. rewrite (lookup_obj_Some _ _ _ Hh). simpl.
  destruct (dict_get k d) as [v|] eqn:Hgd; [|done].
  destruct (repr_items_get _ _ _ _ _ _ Hi Hgd) as (t & ? & ? & _). congruence.
Qed.

Section ProtocolInputs.
Variables (fuel : nat) (file : data) (root base protocols entry : dict data).
Variables (name : string) (protocol : option string) (h : heap).
Hypothesis Hfile : file = DMap root.
Hypothesis Hwf : wf file.
Hypothesis Hbase : dict_get "base" root = Some (DMap base).
Hypothesis Hprotocols : dict_get "protocols" root = Some (DMap protocols).
Hypothesis Hentry : dict_get name protocols = Some (DMap entry).
Hypothesis Hdescr : "description" ∈ keys entry.
Hypothesis Hname : selects root protocol name.
Hypothesis Hfuel : depth (DMap base) ≤ fuel.

(** Up to the test of the overrides, a call builds the inputs in fresh
    dictionaries and leaves the store of the caller as it is. *)
Lemma protocol_inputs_prefix :
  ∃ m h2 Fi,
    (∀ overrides,
       get_protocol_inputs fuel file protocol overrides h =
         match overrides with
         | Some o =>
             do ← lookup_obj h2 o;
             match do with
             | [] => Ok (m, h2)
             | _ :: _ => recursive_merge fuel m o h2
             end
         | None => Ok (m, h2)
         end) ∧
    repr h2 (VRef m) (DMap (protocol_inputs base entry)) Fi ∧
    (∀ x, x ∈ Fi → length h ≤ x) ∧
    length h ≤ length h2 ∧
    (∀ x, x < length h → h2 !! x = h !! x).
Proof.
  destruct (alloc_repr file h Hwf) as (F0 & hs & Hh0 & Hroot & HndF0 & HF0).
  unfold get_protocol_inputs, load_protocol_file.
  destruct (alloc file h) as [data h0]. simpl in Hh0, Hroot. subst file h0.
  inversion Hroot as [| |l0 d0 ? F0' Hl0 Hnd0 Hi0]; subst.
  apply NoDup_cons in HndF0 as [Hl0F HndF0'].
  (* the three entries of the file *)
  destruct (getitem_repr _ _ _ _ _ _ Hroot Hbase)
    as (? & ? & vb & Fb & ? & ? & _ & Hgb & Hgetb & Hvb & HFb); simplify_eq.
  destruct (getitem_repr _ _ _ _ _ _ Hroot Hprotocols)
    as (? & ? & vp & Fp & ? & ? & _ & Hgp & Hgetp & Hvp & HFp); simplify_eq.
  inversion Hvb as [| |lb db ? Fb' Hlb Hndb Hib]; subst.
  inversion Hvp as [| |lp dp ? Fp' Hlp Hndp Hip]; subst.
  destruct (getitem_repr _ _ _ _ _ _ Hvp Hentry)
    as (? & ? & ve & Fe & ? & ? & _ & Hge & Hgete & Hve & HFe); simplify_eq.
  inversion Hve as [| |le de ? Fe' Hle Hnde Hie]; subst.
  match type of Hi0 with repr_items _ _ _ ?F => rename F into F0' end.
  match type of Hip with repr_items _ _ _ ?F => rename F into Fp' end.
  assert (match protocol with
          | Some s =>
              if decide (s = "") then getitem (h ++ hs) (VRef l0) "default"
              else Ok (VScalar (SStr s))
          | None => getitem (h ++ hs) (VRef l0) "default"
          end = Ok (VScalar (SStr name))) as Hsel.
  { destruct Hname as [[-> Hne]|[-> Hdef]].
    - by rewrite decide_False.
    - destruct (getitem_repr _ _ _ _ _ _ Hroot Hdef)
        as (? & ? & vd & Fd & ? & ? & _ & _ & -> & Hvd & _).
      by inversion Hvd. }
  (* the first merge *)
  assert (NoDup (lp :: Fp')) as HndFp
    by by eapply (repr_items_own _ _ _ _ _ _ _ _ Hi0 Hgp Hvp).
  destruct (recursive_merge_sep fuel (h ++ hs) lb le base entry
              (lb :: Fb') (le :: Fe'))
    as (m & h1 & Fm & _ & Hmerge & [Hlen1 Hf1] & Hm & Hvm & HFm & _ & Fm' & -> & HFm').
  { split_and!; [done..| |].
    - apply NoDup_cons in HndFp as [_ HndFp'].
      by eapply (repr_items_own _ _ _ _ _ _ _ _ Hip Hge Hve).
    - intros x Hx1 Hx2.
      eapply (repr_items_disjoint _ _ _ _ "base" "protocols"
                _ _ _ _ _ _ Hi0 HndF0'); [done..|].
      right. by apply HFe. }
  { lia. }
  inversion Hvm as [| |? dm ? ? Hlm Hndm Him]; subst.
  assert (is_Some (dict_get "description" dm)) as [vd Hgd].
  { apply dict_get_is_Some. rewrite <- (repr_items_keys _ _ _ _ Him).
    unfold merge_spec. rewrite keys_merge_with, elem_of_app.
    rewrite list_elem_of_filter.
    destruct (decide ("description" ∈ keys base)); auto. }
  destruct (repr_items_remove _ "description" _ _ _ Him) as (Fi & Hii & HFi).
  assert (∀ x, x ∈ m :: Fm' → length h ≤ x) as Hfresh.
  { intros x Hx. destruct (HFm x Hx) as [Hx'|[Hx'|Hx']].
    - apply HF0. right. by apply HFb.
    - apply HF0. right. apply HFp. right. by apply HFe.
    - rewrite length_app in Hx'. lia. }
  exists m, (<[m := dict_remove "description" dm]> h1), (m :: Fi).
  split_and!.
  - intros overrides.
    rewrite res_bind_Ok, Hsel, res_bind_Ok, Hgetb, res_bind_Ok.
    rewrite Hgetp, res_bind_Ok. cbn [getitem_val].
    rewrite Hgete, res_bind_Ok. cbn [call_recursive_merge].
    rewrite Hmerge, res_bind_Ok, (lookup_obj_Some _ _ _ Hlm), res_bind_Ok.
    by rewrite Hgd.
  - eapply repr_ref.
    + apply list_lookup_insert_eq. by eapply lookup_lt_Some.
    + by apply NoDup_keys_dict_remove.
    + eapply repr_items_frame; [done|]. intros x Hx.
      apply list_lookup_insert_ne. intros <-.
      apply HFi, HFm' in Hx. lia.
  - intros x [->|Hx]%elem_of_cons; apply Hfresh; [by left|].
    right. by apply HFi.
  - rewrite length_insert. rewrite length_app in Hlen1. lia.
  - intros x Hx. rewrite list_lookup_insert_ne.
    2:{ rewrite length_app in Hm. lia. }
    rewrite Hf1.
    + by apply lookup_app_l.
    + rewrite length_app. lia.
    + intros Hin. assert (length h ≤ x); [|lia].
      apply HF0. right. apply HFp. right. by apply HFe.
Qed.
End ProtocolInputs.

Lemma wf_get k items t : wf (DMap items) → dict_get k items = Some t → wf t.
Proof.
  simpl. intros [_ Hwf]%andb_prop_elim Hg.
  apply Is_true_true in Hwf. rewrite forallb_forall in Hwf.
  apply Is_true_true. apply (Hwf (k, t)).
  by apply list_elem_of_In, dict_get_elem_of.
Qed.

Lemma wf_NoDup items : wf (DMap items) → NoDup (keys items).
Proof. simpl. intros [Hnd _]%andb_prop_elim. by apply bool_decide_unpack in Hnd. Qed.

Lemma NoDup_keys_merge_with f l r :
  NoDup (keys l) → NoDup (keys r) → NoDup (keys (merge_with f l r)).
Proof.
  intros Hl Hr. rewrite keys_merge_with. apply NoDup_app. split_and!; [done| |].
  - intros k Hk [Hout _]%list_elem_of_filter. done.
  - by apply NoDup_filter.
Qed.

(** A value of the right tree that is not a mapping is found at the same
    path in the merge. *)
Lemma lookup_path_merge_leaf path : ∀ a b v,
  lookup_path path b = Some v → is_mapping v = false →
  lookup_path path (merge_value a b) = Some v.
Proof.
  induction path as [|k path IH]; intros a b v Hb Hv; simplify_eq/=.
  - rewrite merge_value_not_map_r; [done|]. by intros r ->.
  - destruct b as [| |rb]; simplify_eq/=.
    destruct (dict_get k rb) as [b'|] eqn:Hgb; simplify_eq/=.
    destruct a as [| |la]; simpl; try (by rewrite Hgb).
    rewrite dict_get_merge_with, Hgb.
    destruct (dict_get k la) as [a'|]; simpl; [by apply IH|done].
Qed.

(** Where both trees have a mapping at a path, the merge has the merge of
    the two mappings. *)
Lemma lookup_path_merge_both path : ∀ a b x y,
  lookup_path path a = Some (DMap x) → lookup_path path b = Some (DMap y) →
  lookup_path path (merge_value a b) = Some (DMap (merge_spec x y)).
Proof.
  induction path as [|k path IH]; intros a b x y Ha Hb; simplify_eq/=; [done|].
  destruct a as [| |la], b as [| |rb]; simplify_eq/=.
  destruct (dict_get k la) as [a'|] eqn:Hga; simplify_eq/=.
  destruct (dict_get k rb) as [b'|] eqn:Hgb; simplify_eq/=.
  rewrite dict_get_merge_with, Hga, Hgb. simpl. by apply IH.
Qed.

(** C2.  On a protocol file whose entry for the protocol has a
    [description], [get_protocol_inputs] without overrides returns the
    recursive merge of the [base] of the file with the entry of the
    protocol, without the key [description]; without a protocol name the
    protocol is the one that the [default] key of the file names. *)
Theorem get_protocol_inputs_no_overrides
    fuel file root base protocols entry name protocol h :
  file = DMap root →
  wf file →
  dict_get "base" root = Some (DMap base) →
  dict_get "protocols" root = Some (DMap protocols) →
  dict_get name protocols = Some (DMap entry) →
  "description" ∈ keys entry →
  selects root protocol name →
  depth (DMap base) ≤ fuel →
  ∃ m h' F merged,
    get_protocol_inputs fuel file protocol None h = Ok (m, h') ∧
    merged = merge_spec base entry ∧
    returns_merge base entry merged ∧
    repr h' (VRef m) (DMap (dict_remove "description" merged)) F ∧
    ∀ k, dict_get k (dict_remove "description" merged) =
           if decide (k = "description") then None else dict_get k merged.
Proof.
  intros Hfile Hwf Hbase Hprotocols Hentry Hdescr Hname Hfuel.
  destruct (protocol_inputs_prefix fuel file root base protocols entry name
              protocol h) as (m & h2 & Fi & Hcall & Hm & _); [done..|].
  exists m, h2, Fi, (merge_spec base entry).
  split_and!; [apply Hcall|done|apply merge_spec_returns|done|].
  intros k. apply dict_get_remove. subst file.
  apply NoDup_keys_merge_with; apply wf_NoDup.
  - by eapply wf_get.
  - eapply wf_get; [|done]. by eapply wf_get.
Qed.

(** X28.  With overrides that are not empty and hold no dictionary twice,
    every value of the overrides that is not a mapping is in the result of
    [get_protocol_inputs] at the same nested path, whatever the protocol and
    the base have there; where the overrides and the inputs of the protocol
    both have a mapping, the result has a mapping with the keys of both. *)
Theorem get_protocol_inputs_overrides
    fuel file root base protocols entry name protocol h o overrides Fo :
  file = DMap root →
  wf file →
  dict_get "base" root = Some (DMap base) →
  dict_get "protocols" root = Some (DMap protocols) →
  dict_get name protocols = Some (DMap entry) →
  "description" ∈ keys entry →
  selects root protocol name →
  repr h (VRef o) (DMap overrides) Fo →
  NoDup Fo →
  overrides ≠ [] →
  depth (DMap base) ≤ fuel →
  depth (DMap overrides) ≤ fuel →
  ∃ m h' F result,
    get_protocol_inputs fuel file protocol (Some o) h = Ok (m, h') ∧
    repr h' (VRef m) (DMap result) F ∧
    result = merge_spec (protocol_inputs base entry) overrides ∧
    (∀ path v,
       lookup_path path (DMap overrides) = Some v → is_mapping v = false →
       lookup_path path (DMap result) = Some v) ∧
    (∀ path a b,
       lookup_path path (DMap (protocol_inputs base entry)) = Some (DMap a) →
       lookup_path path (DMap overrides) = Some (DMap b) →
       ∃ c, lookup_path path (DMap result) = Some (DMap c) ∧
            ∀ k, k ∈ keys c ↔ k ∈ keys a ∨ k ∈ keys b).
Proof.
  intros Hfile Hwf Hbase Hprotocols Hentry Hdescr Hname Ho HndFo Hne Hfuel Hfo.
  destruct (protocol_inputs_prefix fuel file root base protocols entry name
              protocol h) as (m & h2 & Fi & Hcall & Hm & HFi & Hlen & Hsame);
    [done..|].
  assert (repr h2 (VRef o) (DMap overrides) Fo) as Ho2.
  { eapply repr_frame; [done|]. intros x Hx. apply Hsame.
    pose proof (repr_bound _ _ _ _ Ho) as Hb. rewrite Forall_forall in Hb.
    auto. }
  destruct (recursive_merge_sep fuel h2 m o (protocol_inputs base entry)
              overrides Fi Fo)
    as (m' & h' & Fm & _ & Hmerge & _ & _ & Hm' & _).
  { split_and!; [done..|]. intros x Hx1 Hx2. apply HFi in Hx1.
    pose proof (repr_bound _ _ _ _ Ho) as Hb. rewrite Forall_forall in Hb.
    apply Hb in Hx2. lia. }
  { lia. }
  exists m', h', Fm, (merge_spec (protocol_inputs base entry) overrides).
  split_and!; [|done|done| |].
  - rewrite Hcall. inversion Ho2 as [| |? do ? ? Hlo _ Hio]; subst.
    rewrite (lookup_obj_Some _ _ _ Hlo), res_bind_Ok.
    destruct do as [|kv do]; [|done].
    inversion Hio; by subst.
  - intros path v Hv Hleaf. rewrite <- merge_value_map.
    by apply lookup_path_merge_leaf.
  - intros path a b Ha Hb. exists (merge_spec a b). split.
    + rewrite <- merge_value_map. by apply lookup_path_merge_both.
    + intros k. unfold merge_spec. rewrite keys_merge_with, elem_of_app.
      rewrite list_elem_of_filter.
      destruct (decide (k ∈ keys a)); naive_solver.
Qed.

(** C3.  With overrides, nested mappings do not always combine key-wise:
    the second merge assigns to the dictionaries of the overrides while it
    runs.  In the example the overrides hold one dictionary,
    [{'pw': {'nspin': 2}}], under ['base'] and under ['base_final_scf'], and
    say nothing about [calculation]; the inputs of the protocol have
    [calculation = 'scf'] under ['base_final_scf']['pw'] and
    [calculation = 'vc-relax'] under ['base']['pw'].  The result has
    [{'calculation': 'vc-relax', 'nspin': 2}] under
    ['base_final_scf']['pw'], where the key-wise combination of the two
    mappings is [{'calculation': 'scf', 'nspin': 2}]. *)
Theorem get_protocol_inputs_overrides_broken :
  wf (DMap example_relax_root) ∧
  (fst <$> deep 3 example_shared_overrides_store (VRef 2)) =
    Some (DMap example_shared_overrides) ∧
  lookup_path ["base_final_scf"; "pw"; "calculation"]
    (DMap example_shared_overrides) = None ∧
  lookup_path ["base_final_scf"; "pw"]
    (DMap (protocol_inputs example_relax_base
             [("description", DScalar (SStr "balanced"))])) =
    Some (DMap [("calculation", DScalar (SStr "scf"))]) ∧
  ∃ m h' result,
    get_protocol_inputs 3 (DMap example_relax_root) None (Some 2)
      example_shared_overrides_store = Ok (m, h') ∧
    (fst <$> deep 4 h' (VRef m)) = Some (DMap result) ∧
    lookup_path ["base_final_scf"; "pw"] (DMap result) =
      Some (DMap [("calculation", DScalar (SStr "vc-relax"));
                  ("nspin", DScalar (SInt 2))]) ∧
    lookup_path ["base_final_scf"; "pw"]
      (DMap (merge_spec
               (protocol_inputs example_relax_base
                  [("description", DScalar (SStr "balanced"))])
               example_shared_overrides)) =
      Some (DMap [("calculation", DScalar (SStr "scf"));
                  ("nspin", DScalar (SInt 2))]).
Proof.
  split_and!; [by vm_compute|done|done|done|].
  eexists _, _, _. split_and!; [by vm_compute|by vm_compute|done|done].
Qed.

(** C9.  The empty string as protocol name is the same as no protocol
    name: the two calls are equal, whatever the file and the overrides.  On
    a file whose [default] names a protocol with a description, the call
    with the empty string is equal to the call with that name (if it is not
    itself empty), and without overrides it returns the inputs of that
    protocol, the [base] merged with its entry without the description; no
    protocol is looked up under the empty string. *)
Theorem get_protocol_inputs_empty_name fuel file overrides h :
  get_protocol_inputs fuel file (Some "") overrides h =
    get_protocol_inputs fuel file None overrides h ∧
  ∀ root base protocols entry name,
    file = DMap root →
    wf file →
    dict_get "default" root = Some (DScalar (SStr name)) →
    dict_get "base" root = Some (DMap base) →
    dict_get "protocols" root = Some (DMap protocols) →
    dict_get name protocols = Some (DMap entry) →
    "description" ∈ keys entry →
    depth (DMap base) ≤ fuel →
    (name ≠ "" →
     get_protocol_inputs fuel file (Some "") overrides h =
       get_protocol_inputs fuel file (Some name) overrides h) ∧
    ∃ m h' F,
      get_protocol_inputs fuel file (Some "") None h = Ok (m, h') ∧
      repr h' (VRef m) (DMap (protocol_inputs base entry)) F ∧
      (∀ x : loc, x < length h → h' !! x = h !! x).
Proof.
  assert (∀ o, get_protocol_inputs fuel file (Some "") o h =
               get_protocol_inputs fuel file None o h) as Hnone.
  { intros o. unfold get_protocol_inputs.
    destruct (load_protocol_file file h) as [[data h0]| | |]; [|done..].
    rewrite !res_bind_Ok. by rewrite decide_True. }
  split; [apply Hnone|].
  intros root base protocols entry name Hfile Hwf Hdef Hbase Hprotocols
    Hentry Hdescr Hfuel.
  split.
  - intros Hne. subst file.
    destruct (alloc_repr (DMap root) h Hwf) as (F0 & hs & Hh0 & Hroot & _ & _).
    unfold get_protocol_inputs, load_protocol_file.
    destruct (alloc (DMap root) h) as [data h0]. simpl in Hh0, Hroot.
    subst h0. inversion Hroot as [| |l0 d0 ? F0' Hl0 Hnd0 Hi0]; subst.
    rewrite !res_bind_Ok. rewrite decide_True by done.
    rewrite decide_False by done.
    destruct (getitem_repr _ _ _ _ _ _ Hroot Hdef)
      as (? & ? & vd & Fd & _ & _ & _ & _ & -> & Hvd & _).
    by inversion Hvd.
  - destruct (protocol_inputs_prefix fuel file root base protocols entry name
                None h) as (m & h2 & Fi & Hcall & Hm & _ & _ & Hsame);
      [done..|by right|done|].
    exists m, h2, Fi. split_and!; [|done..].
    rewrite Hnone. apply (Hcall None).
Qed.

Lemma get_protocol_inputs_empty_name_witness :
  ∃ m h' F,
    get_protocol_inputs 2 (DMap example_unnamed_root) (Some "") None
      example_store = Ok (m, h') ∧
    repr h' (VRef m)
      (DMap (protocol_inputs example_base
               [("description", DScalar (SStr "balanced"))])) F ∧
    (∀ x : loc, x < length example_store → h' !! x = example_store !! x).
Proof.
  apply (proj2 (get_protocol_inputs_empty_name 2 (DMap example_unnamed_root)
                  None example_store)
           example_unnamed_root example_base
           [("", DMap [("description", DScalar (SStr "unnamed"));
                       ("kpoints", DScalar (SInt 7))]);
            ("moderate", DMap [("description", DScalar (SStr "balanced"))])]
           [("description", DScalar (SStr "balanced"))] "moderate").
  - reflexivity.
  - by vm_compute.
  - reflexivity.
  - reflexivity.
  - reflexivity.
  - reflexivity.
  - compute_done.
  - simpl. lia.
Defined.

(** * get_available_protocols *)

Section AvailableLoop.
Variables (h0 : heap) (p : loc) (dp : dict val) (protocols : dict data).
Variable Fp : list loc.
Hypothesis Hp : h0 !! p = Some dp.
Hypothesis Hndp : NoDup (keys dp).
Hypothesis Hip : repr_items h0 dp protocols Fp.
Hypothesis Hdescribed : described protocols.

Let out := length h0.

Lemma available_step i k v hc :
  dp !! i = Some (k, v) → available_inv h0 dp protocols i hc →
  ∃ hc', describe_body out k v hc = Ok hc' ∧ available_inv h0 dp protocols (S i) hc'.
Proof.
  intros Hi (Hlen & Hsame & dout & Fout & Hout & Hkeys & Hrepr & HoutF).
  destruct (repr_items_lookup _ _ _ _ _ _ _ Hip Hi) as (t & Fv & Hti & Hv & HFv).
  assert (dict_get k protocols = Some t) as Hgt.
  { eapply dict_get_lookup; [|done]. by rewrite (repr_items_keys _ _ _ _ Hip). }
  destruct (Hdescribed k t Hgt) as [d Hd].
  destruct t as [| |items]; simplify_eq/=.
  pose proof (repr_bound _ _ _ _ Hv) as Hbv. rewrite Forall_forall in Hbv.
  assert (repr hc v (DMap items) Fv) as Hvc.
  { eapply repr_frame; [done|]. intros x Hx. apply Hsame. auto. }
  inversion Hvc as [| |lv dv ? Fv' Hlv Hndv Hiv]; subst.
  destruct (getitem_repr _ _ _ _ _ _ Hvc Hd)
    as (d1 & F1 & vd & Fd & _ & HeqF & _ & _ & Hget & Hvd & HFd).
  assert (∀ y, y ∈ Fd → y < length hc ∧ y ≠ out) as HFvb.
  { intros y Hy. assert (y < length h0).
    { apply Hbv. rewrite HeqF. right. by apply HFd. }
    unfold out. lia. }
  unfold describe_body. rewrite Hget, res_bind_Ok. cbn zeta.
  assert (out < length hc) as Houtlt by (unfold out; lia).
  rewrite (lookup_obj_Some _ out dout) by (by rewrite lookup_app_l).
  rewrite res_bind_Ok. eexists. split; [done|].
  assert (k ∉ keys dout) as Hfresh.
  { rewrite Hkeys. intros Hin.
    rewrite <- (take_drop_middle dp i (k, VRef lv)) in Hndp by done.
    rewrite fmap_app, fmap_cons in Hndp.
    apply NoDup_app in Hndp as (_ & Hdis & _). apply (Hdis k Hin). by left. }
  rewrite dict_set_notin by done.
  set (inner := length hc).
  set (h1 := hc ++ [[("description", vd)]]).
  set (h' := <[out := dout ++ [(k, VRef inner)]]> h1).
  assert (∀ x, x < length hc → x ≠ out → h' !! x = hc !! x) as Hold.
  { intros x Hx Hne. unfold h', h1.
    rewrite list_lookup_insert_ne by done. by apply lookup_app_l. }
  assert (h' !! inner = Some [("description", vd)]) as Hinner.
  { unfold h', h1. rewrite list_lookup_insert_ne by (unfold inner; lia).
    by apply list_lookup_middle. }
  split_and!.
  - unfold h', h1. rewrite length_insert, length_app. simpl. lia.
  - intros x Hx. rewrite Hold by (unfold out; lia). auto.
  - exists (dout ++ [(k, VRef inner)]), (Fout ++ ((inner :: (Fd ++ [])) ++ [])).
    split_and!.
    + unfold h', h1. apply list_lookup_insert_eq. rewrite length_app. lia.
    + by rewrite fmap_app, Hkeys, (take_S_r _ _ _ Hi), fmap_app.
    + rewrite (take_S_r _ _ _ Hti). unfold available.
      rewrite omap_app. simpl. rewrite Hd. simpl.
      apply repr_items_app.
      * eapply repr_items_frame; [done|]. intros x Hx. apply Hold.
        -- pose proof (repr_items_bound _ _ _ _ Hrepr) as Hb.
           rewrite Forall_forall in Hb. auto.
        -- by intros ->.
      * refine (repr_cons _ _ _ _ _ _ (inner :: (Fd ++ [])) [] _
                  (repr_nil _)).
        eapply repr_ref; [done|apply NoDup_singleton|].
        constructor; [|constructor].
        eapply repr_frame; [done|]. intros x Hx.
        apply Hold; by apply HFvb.
    + rewrite !app_nil_r. intros [?|[Heq|Hx]%elem_of_cons]%elem_of_app.
      * done.
      * unfold inner, out in Heq. lia.
      * by apply HFvb in Hx as [_ ?].
Qed.

Lemma available_run j : ∀ i hc,
  i + j = length dp → available_inv h0 dp protocols i hc →
  ∃ hf, for_items (describe_body out) p i j hc = Ok hf ∧
        available_inv h0 dp protocols (length dp) hf.
Proof.
  induction j as [|j IH]; intros i hc Hij Hinv.
  - exists hc. split; [done|]. by replace (length dp) with i by lia.
  - simpl. pose proof Hinv as (_ & Hsame & _).
    rewrite (lookup_obj_Some hc p dp)
      by (rewrite Hsame; [done|by eapply lookup_lt_Some]).
    rewrite res_bind_Ok.
    destruct (lookup_lt_is_Some_2 dp i) as [[k v] Hi]; [lia|]. rewrite Hi.
    destruct (available_step i k v hc Hi Hinv) as (hc' & -> & Hinv').
    rewrite res_bind_Ok. apply IH; [lia|done].
Qed.
End AvailableLoop.

Lemma available_spec protocols :
  NoDup (keys protocols) → described protocols →
  keys (available protocols) = keys protocols ∧
  ∀ name t d,
    dict_get name protocols = Some t → description_of t = Some d →
    dict_get name (available protocols) = Some (DMap [("description", d)]).
Proof.
  induction protocols as [|[k t] ps IH]; intros Hnd Hdesc; [done|].
  rewrite fmap_cons in Hnd. apply NoDup_cons in Hnd as [Hk Hnd].
  destruct (Hdesc k t) as [d0 Hd0]; [simpl; by rewrite decide_True|].
  destruct IH as [IHk IHg]; [done| |].
  { intros name t' Hg. apply (Hdesc name). simpl.
    rewrite decide_False; [done|]. intros ->.
    apply Hk. apply (dict_get_is_Some k ps). by eexists. }
  unfold available in *. cbn [omap list_omap fst snd]. rewrite Hd0. simpl.
  split; [by f_equal|].
  intros name t' d. case_decide; intros ??; simplify_eq; [done|].
  by apply (IHg name t').
Qed.

(** C7.  On a protocol file whose protocols all have a [description],
    [get_available_protocols] returns a dictionary whose keys are the names
    of the protocols under [protocols], each with a dictionary that has the
    key [description] only, with the description of that protocol. *)
Theorem get_available_protocols_spec file root protocols h :
  file = DMap root →
  wf file →
  dict_get "protocols" root = Some (DMap protocols) →
  described protocols →
  ∃ out h' result F,
    get_available_protocols file h = Ok (out, h') ∧
    repr h' (VRef out) (DMap result) F ∧
    keys result = keys protocols ∧
    ∀ name t d,
      dict_get name protocols = Some t → description_of t = Some d →
      dict_get name result = Some (DMap [("description", d)]).
Proof.
  intros -> Hwf Hprotocols Hdesc.
  destruct (alloc_repr (DMap root) h Hwf) as (F0 & hs & Hh0 & Hroot & _ & _).
  unfold get_available_protocols, load_protocol_file.
  destruct (alloc (DMap root) h) as [data h0]. simpl in Hh0, Hroot. subst h0.
  inversion Hroot as [| |l0 d0 ? F0' Hl0 Hnd0 Hi0]; subst.
  destruct (getitem_repr _ _ _ _ _ _ Hroot Hprotocols)
    as (d1 & F1 & vp & Fp & _ & _ & _ & _ & Hgetp & Hvp & _).
  inversion Hvp as [| |lp dp ? Fp' Hlp Hndp Hip]; subst.
  rewrite res_bind_Ok, Hgetp, res_bind_Ok.
  rewrite (lookup_obj_Some _ _ _ Hlp), res_bind_Ok. cbn zeta.
  assert (NoDup (keys protocols)) as Hndps
    by by rewrite (repr_items_keys _ _ _ _ Hip).
  destruct (available_run (h ++ hs) lp dp protocols Fp' Hlp Hndp Hip Hdesc
              (length dp) 0 ((h ++ hs) ++ [[]]))
    as (hf & -> & _ & _ & dout & Fout & Hout & Hkeys & Hrepr & _); [done| |].
  { split_and!.
    - rewrite (length_app (h ++ hs)). simpl. lia.
    - intros x Hx. by apply lookup_app_l.
    - exists [], []. split_and!.
      + by apply list_lookup_middle.
      + done.
      + constructor.
      + apply not_elem_of_nil. }
  rewrite res_bind_Ok.
  rewrite take_ge in Hkeys by done.
  rewrite take_ge in Hrepr by (rewrite (repr_items_length _ _ _ _ Hip); lia).
  destruct (available_spec protocols Hndps Hdesc) as [Hk Hg].
  exists (length (h ++ hs)), hf, (available protocols),
    (length (h ++ hs) :: Fout).
  split_and!; [done| |done|done].
  eapply repr_ref; [done| |done]. by rewrite Hkeys.
Qed.

(** * Failing lookups *)

Lemma magnetization_loop_app mp pf kinds1 kinds2 acc :
  magnetization_loop mp pf (kinds1 ++ kinds2) acc =
    acc' ← magnetization_loop mp pf kinds1 acc;
    magnetization_loop mp pf kinds2 acc'.
Proof.
  revert acc. induction kinds1 as [|kind kinds1 IH]; intros acc; [done|].
  simpl. destruct (magnetization_of mp pf (symbol kind)); simpl; auto.
Qed.

(** C8.  A protocol name that the [protocols] of the file do not have
    makes [get_protocol_inputs] fail with a key error (for [base], which is
    looked up first, if the file has none, otherwise for the name); an
    element symbol that the magnetization table does not have makes
    [get_initial_magnetization] fail with the key error of that symbol when
    the loop reaches it.  No result is returned in its place. *)
Theorem missing_key_raises :
  (∀ fuel file root protocols name protocol overrides h,
     file = DMap root →
     wf file →
     dict_get "protocols" root = Some (DMap protocols) →
     selects root protocol name →
     dict_get name protocols = None →
     get_protocol_inputs fuel file protocol overrides h =
       Raise (KeyError match dict_get "base" root with
                       | Some _ => name
                       | None => "base"
                       end)) ∧
  (∀ table pseudo_family kinds_done kind kinds_left done,
     dict_get (symbol kind) table = None →
     magnetization_loop (DMap table) pseudo_family kinds_done [] = Ok done →
     get_initial_magnetization (DMap table)
       (kinds_done ++ kind :: kinds_left) pseudo_family =
       Raise (KeyError (symbol kind))).
Proof.
  split.
  - intros fuel file root protocols name protocol overrides h
      -> Hwf Hprotocols Hname Habsent.
    destruct (alloc_repr (DMap root) h Hwf) as (F0 & hs & Hh0 & Hroot & _ & _).
    unfold get_protocol_inputs, load_protocol_file.
    destruct (alloc (DMap root) h) as [data h0]. simpl in Hh0, Hroot. subst h0.
    inversion Hroot as [| |l0 d0 ? F0' Hl0 Hnd0 Hi0]; subst.
    rewrite res_bind_Ok.
    assert (match protocol with
            | Some s =>
                if decide (s = "") then getitem (h ++ hs) (VRef l0) "default"
                else Ok (VScalar (SStr s))
            | None => getitem (h ++ hs) (VRef l0) "default"
            end = Ok (VScalar (SStr name))) as ->.
    { destruct Hname as [[-> Hne]|[-> Hdef]].
      - by rewrite decide_False.
      - destruct (getitem_repr _ _ _ _ _ _ Hroot Hdef)
          as (? & ? & vd & Fd & ? & ? & _ & _ & -> & Hvd & _).
        by inversion Hvd. }
    rewrite res_bind_Ok.
    destruct (dict_get "base" root) as [tb|] eqn:Hbase.
    + destruct (getitem_repr _ _ _ _ _ _ Hroot Hbase)
        as (? & ? & vb & Fb & _ & _ & _ & _ & -> & _).
      destruct (getitem_repr _ _ _ _ _ _ Hroot Hprotocols)
        as (? & ? & vp & Fp & _ & _ & _ & _ & -> & Hvp & _).
      rewrite !res_bind_Ok. cbn [getitem_val].
      inversion Hvp; subst.
      by rewrite (getitem_missing _ _ _ _ _ Hvp Habsent).
    + by rewrite (getitem_missing _ _ _ _ _ Hroot Hbase).
  - intros table pseudo_family kinds_done kind kinds_left done Habsent Hdone.
    unfold get_initial_magnetization.
    rewrite magnetization_loop_app, Hdone, res_bind_Ok. simpl.
    unfold magnetization_of. simpl. by rewrite Habsent.
Qed.

(** * get_initial_magnetization *)

Lemma magnetization_of_ok table pf kind :
  kind_ok table pf kind →
  ∃ v, magnetization_of (DMap table) pf (symbol kind) = Ok v.
Proof.
  intros (entry & magmom & He & Hm & Hcase).
  unfold magnetization_of. simpl. rewrite He. simpl. rewrite Hm. simpl.
  destruct (eq_zero magmom).
  - destruct Hcase as [d ->]. by eexists.
  - destruct Hcase as (z & x & y & -> & Hx & Hy & Hnz). simpl.
    rewrite Hy. simpl. unfold truediv. rewrite Hx. simpl. rewrite Hnz.
    by eexists.
Qed.

Lemma magnetization_of_assigned table pf kind v :
  magnetization_of (DMap table) pf (symbol kind) = Ok v →
  assigned table pf kind v.
Proof.
  unfold magnetization_of, assigned. simpl.
  destruct (dict_get (symbol kind) table) as [e|]; simplify_eq/=; [|done].
  destruct e as [| |entry]; simplify_eq/=; try done.
  destruct (dict_get "magmom" entry) as [magmom|] eqn:Hm; simplify_eq/=;
    [|done].
  intros Hv. exists entry, magmom. split_and!; [done..|].
  destruct (eq_zero magmom).
  - by destruct (dict_get "default" table); simplify_eq/=.
  - destruct (pf (symbol kind)) as [z| | |]; simplify_eq/=.
    destruct (float_of_Z z) as [y| | |] eqn:Hy; simplify_eq/=.
    unfold truediv in Hv.
    destruct (as_float magmom) as [x| | |] eqn:Hx; simplify_eq/=.
    destruct (SFeqb y float_zero); simplify_eq/=.
    by exists z, x, y.
Qed.

Lemma magnetization_loop_Ok mp pf kinds : ∀ acc result,
  magnetization_loop mp pf kinds acc = Ok result →
  (∀ k, k ∈ keys result ↔ k ∈ keys acc ∨ k ∈ name <$> kinds) ∧
  (∀ k, k ∉ name <$> kinds → dict_get k result = dict_get k acc) ∧
  (NoDup (name <$> kinds) →
   ∀ kind, kind ∈ kinds →
     ∃ v, magnetization_of mp pf (symbol kind) = Ok v ∧
          dict_get (name kind) result = Some v).
Proof.
  induction kinds as [|kind kinds IH]; intros acc result Hloop; simplify_eq/=.
  - split_and!; [|done|].
    + intros k. rewrite elem_of_nil. tauto.
    + by intros _ kind ?%elem_of_nil.
  - destruct (magnetization_of mp pf (symbol kind)) as [v| | |] eqn:Hv;
      simplify_eq/=.
    destruct (IH _ _ Hloop) as (Hkeys & Hother & Hin).
    split_and!.
    + intros k. rewrite Hkeys, elem_of_cons.
      rewrite <- !(dict_get_is_Some k), dict_get_set.
      case_decide; subst; [|tauto].
      split; [auto|]. intros _. left. by eexists.
    + intros k [Hne Hk]%not_elem_of_cons.
      rewrite Hother by done. rewrite dict_get_set. by rewrite decide_False.
    + intros [Hfresh Hnd]%NoDup_cons kind' [->|Hk]%elem_of_cons.
      * exists v. split; [done|]. rewrite Hother by done.
        by rewrite dict_get_set, decide_True.
      * by apply Hin.
Qed.

Lemma magnetization_loop_total mp pf kinds : ∀ acc,
  Forall (λ kind, ∃ v, magnetization_of mp pf (symbol kind) = Ok v) kinds →
  ∃ result, magnetization_loop mp pf kinds acc = Ok result.
Proof.
  induction kinds as [|kind kinds IH]; intros acc Hok; [by eexists|].
  apply Forall_cons in Hok as [[v Hv] Hok]. simpl. rewrite Hv. simpl. auto.
Qed.

(** C4.  For a structure whose kinds have distinct names and whose lookups
    succeed, [get_initial_magnetization] returns a mapping in which a kind
    whose element has a tabulated [magmom] equal to zero has the [default]
    of the table, whatever the pseudo potential family has for the element,
    and a kind whose [magmom] is not zero has that moment divided by the
    number of valence electrons of the pseudo potential of the element. *)
Theorem get_initial_magnetization_values table kinds pseudo_family :
  NoDup (name <$> kinds) →
  Forall (kind_ok table pseudo_family) kinds →
  ∃ result,
    get_initial_magnetization (DMap table) kinds pseudo_family = Ok result ∧
    ∀ kind, kind ∈ kinds →
      ∃ entry magmom,
        dict_get (symbol kind) table = Some (DMap entry) ∧
        dict_get "magmom" entry = Some magmom ∧
        if eq_zero magmom then
          ∃ d, dict_get "default" table = Some d ∧
               dict_get (name kind) result = Some d
        else
          ∃ z x y,
            pseudo_family (symbol kind) = Ok z ∧
            as_float magmom = Ok x ∧
            float_of_Z z = Ok y ∧
            dict_get (name kind) result =
              Some (DScalar (SFloat (SFdiv prec emax x y))).
Proof.
  intros Hnd Hok.
  destruct (magnetization_loop_total (DMap table) pseudo_family kinds [])
    as [result Hres].
  { eapply Forall_impl; [done|]. apply magnetization_of_ok. }
  exists result. split; [done|].
  destruct (magnetization_loop_Ok _ _ _ _ _ Hres) as (_ & _ & Hin).
  intros kind Hkind. destruct (Hin Hnd kind Hkind) as (v & Hv & Hget).
  destruct (magnetization_of_assigned _ _ _ _ Hv)
    as (entry & magmom & He & Hm & Hcase).
  exists entry, magmom. split_and!; [done..|].
  destruct (eq_zero magmom).
  - by exists v.
  - destruct Hcase as (z & x & y & ? & ? & ? & ->). by exists z, x, y.
Qed.

(** C10.  When [get_initial_magnetization] succeeds, the keys of the
    result are the names of the kinds of the structure.  The value of a kind
    is what the lookups by its element symbol give ([assigned]: the entry of
    the table under the symbol, and the pseudo potential of the symbol), so
    that two kinds (of a structure whose kinds have distinct names) with the
    same symbol have equal values, each under its own name. *)
Theorem get_initial_magnetization_keys table kinds pseudo_family result :
  get_initial_magnetization (DMap table) kinds pseudo_family = Ok result →
  (∀ k, k ∈ keys result ↔ k ∈ name <$> kinds) ∧
  (NoDup (name <$> kinds) →
   ∀ kind1 kind2,
     kind1 ∈ kinds → kind2 ∈ kinds → symbol kind1 = symbol kind2 →
     ∃ v,
       assigned table pseudo_family kind1 v ∧
       assigned table pseudo_family kind2 v ∧
       magnetization_of (DMap table) pseudo_family (symbol kind1) = Ok v ∧
       dict_get (name kind1) result = Some v ∧
       dict_get (name kind2) result = Some v).
Proof.
  intros Hres.
  destruct (magnetization_loop_Ok _ _ _ _ _ Hres) as (Hkeys & _ & Hin).
  split.
  - intros k. rewrite Hkeys, elem_of_nil. tauto.
  - intros Hnd kind1 kind2 H1 H2 Hsym.
    destruct (Hin Hnd kind1 H1) as (v1 & Hv1 & Hg1).
    destruct (Hin Hnd kind2 H2) as (v2 & Hv2 & Hg2).
    pose proof (magnetization_of_assigned _ _ _ _ Hv1) as Ha1.
    pose proof (magnetization_of_assigned _ _ _ _ Hv2) as Ha2.
    rewrite <- Hsym, Hv1 in Hv2. injection Hv2 as <-. by exists v1.
Qed.

(** * The theorems at work on a protocol file and a magnetization table *)

Lemma get_protocol_inputs_no_overrides_witness :
  ∃ m h' F merged,
    get_protocol_inputs 2 example_file (Some "fast") None [] = Ok (m, h') ∧
    merged = merge_spec example_base example_fast ∧
    returns_merge example_base example_fast merged ∧
    repr h' (VRef m) (DMap (dict_remove "description" merged)) F ∧
    ∀ k, dict_get k (dict_remove "description" merged) =
           if decide (k = "description") then None else dict_get k merged.
Proof.
  apply (get_protocol_inputs_no_overrides 2 example_file example_root
           example_base example_protocols example_fast "fast" (Some "fast")
           []).
  - reflexivity.
  - by vm_compute.
  - reflexivity.
  - reflexivity.
  - reflexivity.
  - compute_done.
  - left. by split.
  - simpl. lia.
Defined.

Lemma get_protocol_inputs_overrides_witness :
  ∃ m h' F result,
    get_protocol_inputs 2 example_file None (Some 1) example_overrides_store
      = Ok (m, h') ∧
    repr h' (VRef m) (DMap result) F ∧
    lookup_path ["pw"; "ecut"] (DMap result) = Some (DScalar (SInt 99)).
Proof.
  destruct (get_protocol_inputs_overrides 2 example_file example_root
              example_base example_protocols
              [("description", DScalar (SStr "balanced"))] "moderate" None
              example_overrides_store 1 example_overrides [1; 0])
    as (m & h' & F & result & Hcall & Hm & _ & Hleaf & _).
  - reflexivity.
  - by vm_compute.
  - reflexivity.
  - reflexivity.
  - reflexivity.
  - compute_done.
  - right. by split.
  - by apply (deep_sound 2).
  - compute_done.
  - done.
  - simpl. lia.
  - simpl. lia.
  - exists m, h', F, result. split_and!; [done..|]. by apply Hleaf.
Defined.

Lemma get_available_protocols_spec_witness :
  ∃ out h' result F,
    get_available_protocols example_file [] = Ok (out, h') ∧
    repr h' (VRef out) (DMap result) F ∧
    keys result = ["moderate"; "fast"] ∧
    dict_get "fast" result =
      Some (DMap [("description", DScalar (SStr "quick"))]).
Proof.
  destruct (get_available_protocols_spec example_file example_root
              example_protocols [])
    as (out & h' & result & F & Hcall & Hout & Hkeys & Hget).
  - reflexivity.
  - by vm_compute.
  - reflexivity.
  - intros name t. simpl. repeat case_decide; intros ?; simplify_eq; by eexists.
  - exists out, h', result, F. split_and!; [done..|].
    by apply (Hget "fast" (DMap example_fast)).
Defined.

Lemma get_initial_magnetization_values_witness :
  ∃ result,
    get_initial_magnetization (DMap example_table) example_kinds
      example_family = Ok result ∧
    dict_get "O" result = dict_get "default" example_table ∧
    dict_get "Fe2" result =
      Some (DScalar (SFloat (S754_finite false 5629499534213120 (-53)))).
Proof.
  destruct (get_initial_magnetization_values example_table example_kinds
              example_family) as (result & Hcall & Hval).
  - compute_done.
  - repeat constructor.
    + eexists _, _. split; [reflexivity|]. split; [reflexivity|]. simpl.
      eexists _, _, _. split_and!; reflexivity.
    + eexists _, _. split; [reflexivity|]. split; [reflexivity|]. simpl.
      by eexists.
    + eexists _, _. split; [reflexivity|]. split; [reflexivity|]. simpl.
      eexists _, _, _. split_and!; reflexivity.
  - exists result. split; [done|]. split.
    + destruct (Hval {| symbol := "O"; name := "O" |})
        as (entry & magmom & He & Hm & Hcase);
        [by apply (list_elem_of_lookup_2 _ 1)|].
      simpl in He. simplify_eq. simpl in Hm. simplify_eq. simpl in Hcase.
      destruct Hcase as (d & Hd & ->). by rewrite <- Hd.
    + destruct (Hval {| symbol := "Fe"; name := "Fe2" |})
        as (entry & magmom & He & Hm & Hcase);
        [by apply (list_elem_of_lookup_2 _ 2)|].
      simpl in He. simplify_eq. simpl in Hm. simplify_eq. simpl in Hcase.
      destruct Hcase as (z & x & y & Hz & Hx & Hy & ->).
      unfold example_family in Hz. simpl in Hz. simplify_eq.
      vm_compute in Hx. vm_compute in Hy. by simplify_eq.
Defined.

Lemma get_initial_magnetization_keys_witness :
  (∀ k, k ∈ keys example_magnetization ↔ k ∈ name <$> example_kinds) ∧
  (NoDup (name <$> example_kinds) →
   ∀ kind1 kind2,
     kind1 ∈ example_kinds → kind2 ∈ example_kinds →
     symbol kind1 = symbol kind2 →
     ∃ v,
       assigned example_table example_family kind1 v ∧
       assigned example_table example_family kind2 v ∧
       magnetization_of (DMap example_table) example_family (symbol kind1)
         = Ok v ∧
       dict_get (name kind1) example_magnetization = Some v ∧
       dict_get (name kind2) example_magnetization = Some v).
Proof.
  apply (get_initial_magnetization_keys example_table example_kinds
           example_family example_magnetization).
  by vm_compute.
Defined.

Lemma missing_key_raises_witness :
  get_protocol_inputs 2 example_file (Some "accurate") None [] =
    Raise (KeyError "accurate") ∧
  get_initial_magnetization (DMap example_table)
    ([ {| symbol := "Fe"; name := "Fe1" |} ] ++
     {| symbol := "H"; name := "H" |} :: [ {| symbol := "O"; name := "O" |} ])
    example_family = Raise (KeyError "H").
Proof.
  split.
  - apply (proj1 missing_key_raises 2 example_file example_root
             example_protocols "accurate" (Some "accurate") None []).
    + reflexivity.
    + by vm_compute.
    + reflexivity.
    + left. by split.
    + reflexivity.
  - eapply (proj2 missing_key_raises example_table example_family
              [ {| symbol := "Fe"; name := "Fe1" |} ]
              {| symbol := "H"; name := "H" |}
              [ {| symbol := "O"; name := "O" |} ]).
    + reflexivity.
    + by vm_compute.
Defined.

(** * What a call of recursive_merge keeps and shares *)

Lemma keeps_keys_refl h : keeps_keys h h.
Proof. intros x d Hx. by exists d. Qed.

Lemma keeps_keys_trans h1 h2 h3 :
  keeps_keys h1 h2 → keeps_keys h2 h3 → keeps_keys h1 h3.
Proof.
  intros H12 H23 x d Hx.
  destruct (H12 x d Hx) as (d2 & Hx2 & Hk2).
  destruct (H23 x d2 Hx2) as (d3 & Hx3 & Hk3).
  exists d3. split; [done|congruence].
Qed.

Lemma keeps_keys_length h h' : keeps_keys h h' → length h ≤ length h'.
Proof.
  intros Hk. destruct (decide (length h ≤ length h')) as [|Hlt]; [done|].
  destruct (lookup_lt_is_Some_2 h (length h')) as [d Hd]; [lia|].
  destruct (Hk _ _ Hd) as (d' & Hd' & _).
  apply lookup_lt_Some in Hd'. lia.
Qed.

Lemma keeps_keys_assign (h : heap) (x : loc) d d' :
  h !! x = Some d → keys d' = keys d → keeps_keys h (<[x := d']> h).
Proof.
  intros Hx Hk y dy Hy. destruct (decide (y = x)) as [->|Hne].
  - exists d'. split; [|congruence].
    apply list_lookup_insert_eq. by eapply lookup_lt_Some.
  - exists dy. by rewrite list_lookup_insert_ne.
Qed.

Lemma keeps_keys_new (h : heap) d d' :
  keeps_keys h (<[length h := d']> (h ++ [d])).
Proof.
  intros y dy Hy. exists dy. split; [|done].
  apply lookup_lt_Some in Hy as Hlt.
  rewrite list_lookup_insert_ne by lia. by rewrite lookup_app_l.
Qed.

Lemma for_items_keeps body l :
  (∀ k v hc hc', body k v hc = Ok hc' → keeps_keys hc hc') →
  ∀ n i h h', for_items body l i n h = Ok h' → keeps_keys h h'.
Proof.
  intros Hbody. induction n as [|n IH]; intros i h h' Hrun; simplify_eq/=.
  { apply keeps_keys_refl. }
  destruct (lookup_obj h l) as [dl| | |]; simplify_eq/=.
  destruct (dl !! i) as [[key value]|]; simplify_eq/=.
  destruct (body key value h) as [hc| | |] eqn:Hb; simplify_eq/=.
  eapply keeps_keys_trans; [by eapply Hbody|by eapply IH].
Qed.

Lemma merge_body_keeps self r :
  (∀ a b hc m hc', self a b hc = Ok (m, hc') → keeps_keys hc hc') →
  ∀ k v hc hc', merge_body self r k v hc = Ok hc' → keeps_keys hc hc'.
Proof.
  intros Hself k v hc hc' Hb. unfold merge_body, lookup_obj in Hb.
  destruct (hc !! r) as [dr|] eqn:Hr; simplify_eq/=.
  destruct (dict_get k dr) as [rv|] eqn:Hg; simplify_eq/=;
    [|apply keeps_keys_refl].
  destruct v as [| |a]; simplify_eq/=; try apply keeps_keys_refl.
  destruct rv as [| |b]; simplify_eq/=; try apply keeps_keys_refl.
  destruct (self a b hc) as [[m h1]| | |] eqn:Hs; simplify_eq/=.
  apply Hself in Hs. destruct (Hs _ _ Hr) as (dr1 & Hr1 & Hk1).
  rewrite Hr1 in Hb. simplify_eq/=.
  eapply keeps_keys_trans; [done|].
  eapply keeps_keys_assign; [done|].
  apply keys_dict_set_in. rewrite Hk1. apply dict_get_is_Some. by eexists.
Qed.

(** The last step of a call: the new dictionary is the one that the loop
    leaves at [left], updated with the one that it leaves at [right]. *)
Lemma recursive_merge_keeps fuel : ∀ l r h m h',
  recursive_merge fuel l r h = Ok (m, h') →
  keeps_keys h h' ∧ length h ≤ m ∧ m < length h' ∧
  ∃ dl1, h' !! l = Some dl1 ∧
    ∀ dr, h !! r = Some dr →
      ∃ dr1, h' !! r = Some dr1 ∧ h' !! m = Some (dict_update dl1 dr1).
Proof.
  induction fuel as [|fuel IH]; intros l r h m h' Hcall; [done|].
  cbn [recursive_merge] in Hcall. unfold lookup_obj in Hcall.
  destruct (h !! l) as [dl|] eqn:Hl; simplify_eq/=.
  destruct (for_items _ l 0 (length dl) h) as [h1| | |] eqn:Hloop;
    simplify_eq/=.
  assert (keeps_keys h h1) as Hk1.
  { eapply for_items_keeps; [|done]. apply merge_body_keeps.
    intros a b hc m0 hc0 Hs. by apply IH in Hs as [? _]. }
  destruct (Hk1 _ _ Hl) as (dl1 & Hl1 & _). rewrite Hl1 in Hcall.
  simplify_eq/=.
  destruct ((h1 ++ [dl1]) !! r) as [dr1|] eqn:Hr1; simplify_eq/=.
  apply keeps_keys_length in Hk1 as Hlen.
  apply lookup_lt_Some in Hl1 as Hll.
  split_and!.
  - eapply keeps_keys_trans; [done|]. apply keeps_keys_new.
  - done.
  - rewrite length_insert, length_app. simpl. lia.
  - exists dl1. split.
    + rewrite list_lookup_insert_ne by lia. by rewrite lookup_app_l.
    + intros dr Hr. destruct (Hk1 _ _ Hr) as (dr1' & Hr1' & _).
      apply lookup_lt_Some in Hr1' as Hrl.
      rewrite lookup_app_l in Hr1 by done. simplify_eq.
      exists dr1. split.
      * rewrite list_lookup_insert_ne by lia. by rewrite lookup_app_l.
      * apply list_lookup_insert_eq. rewrite length_app. simpl. lia.
Qed.

Lemma for_items_flat self l r (h : heap) dl dr :
  h !! l = Some dl → h !! r = Some dr →
  (∀ k a b, (k, VRef a) ∈ dl → dict_get k dr = Some (VRef b) → False) →
  ∀ n i, i + n ≤ length dl → for_items (merge_body self r) l i n h = Ok h.
Proof.
  intros Hl Hr Hflat. induction n as [|n IH]; intros i Hi; [done|].
  cbn [for_items]. rewrite (lookup_obj_Some _ _ _ Hl), res_bind_Ok.
  destruct (lookup_lt_is_Some_2 dl i) as [[key value] Hkv]; [lia|].
  rewrite Hkv.
  assert (merge_body self r key value h = Ok h) as ->.
  { unfold merge_body. rewrite (lookup_obj_Some _ _ _ Hr), res_bind_Ok.
    destruct (dict_get key dr) as [rv|] eqn:Hg; [|done].
    destruct value as [| |a]; [done..|]. destruct rv as [| |b]; [done..|].
    destruct (Hflat key a b); [|done]. by eapply list_elem_of_lookup_2. }
  rewrite res_bind_Ok. apply IH. lia.
Qed.

(** A call whose loop leaves the store as it is adds the copy of [left],
    updated with [right], and nothing else. *)
Lemma recursive_merge_after_loop fuel l r (h : heap) dl dr :
  h !! l = Some dl → h !! r = Some dr →
  for_items (merge_body (recursive_merge fuel) r) l 0 (length dl) h = Ok h →
  recursive_merge (S fuel) l r h = Ok (length h, h ++ [dict_update dl dr]).
Proof.
  intros Hl Hr Hloop. cbn [recursive_merge].
  rewrite (lookup_obj_Some _ _ _ Hl), res_bind_Ok, Hloop.
  rewrite res_bind_Ok, (lookup_obj_Some _ _ _ Hl), res_bind_Ok. cbn zeta.
  rewrite (lookup_obj_Some (h ++ [dl]) r dr), res_bind_Ok.
  2:{ rewrite lookup_app_l; [done|]. by eapply lookup_lt_Some. }
  rewrite insert_app_r_alt by done. by rewrite Nat.sub_diag.
Qed.

Lemma dict_update_empty_l {A} (d : dict A) :
  NoDup (keys d) → dict_update [] d = d.
Proof.
  intros Hnd. rewrite dict_update_spec; [|constructor|done]. simpl.
  apply filter_all. intros kv _. apply not_elem_of_nil.
Qed.

(** X1.  Whatever the two arguments share, a call of [recursive_merge]
    that returns has dropped no dictionary of the store and has added,
    removed or moved no key of a dictionary that was there before the call:
    the loop only assigns under keys that a right dictionary already has.
    The dictionary that it returns is a new object. *)
Theorem recursive_merge_keys_kept fuel l r h m h' :
  recursive_merge fuel l r h = Ok (m, h') →
  h !! m = None ∧ is_Some (h' !! m) ∧
  ∀ (x : loc) d, h !! x = Some d → ∃ d', h' !! x = Some d' ∧ keys d' = keys d.
Proof.
  intros Hcall.
  destruct (recursive_merge_keeps _ _ _ _ _ _ Hcall) as (Hk & Hm & Hm' & _).
  split_and!; [|by apply lookup_lt_is_Some_2|done].
  apply lookup_ge_None. lia.
Qed.

Lemma recursive_merge_keys_kept_witness :
  ∃ m h',
    recursive_merge 2 1 3 example_store = Ok (m, h') ∧
    example_store !! m = None ∧ is_Some (h' !! m) ∧
    ∀ (x : loc) d, example_store !! x = Some d →
      ∃ d', h' !! x = Some d' ∧ keys d' = keys d.
Proof.
  eexists _, _. split; [reflexivity|].
  apply (recursive_merge_keys_kept 2 1 3 example_store). reflexivity.
Defined.

(** X2.  The copy is shallow.  Under every key of [right] the returned
    dictionary holds the very value that [right] holds when the call returns
    (for a nested dictionary the same object, not a copy), and under every
    other key the very value that [left] holds. *)
Theorem recursive_merge_shallow fuel l r h m h' dr :
  h !! r = Some dr →
  NoDup (keys dr) →
  recursive_merge fuel l r h = Ok (m, h') →
  ∃ dl' dr' dm,
    h' !! l = Some dl' ∧ h' !! r = Some dr' ∧ h' !! m = Some dm ∧
    ∀ k, dict_get k dm =
           match dict_get k dr' with
           | Some v => Some v
           | None => dict_get k dl'
           end.
Proof.
  intros Hr Hnd Hcall.
  destruct (recursive_merge_keeps _ _ _ _ _ _ Hcall)
    as (Hk & _ & _ & dl' & Hl' & Hfin).
  destruct (Hfin dr Hr) as (dr' & Hr' & Hm).
  destruct (Hk _ _ Hr) as (dr'' & Hr'' & Hkeys). simplify_eq.
  exists dl', dr', (dict_update dl' dr'). split_and!; [done..|].
  intros k. apply dict_get_update. by rewrite Hkeys.
Qed.

Lemma recursive_merge_shallow_witness :
  ∃ m h' dl' dr' dm,
    recursive_merge 2 1 3 example_store = Ok (m, h') ∧
    h' !! 1 = Some dl' ∧ h' !! 3 = Some dr' ∧ h' !! m = Some dm ∧
    ∀ k, dict_get k dm =
           match dict_get k dr' with
           | Some v => Some v
           | None => dict_get k dl'
           end.
Proof.
  eexists _, _.
  edestruct (recursive_merge_shallow 2 1 3 example_store)
    as (dl' & dr' & dm & H); [reflexivity|compute_done|reflexivity|].
  exists dl', dr', dm. split; [reflexivity|exact H].
Defined.

(** X3.  The keys of the returned dictionary are the keys of [left], in
    the order of [left], followed by the keys that only [right] has, in the
    order of [right]. *)
Theorem recursive_merge_key_order fuel l r h m h' dl dr :
  h !! l = Some dl →
  h !! r = Some dr →
  NoDup (keys dl) →
  NoDup (keys dr) →
  recursive_merge fuel l r h = Ok (m, h') →
  ∃ dm, h' !! m = Some dm ∧
        keys dm = keys dl ++ filter (λ k, k ∉ keys dl) (keys dr).
Proof.
  intros Hl Hr Hndl Hndr Hcall.
  destruct (recursive_merge_keeps _ _ _ _ _ _ Hcall)
    as (Hk & _ & _ & dl' & Hl' & Hfin).
  destruct (Hfin dr Hr) as (dr' & Hr' & Hm).
  destruct (Hk _ _ Hl) as (? & ? & Hkl). destruct (Hk _ _ Hr) as (? & ? & Hkr).
  simplify_eq. exists (dict_update dl' dr'). split; [done|].
  rewrite keys_dict_update by congruence. by rewrite Hkl, Hkr.
Qed.

Lemma recursive_merge_key_order_witness :
  ∃ m h' dm,
    recursive_merge 2 1 3 example_store = Ok (m, h') ∧
    h' !! m = Some dm ∧ keys dm = ["a"; "c"; "b"].
Proof.
  eexists _, _.
  edestruct (recursive_merge_key_order 2 1 3 example_store) as (dm & Hm & Hk);
    [reflexivity|reflexivity|compute_done|compute_done|reflexivity|].
  exists dm. split; [reflexivity|]. split; [exact Hm|].
  rewrite Hk. by vm_compute.
Defined.

(** X4.  If no key holds a dictionary in both [left] and [right], the
    call changes no dictionary of the store: it adds one dictionary, the
    entries of [left] updated with those of [right], and returns it.  One
    level of recursion is enough, however deep the arguments are nested. *)
Theorem recursive_merge_no_common_mapping fuel l r h dl dr :
  h !! l = Some dl →
  h !! r = Some dr →
  (∀ k a b, (k, VRef a) ∈ dl → dict_get k dr = Some (VRef b) → False) →
  recursive_merge (S fuel) l r h = Ok (length h, h ++ [dict_update dl dr]).
Proof.
  intros Hl Hr Hflat. apply recursive_merge_after_loop; [done..|].
  apply (for_items_flat _ l r h dl dr); [done..|lia].
Qed.

Lemma recursive_merge_no_common_mapping_witness :
  recursive_merge 1 3 0 example_store =
    Ok (4, example_store ++
           [[("a", VRef 2); ("b", VScalar SNone); ("c", VSeq []);
             ("x", VScalar (SInt 1))]]).
Proof.
  apply (recursive_merge_no_common_mapping 0 3 0 example_store
           [("a", VRef 2); ("b", VScalar SNone); ("c", VSeq [])]
           [("x", VScalar (SInt 1))]).
  - reflexivity.
  - reflexivity.
  - intros k a b _ Hg. simpl in Hg. by case_decide.
Defined.

(** X5.  Merging with an empty dictionary copies the other argument:
    [recursive_merge(left, {})] returns a new dictionary with the entries of
    [left], and [recursive_merge({}, right)] a new dictionary with the
    entries of [right]; nothing else changes in the store. *)
Theorem recursive_merge_empty fuel l r h dl dr :
  h !! l = Some dl →
  h !! r = Some dr →
  (dr = [] → recursive_merge (S fuel) l r h = Ok (length h, h ++ [dl])) ∧
  (dl = [] → NoDup (keys dr) →
   recursive_merge (S fuel) l r h = Ok (length h, h ++ [dr])).
Proof.
  intros Hl Hr. split.
  - intros ->. rewrite (recursive_merge_after_loop fuel l r h dl []); [done..|].
    apply (for_items_flat _ l r h dl []); [done..| |lia]. by intros k a b _ ?.
  - intros -> Hnd. rewrite (recursive_merge_after_loop fuel l r h [] dr) by done.
    by rewrite dict_update_empty_l.
Qed.

Lemma recursive_merge_empty_witness :
  recursive_merge 1 4 2 example_shared_store =
    Ok (8, example_shared_store ++ [[("a", VRef 1); ("b", VRef 3)]]) ∧
  recursive_merge 1 2 4 example_shared_store =
    Ok (8, example_shared_store ++ [[("a", VRef 1); ("b", VRef 3)]]).
Proof.
  split.
  - apply (proj1 (recursive_merge_empty 0 4 2 example_shared_store
                    [("a", VRef 1); ("b", VRef 3)] [] eq_refl eq_refl)).
    reflexivity.
  - apply (proj2 (recursive_merge_empty 0 2 4 example_shared_store
                    [] [("a", VRef 1); ("b", VRef 3)] eq_refl eq_refl)).
    + reflexivity.
    + compute_done.
Defined.

(** * The two arguments after a call *)

(** X6.  On separate graphs ([right] without sharing) the left argument
    is not changed at any depth: every dictionary of its graph is the same
    after the call, and the returned dictionary is none of them. *)
Theorem recursive_merge_keeps_left fuel h l r tl tr Fl Fr :
  repr h (VRef l) (DMap tl) Fl →
  repr h (VRef r) (DMap tr) Fr →
  NoDup Fr →
  separate Fl Fr →
  depth (DMap tl) ≤ fuel →
  ∃ m h',
    recursive_merge fuel l r h = Ok (m, h') ∧
    (m ∉ Fl) ∧
    (∀ x : loc, x ∈ Fl → h' !! x = h !! x) ∧
    repr h' (VRef l) (DMap tl) Fl.
Proof.
  intros Hl Hr Hnd Hsep Hd.
  destruct (recursive_merge_sep fuel h l r tl tr Fl Fr)
    as (m & h' & Fm & _ & -> & [_ Hf] & Hm & _); [done|lia|].
  pose proof (repr_bound _ _ _ _ Hl) as Hb. rewrite Forall_forall in Hb.
  assert (∀ x : loc, x ∈ Fl → h' !! x = h !! x) as Hsame.
  { intros x Hx. apply Hf; [by apply Hb|]. intros ?. by eapply Hsep. }
  exists m, h'. split_and!; [done| |done|by eapply repr_frame].
  intros Hin%Hb. lia.
Qed.

Lemma recursive_merge_keeps_left_witness :
  ∃ m h',
    recursive_merge 2 1 3 example_store = Ok (m, h') ∧
    (m ∉ [1; 0]) ∧
    (∀ x : loc, x ∈ [1; 0] → h' !! x = example_store !! x) ∧
    repr h' (VRef 1) (DMap example_left) [1; 0].
Proof.
  apply (recursive_merge_keeps_left 2 example_store 1 3
           example_left example_right [1; 0] [3; 2]).
  - by apply (deep_sound 2).
  - by apply (deep_sound 2).
  - compute_done.
  - apply separate_Forall. compute_done.
  - simpl. lia.
Defined.

(** X7.  What the call leaves in [right] (separate graphs, [right]
    without sharing): the keys of [right] are as before; under a key that
    holds a mapping on both sides, [right] now holds the merge of the two
    mappings; every other entry of [right] is as before. *)
Theorem recursive_merge_assigns_right fuel h l r tl tr Fl Fr :
  repr h (VRef l) (DMap tl) Fl →
  repr h (VRef r) (DMap tr) Fr →
  NoDup Fr →
  separate Fl Fr →
  depth (DMap tl) ≤ fuel →
  ∃ m h' tr' Fr',
    recursive_merge fuel l r h = Ok (m, h') ∧
    repr h' (VRef r) (DMap tr') Fr' ∧
    keys tr' = keys tr ∧
    (∀ k a b,
       dict_get k tl = Some (DMap a) → dict_get k tr = Some (DMap b) →
       dict_get k tr' = Some (DMap (merge_spec a b))) ∧
    (∀ k b,
       dict_get k tr = Some b →
       (∀ a, dict_get k tl = Some a → is_mapping a && is_mapping b = false) →
       dict_get k tr' = Some b).
Proof.
  intros Hl Hr Hnd Hsep Hd.
  destruct (recursive_merge_sep fuel h l r tl tr Fl Fr)
    as (m & h' & Fm & Fr' & -> & _ & _ & _ & _ & Hr' & _); [done|lia|].
  exists m, h', (right_after tl tr), Fr'. split_and!; [done..| | |].
  - unfold right_after. rewrite <- list_fmap_compose. by apply list_fmap_ext.
  - intros k a b Ha Hb. by rewrite dict_get_right_after, Ha, Hb.
  - intros k b Hb Hnot. rewrite dict_get_right_after, Hb. simpl. f_equal.
    destruct (dict_get k tl) as [a|]; [|done].
    specialize (Hnot a eq_refl). by destruct a, b.
Qed.

Lemma recursive_merge_assigns_right_witness :
  ∃ m h' tr' Fr',
    recursive_merge 2 1 3 example_store = Ok (m, h') ∧
    repr h' (VRef 3) (DMap tr') Fr' ∧
    keys tr' = ["a"; "b"; "c"] ∧
    dict_get "a" tr' =
      Some (DMap [("x", DScalar (SInt 1)); ("y", DScalar (SInt 2))]) ∧
    dict_get "c" tr' = Some (DSeq []).
Proof.
  destruct (recursive_merge_assigns_right 2 example_store 1 3
              example_left example_right [1; 0] [3; 2])
    as (m & h' & tr' & Fr' & Hcall & Hr' & Hkeys & Hboth & Hother).
  - by apply (deep_sound 2).
  - by apply (deep_sound 2).
  - compute_done.
  - apply separate_Forall. compute_done.
  - simpl. lia.
  - exists m, h', tr', Fr'. split_and!; [done..| |].
    + by apply (Hboth "a" [("x", DScalar (SInt 1))] [("y", DScalar (SInt 2))]).
    + apply (Hother "c"); [done|]. intros a Ha. by simplify_eq/=.
Defined.

(** * The path of a protocol file *)

Lemma string_app_cons c (s t : string) : String c s +:+ t = String c (s +:+ t).
Proof. reflexivity. Qed.

Lemma string_app_nil (t : string) : "" +:+ t = t.
Proof. reflexivity. Qed.

Lemma string_app_assoc (a b c : string) : (a +:+ b) +:+ c = a +:+ (b +:+ c).
Proof.
  induction a as [|x a IH]; [done|]. rewrite !string_app_cons. by f_equal.
Qed.

Lemma split_parts_app sep p s :
  contains sep p = false →
  split_parts sep (p +:+ String sep s) = (p, str_split sep s).
Proof.
  intros Hp. induction p as [|c p IH].
  - rewrite string_app_nil. unfold str_split. simpl.
    destruct (split_parts sep s). by rewrite decide_True.
  - simpl in Hp. apply orb_false_iff in Hp as [Hc Hp].
    apply bool_decide_eq_false in Hc. rewrite string_app_cons. simpl.
    rewrite (IH Hp). by rewrite decide_False.
Qed.

Lemma split_parts_plain sep p :
  contains sep p = false → split_parts sep p = (p, []).
Proof.
  intros Hp. induction p as [|c p IH]; [done|]. simpl in *.
  apply orb_false_iff in Hp as [Hc Hp].
  apply bool_decide_eq_false in Hc. rewrite (IH Hp).
  by rewrite decide_False.
Qed.

(** Splitting what was joined gives the parts back. *)
Lemma split_concat (sep : ascii) p ps :
  Forall (λ s, contains sep s = false) (p :: ps) →
  str_split sep (String.concat (String sep "") (p :: ps)) = p :: ps.
Proof.
  revert p. induction ps as [|q ps IH]; intros p Hall.
  - apply Forall_cons in Hall as [Hp _]. unfold str_split. simpl.
    by rewrite split_parts_plain.
  - apply Forall_cons in Hall as [Hp Hall].
    change (String.concat (String sep "") (p :: q :: ps))
      with (p +:+ String sep (String.concat (String sep "") (q :: ps))).
    unfold str_split at 1. rewrite split_parts_app by done. by rewrite IH.
Qed.

Lemma pop_snoc {A} (l : list A) x : pop (l ++ [x]) = Some (l, x).
Proof. induction l as [|y l IH]; [done|]. simpl. by rewrite IH. Qed.

Lemma endswith_sep_app a b : b ≠ "" → endswith_sep (a +:+ b) = endswith_sep b.
Proof.
  intros Hb. induction a as [|c a IH]; [done|]. rewrite string_app_cons.
  simpl. destruct (a +:+ b) eqn:Hab; [|done].
  destruct a, b; done.
Qed.

Lemma component_ends s : component s → endswith_sep s = false.
Proof.
  intros [_ Hs]. induction s as [|c s IH]; [done|]. simpl in *.
  apply orb_false_iff in Hs as [Hc Hs]. destruct s; [done|]. by apply IH.
Qed.

Lemma component_starts s : component s → startswith_sep s = false.
Proof.
  intros [_ Hs]. destruct s as [|c s]; [done|]. simpl in *.
  by apply orb_false_iff in Hs as [Hc Hs].
Qed.

Lemma path_join_components acc ps :
  acc ≠ "" → endswith_sep acc = false → Forall component ps →
  foldl path_join acc ps = String.concat "/" (acc :: ps).
Proof.
  revert acc. induction ps as [|p ps IH]; intros acc Hne Hend Hall; [done|].
  apply Forall_cons in Hall as [Hp Hall]. cbn [foldl].
  assert (path_join acc p = acc +:+ "/" +:+ p) as ->.
  { unfold path_join. rewrite component_starts by done. rewrite Hend.
    by rewrite bool_decide_eq_false_2. }
  rewrite IH; [| |rewrite !endswith_sep_app; [by apply component_ends|..]|done].
  - destruct ps as [|q ps]; simpl; [done|]. by rewrite !string_app_assoc.
  - by destruct acc.
  - apply Hp.
  - by destruct p.
Qed.

(** X8.  For an entry point name [p0.m1. ... .mk.last] with at least
    three parts (the parts between the first and the last not empty and
    without a slash), [load_protocol_file] opens the file [last.yaml] in the
    directory [m1/.../mk]: the first part of the name is dropped. *)
Theorem protocol_file_path_parts p0 m ms last :
  Forall (λ s, contains "." s = false) (p0 :: m :: ms ++ [last]) →
  Forall component (m :: ms) →
  protocol_file_path (String.concat "." (p0 :: m :: ms ++ [last])) =
    inr (String.concat "/" (m :: ms), last +:+ ".yaml").
Proof.
  intros Hdots Hcomp. unfold protocol_file_path.
  rewrite split_concat by done.
  rewrite (app_comm_cons ms [last] m), pop_snoc.
  apply Forall_cons in Hcomp as [Hm Hms].
  rewrite path_join_components; [done|apply Hm| |done].
  by apply component_ends.
Qed.

Lemma protocol_file_path_parts_witness :
  protocol_file_path "quantumespresso.pw.base" = inr ("pw", "base.yaml") ∧
  protocol_file_path "aiida.workflows.pw.relax" =
    inr ("workflows/pw", "relax.yaml").
Proof.
  split.
  - apply (protocol_file_path_parts "quantumespresso" "pw" [] "base").
    + repeat constructor.
    + repeat constructor; done.
  - apply (protocol_file_path_parts "aiida" "workflows" ["pw"] "relax").
    + repeat constructor.
    + repeat constructor; done.
Defined.

(** X9.  An entry point name with fewer than three parts makes
    [load_protocol_file] fail before it opens a file: with one part the
    second [pop] raises [IndexError], with two parts [functools.reduce]
    raises [TypeError] on the empty list. *)
Theorem protocol_file_path_short p0 last :
  contains "." p0 = false →
  contains "." last = false →
  protocol_file_path p0 = inl IndexError ∧
  protocol_file_path (p0 +:+ "." +:+ last) = inl (Builtin TypeError).
Proof.
  intros Hp Hl. unfold protocol_file_path. split.
  - unfold str_split. by rewrite split_parts_plain.
  - change (p0 +:+ "." +:+ last) with (String.concat "." [p0; last]).
    rewrite split_concat; [done|]. by repeat constructor.
Qed.

Lemma protocol_file_path_short_witness :
  protocol_file_path "quantumespresso" = inl IndexError ∧
  protocol_file_path "quantumespresso.pw" = inl (Builtin TypeError).
Proof.
  apply (protocol_file_path_short "quantumespresso" "pw"); reflexivity.
Defined.

(** * The default protocol and the calls of get_protocol_inputs *)

(** X14.  Without overrides [get_protocol_inputs] builds its result from
    new dictionaries and changes no dictionary of the caller: two calls
    return graphs that have no dictionary in common, and the second call
    leaves the result of the first as it is. *)
Theorem get_protocol_inputs_independent
    fuel file root base protocols entry name protocol h :
  file = DMap root →
  wf file →
  dict_get "base" root = Some (DMap base) →
  dict_get "protocols" root = Some (DMap protocols) →
  dict_get name protocols = Some (DMap entry) →
  "description" ∈ keys entry →
  selects root protocol name →
  depth (DMap base) ≤ fuel →
  ∃ m1 h1 F1 m2 h2 F2,
    get_protocol_inputs fuel file protocol None h = Ok (m1, h1) ∧
    get_protocol_inputs fuel file protocol None h1 = Ok (m2, h2) ∧
    repr h2 (VRef m1) (DMap (protocol_inputs base entry)) F1 ∧
    repr h2 (VRef m2) (DMap (protocol_inputs base entry)) F2 ∧
    separate F1 F2 ∧
    (∀ x, x ∈ F1 ++ F2 → length h ≤ x) ∧
    (∀ x : loc, x < length h → h2 !! x = h !! x).
Proof.
  intros Hfile Hwf Hbase Hprotocols Hentry Hdescr Hname Hfuel.
  destruct (protocol_inputs_prefix fuel file root base protocols entry name
              protocol h) as (m1 & h1 & F1 & Hcall1 & Hm1 & HF1 & Hlen1 & Hsame1);
    [done..|].
  destruct (protocol_inputs_prefix fuel file root base protocols entry name
              protocol h1) as (m2 & h2 & F2 & Hcall2 & Hm2 & HF2 & Hlen2 & Hsame2);
    [done..|].
  pose proof (repr_bound _ _ _ _ Hm1) as Hb1. rewrite Forall_forall in Hb1.
  exists m1, h1, F1, m2, h2, F2. split_and!.
  - apply (Hcall1 None).
  - apply (Hcall2 None).
  - eapply repr_frame; [done|]. intros x Hx. apply Hsame2. by apply Hb1.
  - done.
  - intros x Hx1%Hb1 Hx2%HF2. lia.
  - intros x [Hx%HF1|Hx%HF2]%elem_of_app; lia.
  - intros x Hx. rewrite Hsame2 by lia. by apply Hsame1.
Qed.

(** X15.  An empty dictionary of overrides counts as no overrides: the
    call returns what it returns without overrides, and the empty
    dictionary is still empty afterwards. *)
Theorem get_protocol_inputs_empty_overrides
    fuel file root base protocols entry name protocol h o :
  file = DMap root →
  wf file →
  dict_get "base" root = Some (DMap base) →
  dict_get "protocols" root = Some (DMap protocols) →
  dict_get name protocols = Some (DMap entry) →
  "description" ∈ keys entry →
  selects root protocol name →
  depth (DMap base) ≤ fuel →
  h !! o = Some [] →
  ∃ m h',
    get_protocol_inputs fuel file protocol (Some o) h = Ok (m, h') ∧
    get_protocol_inputs fuel file protocol None h = Ok (m, h') ∧
    h' !! o = Some [].
Proof.
  intros Hfile Hwf Hbase Hprotocols Hentry Hdescr Hname Hfuel Ho.
  destruct (protocol_inputs_prefix fuel file root base protocols entry name
              protocol h) as (m & h2 & Fi & Hcall & _ & _ & _ & Hsame);
    [done..|].
  assert (h2 !! o = Some []) as Ho2.
  { rewrite Hsame; [done|]. by eapply lookup_lt_Some. }
  exists m, h2. split_and!; [|apply (Hcall None)|done].
  rewrite (Hcall (Some o)). by rewrite (lookup_obj_Some _ _ _ Ho2).
Qed.

(** X16.  [get_protocol_inputs] changes the overrides of its caller.  For
    overrides that hold no dictionary twice: after the call, under every key
    that holds a mapping both in the inputs of the protocol and in the
    overrides, the overrides hold the merge of the two mappings; their other
    entries, and every dictionary of the caller outside the graph of the
    overrides, are as before. *)
Theorem get_protocol_inputs_assigns_overrides
    fuel file root base protocols entry name protocol h o overrides Fo :
  file = DMap root →
  wf file →
  dict_get "base" root = Some (DMap base) →
  dict_get "protocols" root = Some (DMap protocols) →
  dict_get name protocols = Some (DMap entry) →
  "description" ∈ keys entry →
  selects root protocol name →
  repr h (VRef o) (DMap overrides) Fo →
  NoDup Fo →
  overrides ≠ [] →
  depth (DMap base) ≤ fuel →
  depth (DMap overrides) ≤ fuel →
  ∃ m h' after Fo',
    get_protocol_inputs fuel file protocol (Some o) h = Ok (m, h') ∧
    repr h' (VRef o) (DMap after) Fo' ∧
    keys after = keys overrides ∧
    (∀ k a b,
       dict_get k (protocol_inputs base entry) = Some (DMap a) →
       dict_get k overrides = Some (DMap b) →
       dict_get k after = Some (DMap (merge_spec a b))) ∧
    (∀ k b,
       dict_get k overrides = Some b →
       (∀ a, dict_get k (protocol_inputs base entry) = Some a →
             is_mapping a && is_mapping b = false) →
       dict_get k after = Some b) ∧
    (∀ x : loc, x < length h → x ∉ Fo → h' !! x = h !! x).
Proof.
  intros Hfile Hwf Hbase Hprotocols Hentry Hdescr Hname Ho HndFo Hne Hfuel Hfo.
  destruct (protocol_inputs_prefix fuel file root base protocols entry name
              protocol h) as (m & h2 & Fi & Hcall & Hm & HFi & Hlen & Hsame);
    [done..|].
  pose proof (repr_bound _ _ _ _ Ho) as Hb. rewrite Forall_forall in Hb.
  assert (repr h2 (VRef o) (DMap overrides) Fo) as Ho2.
  { eapply repr_frame; [done|]. intros x Hx. apply Hsame. auto. }
  destruct (recursive_merge_sep fuel h2 m o (protocol_inputs base entry)
              overrides Fi Fo)
    as (m' & h' & Fm & Fo' & Hmerge & [_ Hf] & _ & _ & _ & Ho' & _).
  { split_and!; [done..|]. intros x Hx1 Hx2. apply HFi in Hx1.
    apply Hb in Hx2. lia. }
  { lia. }
  exists m', h', (right_after (protocol_inputs base entry) overrides), Fo'.
  split_and!; [|done| | | |].
  - rewrite Hcall. inversion Ho2 as [| |? do ? ? Hlo _ Hio]; subst.
    rewrite (lookup_obj_Some _ _ _ Hlo), res_bind_Ok.
    destruct do as [|kv do]; [|done].
    inversion Hio; by subst.
  - unfold right_after. rewrite <- list_fmap_compose. by apply list_fmap_ext.
  - intros k a b Ha Hb'. by rewrite dict_get_right_after, Ha, Hb'.
  - intros k b Hb' Hnot. rewrite dict_get_right_after, Hb'. simpl. f_equal.
    destruct (dict_get k (protocol_inputs base entry)) as [a|]; [|done].
    specialize (Hnot a eq_refl). by destruct a, b.
  - intros x Hx Hout. rewrite Hf by (done || lia). by apply Hsame.
Qed.

(** X17.  The result of a call with overrides shares with them: under
    every key of the overrides the returned dictionary holds the very value
    that the overrides hold after the call, so for a nested dictionary the
    same object. *)
Theorem get_protocol_inputs_shares_overrides
    fuel file root base protocols entry name protocol h o overrides Fo :
  file = DMap root →
  wf file →
  dict_get "base" root = Some (DMap base) →
  dict_get "protocols" root = Some (DMap protocols) →
  dict_get name protocols = Some (DMap entry) →
  "description" ∈ keys entry →
  selects root protocol name →
  repr h (VRef o) (DMap overrides) Fo →
  NoDup Fo →
  overrides ≠ [] →
  depth (DMap base) ≤ fuel →
  depth (DMap overrides) ≤ fuel →
  ∃ m h' dm do,
    get_protocol_inputs fuel file protocol (Some o) h = Ok (m, h') ∧
    m ≠ o ∧
    h' !! m = Some dm ∧
    h' !! o = Some do ∧
    ∀ k v, dict_get k do = Some v → dict_get k dm = Some v.
Proof.
  intros Hfile Hwf Hbase Hprotocols Hentry Hdescr Hname Ho HndFo Hne Hfuel Hfo.
  destruct (protocol_inputs_prefix fuel file root base protocols entry name
              protocol h) as (m & h2 & Fi & Hcall & Hm & HFi & Hlen & Hsame);
    [done..|].
  pose proof (repr_bound _ _ _ _ Ho) as Hb. rewrite Forall_forall in Hb.
  assert (repr h2 (VRef o) (DMap overrides) Fo) as Ho2.
  { eapply repr_frame; [done|]. intros x Hx. apply Hsame. auto. }
  destruct (recursive_merge_sep fuel h2 m o (protocol_inputs base entry)
              overrides Fi Fo)
    as (m' & h' & Fm & _ & Hmerge & _ & Hm' & _).
  { split_and!; [done..|]. intros x Hx1 Hx2. apply HFi in Hx1.
    apply Hb in Hx2. lia. }
  { lia. }
  inversion Ho2 as [| |? do ? ? Hlo Hnddo Hio]; subst.
  destruct (recursive_merge_keeps _ _ _ _ _ _ Hmerge)
    as (Hk & _ & _ & dl' & _ & Hfin).
  destruct (Hfin do Hlo) as (do' & Hlo' & Hlm').
  destruct (Hk _ _ Hlo) as (? & ? & Hkeys). simplify_eq.
  exists m', h', (dict_update dl' do'), do'. split_and!; [| |done|done|].
  - rewrite Hcall, (lookup_obj_Some _ _ _ Hlo), res_bind_Ok.
    destruct do as [|kv do]; [|done].
    inversion Hio; by subst.
  - apply lookup_lt_Some in Hlo. lia.
  - intros k v Hg. rewrite dict_get_update by (by rewrite Hkeys).
    by rewrite Hg.
Qed.

(** X11.  [get_protocol_inputs(cls)] is
    [get_protocol_inputs(cls, get_default_protocol(cls))]: without a
    protocol name the call behaves as with the name that
    [get_default_protocol] returns, with the same overrides. *)
Theorem get_protocol_inputs_default fuel file overrides h name h0 :
  get_default_protocol file h = Ok (VScalar (SStr name), h0) →
  get_protocol_inputs fuel file None overrides h =
    get_protocol_inputs fuel file (Some name) overrides h.
Proof.
  unfold get_default_protocol, get_protocol_inputs, load_protocol_file.
  rewrite !res_bind_Ok. destruct (alloc file h) as [data h1].
  destruct (getitem h1 data "default") as [v| | |] eqn:Hdef; try done.
  rewrite !res_bind_Ok. intros [= -> ->]. by case_decide.
Qed.

(** X18.  A protocol can only be used if it, or the [base], has a
    [description]: when neither has one, [inputs.pop('description')] raises
    the key error of [description], whatever the overrides. *)
Theorem get_protocol_inputs_needs_description
    fuel file root base protocols entry name protocol overrides h :
  file = DMap root →
  wf file →
  dict_get "base" root = Some (DMap base) →
  dict_get "protocols" root = Some (DMap protocols) →
  dict_get name protocols = Some (DMap entry) →
  selects root protocol name →
  depth (DMap base) ≤ fuel →
  "description" ∉ keys base →
  "description" ∉ keys entry →
  get_protocol_inputs fuel file protocol overrides h =
    Raise (KeyError "description").
Proof.
  intros -> Hwf Hbase Hprotocols Hentry Hname Hfuel Hnb Hne.
  destruct (alloc_repr (DMap root) h Hwf)
    as (F0 & hs & Hh0 & Hroot & HndF0 & HF0).
  unfold get_protocol_inputs, load_protocol_file.
  destruct (alloc (DMap root) h) as [data h0]. simpl in Hh0, Hroot. subst h0.
  inversion Hroot as [| |l0 d0 ? F0' Hl0 Hnd0 Hi0]; subst.
  apply NoDup_cons in HndF0 as [Hl0F HndF0'].
  destruct (getitem_repr _ _ _ _ _ _ Hroot Hbase)
    as (? & ? & vb & Fb & ? & ? & _ & Hgb & Hgetb & Hvb & HFb); simplify_eq.
  destruct (getitem_repr _ _ _ _ _ _ Hroot Hprotocols)
    as (? & ? & vp & Fp & ? & ? & _ & Hgp & Hgetp & Hvp & HFp); simplify_eq.
  inversion Hvb as [| |lb db ? Fb' Hlb Hndb Hib]; subst.
  inversion Hvp as [| |lp dp ? Fp' Hlp Hndp Hip]; subst.
  destruct (getitem_repr _ _ _ _ _ _ Hvp Hentry)
    as (? & ? & ve & Fe & ? & ? & _ & Hge & Hgete & Hve & HFe); simplify_eq.
  inversion Hve as [| |le de ? Fe' Hle Hnde Hie]; subst.
  match type of Hi0 with repr_items _ _ _ ?F => rename F into F0' end.
  match type of Hip with repr_items _ _ _ ?F => rename F into Fp' end.
  assert (match protocol with
          | Some s =>
              if decide (s = "") then getitem (h ++ hs) (VRef l0) "default"
              else Ok (VScalar (SStr s))
          | None => getitem (h ++ hs) (VRef l0) "default"
          end = Ok (VScalar (SStr name))) as Hsel.
  { destruct Hname as [[-> Hnn]|[-> Hdef]].
    - by rewrite decide_False.
    - destruct (getitem_repr _ _ _ _ _ _ Hroot Hdef)
        as (? & ? & vd & Fd & ? & ? & _ & _ & -> & Hvd & _).
      by inversion Hvd. }
  assert (NoDup (lp :: Fp')) as HndFp
    by by eapply (repr_items_own _ _ _ _ _ _ _ _ Hi0 Hgp Hvp).
  destruct (recursive_merge_sep fuel (h ++ hs) lb le base entry
              (lb :: Fb') (le :: Fe'))
    as (m & h1 & Fm & _ & Hmerge & _ & _ & Hvm & _).
  { split_and!; [done..| |].
    - apply NoDup_cons in HndFp as [_ HndFp'].
      by eapply (repr_items_own _ _ _ _ _ _ _ _ Hip Hge Hve).
    - intros x Hx1 Hx2.
      eapply (repr_items_disjoint _ _ _ _ "base" "protocols"
                _ _ _ _ _ _ Hi0 HndF0'); [done..|].
      right. by apply HFe. }
  { lia. }
  inversion Hvm as [| |? dm ? ? Hlm Hndm Him]; subst.
  assert (dict_get "description" dm = None) as Hgd.
  { apply dict_get_None. rewrite <- (repr_items_keys _ _ _ _ Him).
    unfold merge_spec. rewrite keys_merge_with, elem_of_app.
    rewrite list_elem_of_filter. tauto. }
  rewrite res_bind_Ok, Hsel, res_bind_Ok, Hgetb, res_bind_Ok.
  rewrite Hgetp, res_bind_Ok. cbn [getitem_val].
  rewrite Hgete, res_bind_Ok. cbn [call_recursive_merge].
  rewrite Hmerge, res_bind_Ok, (lookup_obj_Some _ _ _ Hlm), res_bind_Ok.
  by rewrite Hgd.
Qed.


(** X10.  [get_default_protocol] returns what the file has under
    [default], as it is written there (it does not look at [protocols]), and
    changes no dictionary of the caller; on a file without that key it raises
    the key error of [default]. *)
Theorem get_default_protocol_spec file root h :
  file = DMap root →
  wf file →
  (∀ s, dict_get "default" root = Some (DScalar s) →
     ∃ h', get_default_protocol file h = Ok (VScalar s, h') ∧
           ∀ x : loc, x < length h → h' !! x = h !! x) ∧
  (dict_get "default" root = None →
     get_default_protocol file h = Raise (KeyError "default")).
Proof.
  intros -> Hwf.
  destruct (alloc_repr (DMap root) h Hwf) as (F0 & hs & Hh0 & Hroot & _ & _).
  unfold get_default_protocol, load_protocol_file.
  destruct (alloc (DMap root) h) as [data h0]. simpl in Hh0, Hroot. subst h0.
  inversion Hroot as [| |l0 d0 ? F0' Hl0 Hnd0 Hi0]; subst.
  rewrite res_bind_Ok. split.
  - intros s Hdef.
    destruct (getitem_repr _ _ _ _ _ _ Hroot Hdef)
      as (? & ? & vd & Fd & _ & _ & _ & _ & -> & Hvd & _).
    inversion Hvd; subst. exists (h ++ hs). split; [done|].
    intros y Hy. by apply lookup_app_l.
  - intros Hdef. by rewrite (getitem_missing _ _ _ _ _ Hroot Hdef).
Qed.

Lemma get_protocol_inputs_independent_witness :
  ∃ m1 h1 F1 m2 h2 F2,
    get_protocol_inputs 2 example_file (Some "fast") None example_store
      = Ok (m1, h1) ∧
    get_protocol_inputs 2 example_file (Some "fast") None h1 = Ok (m2, h2) ∧
    repr h2 (VRef m1) (DMap (protocol_inputs example_base example_fast)) F1 ∧
    repr h2 (VRef m2) (DMap (protocol_inputs example_base example_fast)) F2 ∧
    separate F1 F2 ∧
    (∀ x, x ∈ F1 ++ F2 → length example_store ≤ x) ∧
    (∀ x : loc, x < length example_store → h2 !! x = example_store !! x).
Proof.
  apply (get_protocol_inputs_independent 2 example_file example_root
           example_base example_protocols example_fast "fast" (Some "fast")
           example_store).
  - reflexivity.
  - by vm_compute.
  - reflexivity.
  - reflexivity.
  - reflexivity.
  - compute_done.
  - left. by split.
  - simpl. lia.
Defined.

Lemma get_protocol_inputs_empty_overrides_witness :
  ∃ m h',
    get_protocol_inputs 2 example_file (Some "fast") (Some 0) [[]]
      = Ok (m, h') ∧
    get_protocol_inputs 2 example_file (Some "fast") None [[]] = Ok (m, h') ∧
    h' !! 0 = Some [].
Proof.
  apply (get_protocol_inputs_empty_overrides 2 example_file example_root
           example_base example_protocols example_fast "fast" (Some "fast")
           [[]] 0).
  - reflexivity.
  - by vm_compute.
  - reflexivity.
  - reflexivity.
  - reflexivity.
  - compute_done.
  - left. by split.
  - simpl. lia.
  - reflexivity.
Defined.

Lemma get_protocol_inputs_assigns_overrides_witness :
  ∃ m h' after Fo',
    get_protocol_inputs 2 example_file None (Some 1) example_overrides_store
      = Ok (m, h') ∧
    repr h' (VRef 1) (DMap after) Fo' ∧
    dict_get "pw" after =
      Some (DMap [("ecut", DScalar (SInt 99));
                  ("smear", DScalar (SStr "cold"))]) ∧
    dict_get "new" after = Some (DScalar SNone).
Proof.
  destruct (get_protocol_inputs_assigns_overrides 2 example_file example_root
              example_base example_protocols
              [("description", DScalar (SStr "balanced"))] "moderate" None
              example_overrides_store 1 example_overrides [1; 0])
    as (m & h' & after & Fo' & Hcall & Ho' & _ & Hboth & Hother & _).
  - reflexivity.
  - by vm_compute.
  - reflexivity.
  - reflexivity.
  - reflexivity.
  - compute_done.
  - right. by split.
  - by apply (deep_sound 2).
  - compute_done.
  - done.
  - simpl. lia.
  - simpl. lia.
  - exists m, h', after, Fo'. split_and!; [done..| |].
    + by apply (Hboth "pw" [("ecut", DScalar (SInt 30));
                            ("smear", DScalar (SStr "cold"))]
                  [("ecut", DScalar (SInt 99))]).
    + apply (Hother "new"); [done|]. intros a Ha. by vm_compute in Ha.
Defined.

Lemma get_protocol_inputs_shares_overrides_witness :
  ∃ m h' dm do,
    get_protocol_inputs 2 example_file None (Some 1) example_overrides_store
      = Ok (m, h') ∧
    m ≠ 1 ∧
    h' !! m = Some dm ∧
    h' !! 1 = Some do ∧
    ∀ k v, dict_get k do = Some v → dict_get k dm = Some v.
Proof.
  apply (get_protocol_inputs_shares_overrides 2 example_file example_root
           example_base example_protocols
           [("description", DScalar (SStr "balanced"))] "moderate" None
           example_overrides_store 1 example_overrides [1; 0]).
  - reflexivity.
  - by vm_compute.
  - reflexivity.
  - reflexivity.
  - reflexivity.
  - compute_done.
  - right. by split.
  - by apply (deep_sound 2).
  - compute_done.
  - done.
  - simpl. lia.
  - simpl. lia.
Defined.

Lemma get_protocol_inputs_default_witness :
  get_protocol_inputs 2 example_file None None [] =
    get_protocol_inputs 2 example_file (Some "moderate") None [].
Proof.
  apply (get_protocol_inputs_default 2 example_file None [] "moderate"
           (alloc example_file []).2).
  reflexivity.
Defined.

Lemma get_protocol_inputs_needs_description_witness :
  get_protocol_inputs 2 (DMap example_undescribed) None None [] =
    Raise (KeyError "description").
Proof.
  apply (get_protocol_inputs_needs_description 2 (DMap example_undescribed)
           example_undescribed example_base
           [("moderate", DMap [("description", DScalar (SStr "balanced"))]);
            ("fast", DMap [("kpoints", DScalar (SInt 2))])]
           [("kpoints", DScalar (SInt 2))] "fast" None None []).
  - reflexivity.
  - by vm_compute.
  - reflexivity.
  - reflexivity.
  - reflexivity.
  - right. by split.
  - simpl. lia.
  - compute_done.
  - compute_done.
Defined.


Lemma get_default_protocol_spec_witness :
  ∃ h', get_default_protocol example_file example_store =
          Ok (VScalar (SStr "moderate"), h') ∧
        ∀ x : loc, x < length example_store → h' !! x = example_store !! x.
Proof.
  apply (proj1 (get_default_protocol_spec example_file example_root
                  example_store eq_refl I) (SStr "moderate")).
  reflexivity.
Defined.

(** * Protocol files that get_available_protocols rejects *)

Section AvailableFailure.
Variables (h0 : heap) (p : loc) (dp : dict val) (Fp : list loc).
Variables (before rest : dict data) (name : string) (t : data).
Hypothesis Hp : h0 !! p = Some dp.
Hypothesis Hip : repr_items h0 dp (before ++ (name, t) :: rest) Fp.
Hypothesis Hnd : NoDup (keys (before ++ (name, t) :: rest)).
Hypothesis Hdescribed : described before.
Hypothesis Hbad : description_of t = None.

(** The comprehension fails at the first protocol without a description:
    the protocols before it are described in new dictionaries, and the
    objects of the file stay as they are. *)
Lemma available_fails j : ∀ i (hc : heap),
  i + j = length before →
  length h0 < length hc →
  (∀ x : loc, x < length h0 → hc !! x = h0 !! x) →
  for_items (describe_body (length h0)) p i (j + S (length rest)) hc =
    Raise match t with DMap _ => KeyError "description" | _ => TypeError end.
Proof.
  assert (∀ i k v (hc : heap),
            dp !! i = Some (k, v) →
            (∀ x : loc, x < length h0 → hc !! x = h0 !! x) →
            ∃ tk, (before ++ (name, t) :: rest) !! i = Some (k, tk) ∧
                  getitem hc v "description" =
                    match description_of tk with
                    | Some d => getitem hc v "description"
                    | None =>
                        Raise match tk with
                              | DMap _ => KeyError "description"
                              | _ => TypeError
                              end
                    end ∧
                  (is_Some (description_of tk) →
                   ∃ vd, getitem hc v "description" = Ok vd)) as Hentry.
  { intros i k v hc Hi Hsame.
    destruct (repr_items_lookup _ _ _ _ _ _ _ Hip Hi) as (tk & Fv & Hti & Hv & _).
    exists tk. split; [done|].
    pose proof (repr_bound _ _ _ _ Hv) as Hbv. rewrite Forall_forall in Hbv.
    assert (repr hc v tk Fv) as Hvc.
    { eapply repr_frame; [done|]. intros x Hx. apply Hsame. auto. }
    destruct tk as [s|q|items]; simpl.
    - inversion Hvc; subst. split; [done|]. by intros [? ?].
    - inversion Hvc; subst. split; [done|]. by intros [? ?].
    - inversion Hvc as [| |lv dv ? Fv' Hlv Hndv Hiv]; subst.
      destruct (dict_get "description" items) as [d|] eqn:Hd.
      + split; [done|]. intros _.
        destruct (getitem_repr _ _ _ _ _ _ Hvc Hd)
          as (? & ? & vd & ? & _ & _ & _ & _ & Hget & _).
        by exists vd.
      + split; [|by intros [? ?]]. by eapply getitem_missing. }
  induction j as [|j IH]; intros i hc Hij Hlen Hsame.
  - cbn [for_items Nat.add].
    rewrite (lookup_obj_Some hc p dp)
      by (rewrite Hsame; [done|by eapply lookup_lt_Some]).
    rewrite res_bind_Ok.
    pose proof (repr_items_length _ _ _ _ Hip) as Hlendp.
    rewrite length_app in Hlendp. simpl in Hlendp.
    destruct (lookup_lt_is_Some_2 dp i) as [[k v] Hi]; [lia|]. rewrite Hi.
    destruct (Hentry i k v hc Hi Hsame) as (tk & Hti & Hget & _).
    assert (i = length before) as -> by lia.
    rewrite list_lookup_middle in Hti by done. simplify_eq.
    unfold describe_body. rewrite Hget, Hbad. done.
  - cbn [for_items Nat.add].
    rewrite (lookup_obj_Some hc p dp)
      by (rewrite Hsame; [done|by eapply lookup_lt_Some]).
    rewrite res_bind_Ok.
    pose proof (repr_items_length _ _ _ _ Hip) as Hlendp.
    rewrite length_app in Hlendp. simpl in Hlendp.
    destruct (lookup_lt_is_Some_2 dp i) as [[k v] Hi]; [lia|]. rewrite Hi.
    destruct (Hentry i k v hc Hi Hsame) as (tk & Hti & _ & Hget).
    rewrite lookup_app_l in Hti by lia.
    destruct Hget as [vd Hget].
    { apply (Hdescribed k). eapply dict_get_lookup; [|done].
      rewrite fmap_app in Hnd. by apply NoDup_app in Hnd as [? _]. }
    unfold describe_body. rewrite Hget, res_bind_Ok. cbn zeta.
    destruct (lookup_lt_is_Some_2 hc (length h0)) as [dout Hout]; [done|].
    rewrite (lookup_obj_Some _ (length h0) dout) by (by rewrite lookup_app_l).
    rewrite !res_bind_Ok. apply IH; [lia| |].
    + rewrite length_insert, length_app. lia.
    + intros x Hx. rewrite list_lookup_insert_ne by lia.
      rewrite lookup_app_l by lia. by apply Hsame.
Qed.
End AvailableFailure.

(** X12.  If a protocol of the file has no [description], or is not a
    mapping, [get_available_protocols] raises: the key error of
    [description], or a type error.  The protocols before it that have a
    description do not give a partial result. *)
Theorem get_available_protocols_undescribed
    file root before name t rest h :
  file = DMap root →
  wf file →
  dict_get "protocols" root = Some (DMap (before ++ (name, t) :: rest)) →
  described before →
  description_of t = None →
  get_available_protocols file h =
    Raise match t with DMap _ => KeyError "description" | _ => TypeError end.
Proof.
  intros -> Hwf Hprotocols Hdesc Hbad.
  destruct (alloc_repr (DMap root) h Hwf) as (F0 & hs & Hh0 & Hroot & _ & _).
  unfold get_available_protocols, load_protocol_file.
  destruct (alloc (DMap root) h) as [data h0]. simpl in Hh0, Hroot. subst h0.
  inversion Hroot as [| |l0 d0 ? F0' Hl0 Hnd0 Hi0]; subst.
  destruct (getitem_repr _ _ _ _ _ _ Hroot Hprotocols)
    as (d1 & F1 & vp & Fp & _ & _ & _ & _ & Hgetp & Hvp & _).
  inversion Hvp as [| |lp dp ? Fp' Hlp Hndp Hip]; subst.
  rewrite res_bind_Ok, Hgetp, res_bind_Ok.
  rewrite (lookup_obj_Some _ _ _ Hlp), res_bind_Ok. cbn zeta.
  pose proof (repr_items_length _ _ _ _ Hip) as Hlen.
  rewrite length_app in Hlen. simpl in Hlen.
  replace (length dp) with (length before + S (length rest)) by lia.
  rewrite (available_fails (h ++ hs) lp dp Fp' before rest name t); try done.
  - by rewrite (repr_items_keys _ _ _ _ Hip).
  - rewrite (length_app (h ++ hs)). simpl. lia.
  - intros x Hx. by apply lookup_app_l.
Qed.

Lemma get_available_protocols_undescribed_witness :
  get_available_protocols (DMap example_undescribed) [] =
    Raise (KeyError "description").
Proof.
  apply (get_available_protocols_undescribed (DMap example_undescribed)
           example_undescribed
           [("moderate", DMap [("description", DScalar (SStr "balanced"))])]
           "fast" (DMap [("kpoints", DScalar (SInt 2))]) [] []).
  - reflexivity.
  - by vm_compute.
  - reflexivity.
  - intros name t. simpl. case_decide; intros ?; simplify_eq. by eexists.
  - reflexivity.
Defined.

(** X13.  On a file that is not a mapping [get_available_protocols]
    raises a type error; on a file without [protocols] the key error of
    [protocols]; on a file whose [protocols] is not a mapping an attribute
    error (it has no [items]). *)
Theorem get_available_protocols_malformed file h :
  wf file →
  (is_mapping file = false →
   get_available_protocols file h = Raise TypeError) ∧
  (∀ root, file = DMap root → dict_get "protocols" root = None →
     get_available_protocols file h = Raise (KeyError "protocols")) ∧
  (∀ root t, file = DMap root → dict_get "protocols" root = Some t →
     is_mapping t = false →
     get_available_protocols file h = Raise AttributeError).
Proof.
  intros Hwf. split_and!.
  - by destruct file.
  - intros root -> Hnone.
    destruct (alloc_repr (DMap root) h Hwf) as (F0 & hs & Hh0 & Hroot & _ & _).
    unfold get_available_protocols, load_protocol_file.
    destruct (alloc (DMap root) h) as [data h0]. simpl in Hh0, Hroot.
    subst h0. inversion Hroot; subst.
    by rewrite res_bind_Ok, (getitem_missing _ _ _ _ _ Hroot Hnone).
  - intros root t -> Hsome Hnot.
    destruct (alloc_repr (DMap root) h Hwf) as (F0 & hs & Hh0 & Hroot & _ & _).
    unfold get_available_protocols, load_protocol_file.
    destruct (alloc (DMap root) h) as [data h0]. simpl in Hh0, Hroot.
    subst h0. inversion Hroot; subst.
    destruct (getitem_repr _ _ _ _ _ _ Hroot Hsome)
      as (? & ? & vp & ? & _ & _ & _ & _ & Hgetp & Hvp & _).
    rewrite res_bind_Ok, Hgetp, res_bind_Ok.
    destruct t; inversion Hvp; by subst.
Qed.

Lemma get_available_protocols_malformed_witness :
  get_available_protocols (DScalar SNone) [] = Raise TypeError ∧
  get_available_protocols (DMap [("default", DScalar (SStr "fast"))]) [] =
    Raise (KeyError "protocols") ∧
  get_available_protocols (DMap [("protocols", DScalar SNone)]) [] =
    Raise AttributeError.
Proof.
  split_and!.
  - by apply (proj1 (get_available_protocols_malformed (DScalar SNone) [] I)).
  - by apply (proj1 (proj2 (get_available_protocols_malformed
                              (DMap [("default", DScalar (SStr "fast"))]) [] I))
                _ eq_refl).
  - by apply (proj2 (proj2 (get_available_protocols_malformed
                              (DMap [("protocols", DScalar SNone)]) [] I))
                _ (DScalar SNone) eq_refl).
Defined.

(** * Failures and duplicate names in get_initial_magnetization *)

Lemma magnetization_loop_raise mp pf kinds_done kind kinds_left acc acc' e :
  magnetization_loop mp pf kinds_done acc = Ok acc' →
  magnetization_of mp pf (symbol kind) = Raise e →
  magnetization_loop mp pf (kinds_done ++ kind :: kinds_left) acc = Raise e.
Proof.
  intros Hdone Hkind. rewrite magnetization_loop_app, Hdone, res_bind_Ok.
  simpl. by rewrite Hkind.
Qed.

(** X20.  A pseudo potential with zero valence electrons for a kind
    whose tabulated moment is a number other than zero makes
    [get_initial_magnetization] raise [ZeroDivisionError] when the loop
    reaches that kind. *)
Theorem get_initial_magnetization_zero_valence
    table pseudo_family kinds_done kind kinds_left partial entry magmom x :
  magnetization_loop (DMap table) pseudo_family kinds_done [] = Ok partial →
  dict_get (symbol kind) table = Some (DMap entry) →
  dict_get "magmom" entry = Some magmom →
  eq_zero magmom = false →
  as_float magmom = Ok x →
  pseudo_family (symbol kind) = Ok 0%Z →
  get_initial_magnetization (DMap table)
    (kinds_done ++ kind :: kinds_left) pseudo_family =
    Raise ZeroDivisionError.
Proof.
  intros Hdone He Hm Hnz Hx Hz. unfold get_initial_magnetization.
  eapply magnetization_loop_raise; [done|].
  unfold magnetization_of. simpl. rewrite He. simpl. rewrite Hm. simpl.
  rewrite Hnz, Hz. simpl. unfold truediv. by rewrite Hx.
Qed.

(** X21.  The exception that the pseudo potential family raises for the
    element of a kind with a moment other than zero is the exception of the
    call: the kinds before it give no partial result. *)
Theorem get_initial_magnetization_family_error
    table pseudo_family kinds_done kind kinds_left partial entry magmom e :
  magnetization_loop (DMap table) pseudo_family kinds_done [] = Ok partial →
  dict_get (symbol kind) table = Some (DMap entry) →
  dict_get "magmom" entry = Some magmom →
  eq_zero magmom = false →
  pseudo_family (symbol kind) = Raise e →
  get_initial_magnetization (DMap table)
    (kinds_done ++ kind :: kinds_left) pseudo_family = Raise e.
Proof.
  intros Hdone He Hm Hnz Hz. unfold get_initial_magnetization.
  eapply magnetization_loop_raise; [done|].
  unfold magnetization_of. simpl. rewrite He. simpl. rewrite Hm. simpl.
  by rewrite Hnz, Hz.
Qed.

(** X22.  An element of the table without [magmom] makes the call raise
    the key error of [magmom]; a moment of zero in a table without [default]
    makes it raise the key error of [default]. *)
Theorem get_initial_magnetization_missing_entry
    table pseudo_family kinds_done kind kinds_left partial entry :
  magnetization_loop (DMap table) pseudo_family kinds_done [] = Ok partial →
  dict_get (symbol kind) table = Some (DMap entry) →
  (dict_get "magmom" entry = None →
   get_initial_magnetization (DMap table)
     (kinds_done ++ kind :: kinds_left) pseudo_family =
     Raise (KeyError "magmom")) ∧
  (∀ magmom,
     dict_get "magmom" entry = Some magmom → eq_zero magmom = true →
     dict_get "default" table = None →
     get_initial_magnetization (DMap table)
       (kinds_done ++ kind :: kinds_left) pseudo_family =
       Raise (KeyError "default")).
Proof.
  intros Hdone He. unfold get_initial_magnetization. split.
  - intros Hm. eapply magnetization_loop_raise; [done|].
    unfold magnetization_of. simpl. rewrite He. simpl. by rewrite Hm.
  - intros magmom Hm Hz Hd. eapply magnetization_loop_raise; [done|].
    unfold magnetization_of. simpl. rewrite He. simpl. rewrite Hm. simpl.
    by rewrite Hz, Hd.
Qed.

Lemma magnetization_loop_last mp pf kinds : ∀ acc result,
  magnetization_loop mp pf kinds acc = Ok result →
  ∀ kinds1 kind kinds2,
    kinds = kinds1 ++ kind :: kinds2 →
    name kind ∉ name <$> kinds2 →
    ∃ v, magnetization_of mp pf (symbol kind) = Ok v ∧
         dict_get (name kind) result = Some v.
Proof.
  intros acc result Hloop kinds1 kind kinds2 -> Hlast.
  rewrite magnetization_loop_app in Hloop.
  destruct (magnetization_loop mp pf kinds1 acc) as [acc1| | |]; try done.
  rewrite res_bind_Ok in Hloop. simpl in Hloop.
  destruct (magnetization_of mp pf (symbol kind)) as [v| | |]; try done.
  rewrite res_bind_Ok in Hloop. exists v. split; [done|].
  destruct (magnetization_loop_Ok _ _ _ _ _ Hloop) as (_ & Hother & _).
  rewrite Hother by done. by rewrite dict_get_set, decide_True.
Qed.

(** X23.  Kinds need not have distinct names: under a name the result
    holds the value of the last kind of the structure with that name. *)
Theorem get_initial_magnetization_last_kind
    table kinds pseudo_family result kinds1 kind kinds2 :
  get_initial_magnetization (DMap table) kinds pseudo_family = Ok result →
  kinds = kinds1 ++ kind :: kinds2 →
  name kind ∉ name <$> kinds2 →
  ∃ v, assigned table pseudo_family kind v ∧
       dict_get (name kind) result = Some v.
Proof.
  intros Hres Hkinds Hlast.
  destruct (magnetization_loop_last _ _ _ _ _ Hres _ _ _ Hkinds Hlast)
    as (v & Hv & Hget).
  exists v. split; [|done]. by apply magnetization_of_assigned.
Qed.

Lemma magnetization_loop_keys mp pf kinds : ∀ acc result,
  magnetization_loop mp pf kinds acc = Ok result →
  NoDup (keys acc ++ (name <$> kinds)) →
  keys result = keys acc ++ (name <$> kinds).
Proof.
  induction kinds as [|kind kinds IH]; intros acc result Hloop Hnd.
  - simplify_eq/=. by rewrite app_nil_r.
  - simpl in Hloop.
    destruct (magnetization_of mp pf (symbol kind)) as [v| | |]; try done.
    rewrite res_bind_Ok in Hloop. rewrite fmap_cons in Hnd |- *.
    assert (name kind ∉ keys acc) as Hfresh.
    { apply NoDup_app in Hnd as (_ & Hdis & _). intros Hin.
      apply (Hdis _ Hin). by left. }
    rewrite (IH _ _ Hloop); rewrite keys_dict_set_notin by done.
    + by rewrite <- app_assoc.
    + by rewrite <- app_assoc.
Qed.

(** X24.  For a structure whose kinds have distinct names, the keys of
    the result are the names of the kinds in the order of the structure. *)
Theorem get_initial_magnetization_order table kinds pseudo_family result :
  NoDup (name <$> kinds) →
  get_initial_magnetization (DMap table) kinds pseudo_family = Ok result →
  keys result = name <$> kinds.
Proof.
  intros Hnd Hres. by apply (magnetization_loop_keys _ _ _ [] _ Hres).
Qed.

Lemma magnetization_of_kind_ok table pf kind v :
  magnetization_of (DMap table) pf (symbol kind) = Ok v →
  kind_ok table pf kind.
Proof.
  unfold magnetization_of, kind_ok. simpl.
  destruct (dict_get (symbol kind) table) as [e|]; simplify_eq/=; [|done].
  destruct e as [| |entry]; simplify_eq/=; try done.
  destruct (dict_get "magmom" entry) as [magmom|] eqn:Hm; simplify_eq/=;
    [|done].
  intros Hv. exists entry, magmom. split_and!; [done..|].
  destruct (eq_zero magmom).
  - by destruct (dict_get "default" table); simplify_eq/=.
  - destruct (pf (symbol kind)) as [z| | |]; simplify_eq/=.
    destruct (float_of_Z z) as [y| | |] eqn:Hy; simplify_eq/=.
    unfold truediv in Hv.
    destruct (as_float magmom) as [x| | |] eqn:Hx; simplify_eq/=.
    destruct (SFeqb y float_zero) eqn:Hnz; simplify_eq/=.
    by exists z, x, y.
Qed.

(** X25.  [get_initial_magnetization] returns a result exactly when the
    lookups of every kind of the structure succeed ([kind_ok]): no kind is
    skipped. *)
Theorem get_initial_magnetization_succeeds table kinds pseudo_family :
  (∃ result,
     get_initial_magnetization (DMap table) kinds pseudo_family = Ok result) ↔
  Forall (kind_ok table pseudo_family) kinds.
Proof.
  unfold get_initial_magnetization. split.
  - intros [result Hres]. apply Forall_forall. intros kind Hin.
    apply list_elem_of_split in Hin as (kinds1 & kinds2 & ->).
    rewrite magnetization_loop_app in Hres.
    destruct (magnetization_loop _ _ kinds1 []) as [acc| | |]; try done.
    rewrite res_bind_Ok in Hres. simpl in Hres.
    destruct (magnetization_of (DMap table) pseudo_family (symbol kind))
      as [v| | |] eqn:Hv; try done.
    by eapply magnetization_of_kind_ok.
  - intros Hok. apply magnetization_loop_total.
    eapply Forall_impl; [done|]. apply magnetization_of_ok.
Qed.

Lemma get_initial_magnetization_zero_valence_witness :
  get_initial_magnetization (DMap example_table)
    ([ {| symbol := "O"; name := "O" |} ] ++
     {| symbol := "Fe"; name := "Fe1" |} :: [])
    (λ _, Ok 0%Z) = Raise ZeroDivisionError.
Proof.
  eapply (get_initial_magnetization_zero_valence example_table (λ _, Ok 0%Z)
            [ {| symbol := "O"; name := "O" |} ]
            {| symbol := "Fe"; name := "Fe1" |} []).
  - reflexivity.
  - reflexivity.
  - reflexivity.
  - reflexivity.
  - reflexivity.
  - reflexivity.
Defined.

Lemma get_initial_magnetization_family_error_witness :
  get_initial_magnetization (DMap example_table)
    ([ {| symbol := "O"; name := "O" |} ] ++
     {| symbol := "Fe"; name := "Fe1" |} :: [])
    (λ _, Raise ValueError) = Raise ValueError.
Proof.
  eapply (get_initial_magnetization_family_error example_table
            (λ _, Raise ValueError)
            [ {| symbol := "O"; name := "O" |} ]
            {| symbol := "Fe"; name := "Fe1" |} []).
  - reflexivity.
  - reflexivity.
  - reflexivity.
  - reflexivity.
  - reflexivity.
Defined.

Lemma get_initial_magnetization_missing_entry_witness :
  get_initial_magnetization (DMap [("H", DMap [])])
    ([] ++ {| symbol := "H"; name := "H" |} :: []) example_family =
    Raise (KeyError "magmom") ∧
  get_initial_magnetization
    (DMap [("O", DMap [("magmom", DScalar (SInt 0))])])
    ([] ++ {| symbol := "O"; name := "O" |} :: []) example_family =
    Raise (KeyError "default").
Proof.
  split.
  - by apply (proj1 (get_initial_magnetization_missing_entry
                       [("H", DMap [])] example_family []
                       {| symbol := "H"; name := "H" |} [] [] []
                       eq_refl eq_refl)).
  - by apply (proj2 (get_initial_magnetization_missing_entry
                       [("O", DMap [("magmom", DScalar (SInt 0))])]
                       example_family []
                       {| symbol := "O"; name := "O" |} [] []
                       [("magmom", DScalar (SInt 0))]
                       eq_refl eq_refl) (DScalar (SInt 0))).
Defined.

Lemma get_initial_magnetization_last_kind_witness :
  ∃ result v,
    get_initial_magnetization (DMap example_table)
      [ {| symbol := "Fe"; name := "X" |}; {| symbol := "O"; name := "X" |} ]
      example_family = Ok result ∧
    assigned example_table example_family {| symbol := "O"; name := "X" |} v ∧
    dict_get "X" result = Some v.
Proof.
  eexists _.
  edestruct get_initial_magnetization_last_kind
    with (table := example_table) (pseudo_family := example_family)
         (kinds1 := [ {| symbol := "Fe"; name := "X" |} ])
         (kind := {| symbol := "O"; name := "X" |}) (kinds2 := [] : list kind)
    as (v & Hv & Hget); [|reflexivity|apply not_elem_of_nil|];
    [reflexivity|].
  exists v. split; [reflexivity|]. split; [exact Hv|exact Hget].
Defined.

Lemma get_initial_magnetization_order_witness :
  keys example_magnetization = ["Fe1"; "O"; "Fe2"].
Proof.
  apply (get_initial_magnetization_order example_table example_kinds
           example_family example_magnetization).
  - compute_done.
  - by vm_compute.
Defined.

Lemma get_initial_magnetization_succeeds_witness :
  (∃ result,
     get_initial_magnetization (DMap example_table) example_kinds
       example_family = Ok result) ∧
  ¬ Forall (kind_ok example_table example_family)
      [ {| symbol := "H"; name := "H" |} ].
Proof.
  split.
  - apply (get_initial_magnetization_succeeds example_table example_kinds
             example_family).
    repeat constructor.
    + eexists _, _. split; [reflexivity|]. split; [reflexivity|]. simpl.
      eexists _, _, _. split_and!; reflexivity.
    + eexists _, _. split; [reflexivity|]. split; [reflexivity|]. simpl.
      by eexists.
    + eexists _, _. split; [reflexivity|]. split; [reflexivity|]. simpl.
      eexists _, _, _. split_and!; reflexivity.
  - intros Hok.
    apply (get_initial_magnetization_succeeds example_table
             [ {| symbol := "H"; name := "H" |} ] example_family) in Hok
      as [result Hres].
    by vm_compute in Hres.
Defined.

(** * Relax types by value *)

(** X26.  Looking a relax type up by the value of a member gives that
    member back (no two members have the same value, so none is an alias);
    a member found by a value has that value; a string that is the value of
    no member raises [ValueError]. *)
Theorem RelaxType_by_value :
  (∀ member, RelaxType_call (RelaxType_value member) = Ok member) ∧
  (∀ value member,
     RelaxType_call value = Ok member → RelaxType_value member = value) ∧
  (∀ value,
     (∀ member, RelaxType_value member ≠ value) →
     RelaxType_call value = Raise ValueError).
Proof.
  split_and!.
  - by intros [].
  - intros value member. unfold RelaxType_call.
    destruct (find _ _) as [m|] eqn:Hfind; [|done].
    apply find_some in Hfind as [_ Hm]. apply bool_decide_eq_true in Hm.
    by intros [= <-].
  - intros value Hnone. unfold RelaxType_call.
    destruct (find _ _) as [m|] eqn:Hfind; [|done].
    apply find_some in Hfind as [_ Hm]. apply bool_decide_eq_true in Hm.
    by destruct (Hnone m).
Qed.

Lemma RelaxType_by_value_witness :
  RelaxType_call "atoms_cell" = Ok ATOMS_CELL ∧
  RelaxType_call "ATOMS" = Raise ValueError.
Proof.
  split.
  - apply (proj1 RelaxType_by_value ATOMS_CELL).
  - apply (proj2 (proj2 RelaxType_by_value) "ATOMS"). by intros [].
Defined.
